(** * Chakra JS SDK: a shallow embedding of [src/chakra.ts] and [src/exceptions.ts]

    The client talks to a remote service and to local libraries (temporary
    files, the Parquet writer, the file system, the uuid generator).  Every
    such call is an explicit request answered by an arbitrary deterministic
    environment; the client is a state-and-exception monad over the client
    fields, the environment state and the log of calls made so far.

    Console output and colours are not modelled.  Of the progress bars only
    the [ProgressStream] class is, on its own: the calls of the client do
    not go through it. *)

From Stdlib Require Import String Ascii List ZArith NArith QArith Bool Arith Lia.

Import ListNotations.

Set Warnings "-register-all".

Local Open Scope nat_scope.
Local Open Scope list_scope.
Local Open Scope string_scope.

(* ------------------------------------------------------------------------- *)
(** ** JavaScript values *)

(** A JS number: every finite double is a rational; the three special values
    are kept apart. *)
Inductive JsNumber : Type :=
| Finite (q : Q)
| NaN
| Infinity (negative : bool).

Inductive JsValue : Type :=
| JsUndefined
| JsNull
| JsBoolean (b : bool)
| JsNum (n : JsNumber)
| JsBigInt (z : Z)
| JsString (s : string)
| JsDate (time : JsNumber)
| JsArray (items : list JsValue)
| JsObject (entries : list (string * JsValue)).

(** A record of the record set: its own enumerable properties in
    [Object.entries] order. *)
Definition JsRecord : Type := list (string * JsValue).

(** [Number.isInteger] *)
Definition Number_isInteger (n : JsNumber) : bool :=
  match n with
  | Finite q => (Qnum q mod Z.pos (Qden q) =? 0)%Z
  | NaN => false
  | Infinity _ => false
  end.

(** JS truthiness of a [string | null] value: [null] and [''] are falsy. *)
Definition truthy (val : option string) : bool :=
  match val with
  | None => false
  | Some s => negb (String.eqb s "")
  end.

(** [s.split(sep)] for a one-character separator: one more part than there
    are separators, so never empty. *)
Fixpoint split (sep : ascii) (s : string) : list string :=
  match s with
  | EmptyString => [EmptyString]
  | String c rest =>
      if Ascii.eqb c sep then EmptyString :: split sep rest
      else match split sep rest with
           | [] => [String c EmptyString]
           | p :: ps => String c p :: ps
           end
  end.

(** [parts.join(sep)] *)
Fixpoint join (sep : string) (parts : list string) : string :=
  match parts with
  | [] => ""
  | [p] => p
  | p :: ps => p ++ sep ++ join sep ps
  end.

(** A value read out of an array that may be too short, inside a template
    literal: [undefined] prints as the word. *)
Definition template (o : option string) : string :=
  match o with
  | Some s => s
  | None => "undefined"
  end.

(* ------------------------------------------------------------------------- *)
(** ** Errors ([src/exceptions.ts] and the ones of the runtime) *)

(** The [response] an axios error carries: its status and [data?.error]. *)
Record HttpResponse : Type := mkResponse {
  status : Z;
  data_error : option string
}.

Inductive JsError : Type :=
| Error (message : string)
| TypeError (message : string)
| AxiosError (message : string) (response : option HttpResponse)
| ChakraAPIError (message : string) (response : option HttpResponse)
| ChakraAuthError (message : string) (response : option HttpResponse).

(** [err.response] *)
Definition response_of (err : JsError) : option HttpResponse :=
  match err with
  | Error _ | TypeError _ => None
  | AxiosError _ r | ChakraAPIError _ r | ChakraAuthError _ r => r
  end.

(** [axios.isAxiosError(err)] *)
Definition isAxiosError (err : JsError) : bool :=
  match err with
  | AxiosError _ _ => true
  | _ => false
  end.

(** [err instanceof ChakraAPIError]; [ChakraAuthError] extends it. *)
Definition instanceof_ChakraAPIError (err : JsError) : bool :=
  match err with
  | ChakraAPIError _ _ | ChakraAuthError _ _ => true
  | _ => false
  end.

(** [err instanceof ChakraAuthError] *)
Definition instanceof_ChakraAuthError (err : JsError) : bool :=
  match err with
  | ChakraAuthError _ _ => true
  | _ => false
  end.

(** [err.response?.status === code] *)
Definition status_is (code : Z) (err : JsError) : bool :=
  match response_of err with
  | Some r => (status r =? code)%Z
  | None => false
  end.

Inductive Result (A : Type) : Type :=
| Ok (a : A)
| Throw (e : JsError).

Arguments Ok {A} a.
Arguments Throw {A} e.

(* ------------------------------------------------------------------------- *)
(** ** Constants *)

Definition BASE_URL : string := "https://api.chakra.dev".

Definition TOKEN_PREFIX : string := "DDB_".

Definition VERSION : string := "1.0.22".

Definition maxAttempts : nat := 3.

(* ------------------------------------------------------------------------- *)
(** ** The progress stream (lines 17-33 of [src/chakra.ts]) *)

(** A chunk of a file: a [Buffer]. *)
Definition Buffer : Type := list Byte.byte.

(** The calls a [SingleBar] receives. *)
Inductive BarCall : Type :=
| BarStart (total value : N)
| BarUpdate (value : N)
| BarStop.

(** A [ProgressStream]: its fields, with the bar as the calls it has
    received, and the chunks given to [this.push], in order. *)
Record ProgressStream : Type := mkProgressStream {
  total : N;
  transferred : N;
  bar : list BarCall;
  pushed : list Buffer
}.

(** [new ProgressStream(total, bar)], on a bar that has received [calls] *)
Definition new_ProgressStream (total : N) (calls : list BarCall)
  : ProgressStream :=
  mkProgressStream total 0 (calls ++ [BarStart total 0])%list [].

Definition _transform (chunk : Buffer) (s : ProgressStream) : ProgressStream :=
  let transferred' := (transferred s + N.of_nat (length chunk))%N in
  mkProgressStream (total s) transferred'
    (bar s ++ [BarUpdate transferred'])%list (pushed s ++ [chunk])%list.

Definition _flush (s : ProgressStream) : ProgressStream :=
  mkProgressStream (total s) (transferred s) (bar s ++ [BarStop])%list
    (pushed s).

(* ------------------------------------------------------------------------- *)
(** ** Type inference *)

Inductive DuckDbType : Type := BIGINT | DOUBLE | BOOLEAN | TIMESTAMP | VARCHAR.

Inductive ParquetType : Type :=
| PQ_DOUBLE | PQ_BOOLEAN | PQ_TIMESTAMP_MILLIS | PQ_UTF8.

Definition mapJsTypeToDuckDbType (value : JsValue) : DuckDbType :=
  match value with
  | JsNum n => if Number_isInteger n then BIGINT else DOUBLE
  | JsBoolean _ => BOOLEAN
  | JsDate _ => TIMESTAMP
  | _ => VARCHAR
  end.

(** The field type chosen inside [authenticated_push] (lines 309-319). *)
Definition parquetFieldType (val : JsValue) : ParquetType :=
  match val with
  | JsNum _ => PQ_DOUBLE
  | JsBoolean _ => PQ_BOOLEAN
  | JsDate _ => PQ_TIMESTAMP_MILLIS
  | _ => PQ_UTF8
  end.

Definition duckDbTypeName (t : DuckDbType) : string :=
  match t with
  | BIGINT => "BIGINT"
  | DOUBLE => "DOUBLE"
  | BOOLEAN => "BOOLEAN"
  | TIMESTAMP => "TIMESTAMP"
  | VARCHAR => "VARCHAR"
  end.

(* ------------------------------------------------------------------------- *)
(** ** Positional parameters *)

(** [\d] *)
Definition isDigit (c : ascii) : bool :=
  let n := nat_of_ascii c in (48 <=? n)%nat && (n <=? 57)%nat.

Definition isDollar (c : ascii) : bool := Ascii.eqb c "$"%char.

Arguments isDigit : simpl never.
Arguments isDollar : simpl never.

(** The longest run of digits [s] starts with: what [\d+] takes. *)
Fixpoint takeDigits (s : string) : string :=
  match s with
  | String c rest => if isDigit c then String c (takeDigits rest) else ""
  | EmptyString => ""
  end.

(** [parseInt(g1, 10)] on a run of digits.  The value is exact here; a double
    is exact below 2^53 and stays above every array length beyond. *)
Fixpoint parseDigits (acc : N) (ds : string) : N :=
  match ds with
  | String c rest =>
      parseDigits (10 * acc + N.of_nat (nat_of_ascii c - 48)) rest
  | EmptyString => acc
  end.

Definition parseInt (ds : string) : N := parseDigits 0 ds.

(** [/\$\d+/.test(query)] *)
Fixpoint queryHasPositionalParameters (query : string) : bool :=
  match query with
  | String c rest =>
      (isDollar c && match rest with
                     | String d _ => isDigit d
                     | EmptyString => false
                     end)
      || queryHasPositionalParameters rest
  | EmptyString => false
  end.

Definition parameterLimitMessage : string :=
  "Chakra DB does not support more than 8 positional parameters".

(** [query.replace(/\$(\d+)/g, callback)]: the scan goes left to right; at a
    [$] followed by digits the whole run is one match, the callback either
    throws or pushes the parameter and yields [?], and the scan resumes after
    the match ([skip] counts the characters of the match still to be passed).
    Any other character is copied. *)
Fixpoint replaceScan (parameters : list JsValue) (query : string) (skip : nat)
  : Result (string * list JsValue) :=
  match query with
  | EmptyString => Ok ("", [])
  | String c rest =>
      match skip with
      | S skip' => replaceScan parameters rest skip'
      | O =>
          let g1 := takeDigits rest in
          if isDollar c && negb (String.eqb g1 "") then
            (* idx = parseInt(g1, 10) - 1; idx < 0 || idx >= parameters.length *)
            let n := parseInt g1 in
            if (n =? 0)%N || (N.of_nat (length parameters) <? n)%N then
              Throw (Error parameterLimitMessage)
            else
              match replaceScan parameters rest (String.length g1) with
              | Ok (q, ps) =>
                  Ok (String "?"%char q,
                      nth (N.to_nat n - 1) parameters JsUndefined :: ps)
              | Throw e => Throw e
              end
          else
            match replaceScan parameters rest 0 with
            | Ok (q, ps) => Ok (String c q, ps)
            | Throw e => Throw e
            end
      end
  end.

Definition replacePositionalParameters (query : string)
  (parameters : list JsValue) : Result (string * list JsValue) :=
  replaceScan parameters query 0.

(* ------------------------------------------------------------------------- *)
(** ** Calls that leave the client *)

(** The [options] argument of [push]; an absent field is [None]. *)
Record PushOptions : Type := mkOptions {
  createIfMissing : option bool;
  replaceIfExists : option bool;
  dedupeOnAppend : option bool;
  primaryKeyColumns : option (list string)
}.

(** Requests through [this.axiosInstance] carry its default [Authorization]
    header, absent when [None]; [axios.put] to the presigned URL does not. *)
Inductive Request : Type :=
| PostServers (authorization : option string)
    (accessKey secretKey username : option string)
| PostDatabases (authorization : option string) (name : option string)
| PostQuery (authorization : option string) (sql : string)
    (parameters : option (list JsValue))
| GetPresignedUpload (authorization : option string) (filename : string)
| PutPresigned (presignedUrl filePath : string) (contentLength : N)
| PostParquetImport (authorization : option string) (table_name s3_key : string)
| PostParquetImportDedupe (authorization : option string)
    (table_name s3_key : string) (primary_key_columns : list string)
| DeleteFiles (authorization : option string) (fileName : string)
| TmpFile (postfix : string)
| TmpCleanup (path : string)
| ParquetOpenFile (schema : list (string * ParquetType)) (path : string)
| ParquetAppendRow (row : JsRecord)
| ParquetClose
| FsStat (path : string)
| UuidV4.

(** What the caller reads out of a successful reply. *)
Definition reply_type (r : Request) : Type :=
  match r with
  | PostServers _ _ _ _ => string                         (* res.data.token *)
  | PostQuery _ _ _ => (list string * list (list JsValue))%type
                                                          (* columns, rows *)
  | GetPresignedUpload _ _ => (string * string)%type      (* presignedUrl, key *)
  | TmpFile _ => string                                   (* path *)
  | FsStat _ => N                                         (* size *)
  | UuidV4 => string
  | _ => unit
  end.

(** Replies as the log keeps them. *)
Inductive Data : Type :=
| DUnit
| DString (s : string)
| DPair (a b : string)
| DRows (columns : list string) (rows : list (list JsValue))
| DSize (n : N).

Definition data_of (r : Request) : reply_type r -> Data :=
  match r as r0 return reply_type r0 -> Data with
  | PostServers _ _ _ _ => fun t => DString t
  | PostQuery _ _ _ => fun cr => DRows (fst cr) (snd cr)
  | GetPresignedUpload _ _ => fun uk => DPair (fst uk) (snd uk)
  | TmpFile _ => fun p => DString p
  | FsStat _ => fun n => DSize n
  | UuidV4 => fun u => DString u
  | _ => fun _ => DUnit
  end.

Definition logged (r : Request) (res : Result (reply_type r)) : Result Data :=
  match res with
  | Ok a => Ok (data_of r a)
  | Throw e => Throw e
  end.

Definition Event : Type := (Request * Result Data)%type.

(** The fields of a [Chakra] instance; [authorization] is
    [axiosInstance.defaults.headers.common['Authorization']]. *)
Record Client : Type := mkClient {
  dbSessionKey : string;
  quiet : bool;
  tokenValue : option string;
  authorization : option string
}.

(** [new Chakra(dbSessionKey, quiet)] *)
Definition constructor (key : string) (q : bool) : Client :=
  mkClient key q None None.

(** [set token(val)] on the fields *)
Definition set_token (val : option string) (c : Client) : Client :=
  mkClient (dbSessionKey c) (quiet c) val
    (if truthy val then Some ("Bearer " ++ template val) else None).

Section Chakra.

(** The environment: a state and a reply to every request. *)
Variable Env : Type.

Variable respond : forall r : Request, Env -> Result (reply_type r) * Env.

Record World : Type := mkWorld {
  client : Client;
  env : Env;
  log : list Event
}.

(** A computation of the client: it may change the world, and returns or
    throws. *)
Definition M (A : Type) : Type := World -> Result A * World.

Definition ret {A} (a : A) : M A := fun w => (Ok a, w).

Definition throw {A} (e : JsError) : M A := fun w => (Throw e, w).

Definition bind {A B} (m : M A) (f : A -> M B) : M B :=
  fun w =>
    match m w with
    | (Ok a, w') => f a w'
    | (Throw e, w') => (Throw e, w')
    end.

(** [try { m } catch (err) { handler(err) }] *)
Definition tryCatch {A} (m : M A) (handler : JsError -> M A) : M A :=
  fun w =>
    match m w with
    | (Ok a, w') => (Ok a, w')
    | (Throw e, w') => handler e w'
    end.

(** [try { m } finally { fin }] where [fin] cannot throw. *)
Definition tryFinally {A} (m : M A) (fin : World -> World) : M A :=
  fun w => let (r, w') := m w in (r, fin w').

Notation "x <- m ;; k" := (bind m (fun x => k))
  (at level 100, m at next level, right associativity).

Notation "m ;;; k" := (bind m (fun _ => k))
  (at level 100, right associativity).

(** One call: the environment answers, the log grows by one event. *)
Definition call (r : Request) : M (reply_type r) :=
  fun w =>
    let (res, e') := respond r (env w) in
    (res, mkWorld (client w) e' (log w ++ [(r, logged r res)])%list).

(** A call whose promise is dropped: [cleanup()] is not awaited, so its
    outcome reaches nobody. *)
Definition fire (r : Request) (w : World) : World := snd (call r w).

(** [if (cond) { await m }] *)
Definition when (cond : bool) (m : M unit) : M unit :=
  if cond then m else ret tt.

(** [for (const x of xs) { await f(x) }] *)
Fixpoint forEach {A} (xs : list A) (f : A -> M unit) : M unit :=
  match xs with
  | [] => ret tt
  | x :: rest => f x ;;; forEach rest f
  end.

(** [this.token] *)
Definition get_token : M (option string) :=
  fun w => (Ok (tokenValue (client w)), w).

(** [this.token = val] *)
Definition assign_token (val : option string) : M unit :=
  fun w => (Ok tt, mkWorld (set_token val (client w)) (env w) (log w)).

(** The header [this.axiosInstance] sends. *)
Definition header : M (option string) :=
  fun w => (Ok (authorization (client w)), w).

Definition session_key : M string :=
  fun w => (Ok (dbSessionKey (client w)), w).

(** The error [handleApiError(err)] throws: an axios error that carries a
    response is wrapped, with [err.response.data?.error || err.message] as
    its message; any other error goes through as it is. *)
Definition apiError (err : JsError) : JsError :=
  match err with
  | AxiosError msg (Some resp) =>
      ChakraAPIError
        (if truthy (data_error resp) then template (data_error resp) else msg)
        (Some resp)
  | _ => err
  end.

(** [handleApiError(err): never] *)
Definition handleApiError {A} (err : JsError) : M A := throw (apiError err).

Definition fetchToken : M string :=
  key <- session_key ;;
  let parts := split ":" key in
  auth <- header ;;
  tryCatch
    (call (PostServers auth (nth_error parts 0) (nth_error parts 1)
             (nth_error parts 2)))
    (fun err => handleApiError err).

Definition login : M unit :=
  token <- fetchToken ;;
  if String.prefix TOKEN_PREFIX token then assign_token (Some token)
  else throw (Error ("Token must start with '" ++ TOKEN_PREFIX ++ "'")).

(** [isAuthError] of [ensureAuthenticated] *)
Definition isAuthError (err : JsError) : bool :=
  (isAxiosError err && status_is 401 err)
  || (instanceof_ChakraAPIError err && status_is 401 err).

(** The loop of [ensureAuthenticated] with [remaining = maxAttempts - attempt]
    iterations left: [attempt] grows by one at each caught failure. *)
Fixpoint ensureAuthenticated_loop {T} (operation : M T) (remaining : nat)
  : M T :=
  match remaining with
  | O =>
      throw (ChakraAuthError "Failed to authenticate after 3 attempts." None)
  | S remaining' =>
      tok <- get_token ;;
      when (negb (truthy tok)) login ;;;
      tryCatch operation
        (fun err =>
           if isAuthError err then
             login ;;; ensureAuthenticated_loop operation remaining'
           else throw err)
  end.

Definition ensureAuthenticated {T} (operation : M T) : M T :=
  ensureAuthenticated_loop operation maxAttempts.

Definition createDatabaseAndSchema (tableName : string) : M unit :=
  let parts := split "." tableName in
  let databaseName := nth_error parts 0 in
  let schemaName := nth_error parts 1 in
  auth <- header ;;
  tryCatch (call (PostDatabases auth databaseName))
    (fun err => if status_is 409 err then ret tt else handleApiError err) ;;;
  let sql := "CREATE SCHEMA IF NOT EXISTS " ++ template databaseName ++ "."
             ++ template schemaName in
  call (PostQuery auth sql None) ;;;
  ret tt.

(** [Object.entries(sample)] with [sample = data[0]] *)
Definition objectEntries (sample : option JsRecord) : M JsRecord :=
  match sample with
  | Some r => ret r
  | None => throw (TypeError "Cannot convert undefined or null to object")
  end.

Definition columnDefinition (entry : string * JsValue) : string :=
  fst entry ++ " " ++ duckDbTypeName (mapJsTypeToDuckDbType (snd entry)).

Definition createTableSql (tableName : string) (sample : JsRecord) : string :=
  "CREATE TABLE IF NOT EXISTS " ++ tableName ++ " ("
  ++ join ", " (map columnDefinition sample) ++ ")".

Definition createTable (tableName : string) (data : list JsRecord) : M unit :=
  sample <- objectEntries (nth_error data 0) ;;
  auth <- header ;;
  call (PostQuery auth (createTableSql tableName sample) None) ;;;
  ret tt.

Definition replaceExistingTable (tableName : string) : M unit :=
  let dropSql := "DROP TABLE IF EXISTS " ++ tableName in
  auth <- header ;;
  call (PostQuery auth dropSql None) ;;;
  ret tt.

Definition requestPresignedUploadUrl (fileName : string)
  : M (string * string) :=
  auth <- header ;;
  call (GetPresignedUpload auth fileName).

Definition uploadParquetUsingPresignedUrl (presignedUrl filePath : string)
  : M unit :=
  size <- call (FsStat filePath) ;;
  call (PutPresigned presignedUrl filePath size).

Definition importDataFromPresignedUrl (tableName s3Key : string) : M unit :=
  auth <- header ;;
  call (PostParquetImport auth tableName s3Key).

Definition importDataFromAppendOnlyDedup (tableName s3Key : string)
  (primaryKeyColumns : list string) : M unit :=
  auth <- header ;;
  call (PostParquetImportDedupe auth tableName s3Key primaryKeyColumns).

Definition deleteFileFromS3 (s3Key : string) : M unit :=
  auth <- header ;;
  call (DeleteFiles auth s3Key).

Definition orDefault {A} (o : option A) (d : A) : A :=
  match o with
  | Some a => a
  | None => d
  end.

Definition tableNameMessage : string :=
  "Table name must be either a simple name or 'db.schema.table'".

(** Lines 280-289 of [authenticated_push]: the check of the table name and
    the full name it stands for. *)
Definition resolveTableName (tableName : string) : Result string :=
  let parts := split "." tableName in
  if negb (length parts =? 1)%nat && negb (length parts =? 3)%nat then
    Throw (Error tableNameMessage)
  else if (length parts =? 1)%nat then Ok ("duckdb.main." ++ tableName)
  else Ok tableName.

Definition schemaFields (sample : JsRecord) : list (string * ParquetType) :=
  map (fun entry => (fst entry, parquetFieldType (snd entry))) sample.

(** Lines 307-349: what runs between the creation of the temporary file and
    its [cleanup()]. *)
Definition stageAndImport (fullName tempFile : string) (data : list JsRecord)
  (dedupe : bool) (keys : list string) : M unit :=
  sample <- objectEntries (nth_error data 0) ;;
  call (ParquetOpenFile (schemaFields sample) tempFile) ;;;
  forEach data (fun row => call (ParquetAppendRow row)) ;;;
  call ParquetClose ;;;
  uuidStr <- call UuidV4 ;;
  let filename := fullName ++ "_" ++ uuidStr ++ ".parquet" in
  presigned <- requestPresignedUploadUrl filename ;;
  uploadParquetUsingPresignedUrl (fst presigned) tempFile ;;;
  (if dedupe then importDataFromAppendOnlyDedup fullName (snd presigned) keys
   else importDataFromPresignedUrl fullName (snd presigned)) ;;;
  deleteFileFromS3 (snd presigned).

Definition authenticated_push (tableName : string) (data : list JsRecord)
  (options : PushOptions) : M unit :=
  match resolveTableName tableName with
  | Throw e => throw e
  | Ok fullName =>
      tok <- get_token ;;
      if negb (truthy tok) then throw (Error "Authentication required")
      else
        let create := orDefault (createIfMissing options) true in
        let replace := orDefault (replaceIfExists options) false in
        let dedupe := orDefault (dedupeOnAppend options) false in
        let keys := orDefault (primaryKeyColumns options) [] in
        tryCatch
          (when (create || replace) (createDatabaseAndSchema fullName) ;;;
           when replace (replaceExistingTable fullName) ;;;
           when (create || replace) (createTable fullName data) ;;;
           tempFile <- call (TmpFile ".parquet") ;;
           tryFinally (stageAndImport fullName tempFile data dedupe keys)
             (fire (TmpCleanup tempFile)))
          (fun err => handleApiError err)
  end.

Definition push (tableName : string) (data : list JsRecord)
  (options : PushOptions) : M unit :=
  ensureAuthenticated (authenticated_push tableName data options).

(** What an object made by [{}] inherits from: [Object.prototype], until an
    assignment to [__proto__] makes it another object, or none. *)
Inductive Prototype : Type :=
| ObjectPrototype
| NullPrototype
| ValuePrototype (value : JsValue).

(** An ordinary object: its prototype and its own properties, in the order
    in which [Object.entries] lists them. *)
Record JsObj : Type := mkObject {
  prototype : Prototype;
  properties : JsRecord
}.

(** The value of the own property [name], if there is one. *)
Fixpoint ownProperty (entries : JsRecord) (name : string) : option JsValue :=
  match entries with
  | [] => None
  | (k, v) :: rest => if String.eqb k name then Some v else ownProperty rest name
  end.

(** The array index [name] is, if it is one: the decimal form, without
    leading zeros, of an integer from 0 to 2^32 - 2.  The own properties
    named by array indices come first, by ascending index; the others
    follow in the order of their creation. *)
Definition arrayIndex (name : string) : option N :=
  match name with
  | EmptyString => None
  | String c _ =>
      if String.eqb (takeDigits name) name
         && (String.eqb name "0" || negb (Ascii.eqb c "0"))
         && (parseInt name <? 4294967295)%N
      then Some (parseInt name)
      else None
  end.

(** A new value for the own property [name]; its place is kept. *)
Fixpoint updateOwn (entries : JsRecord) (name : string) (val : JsValue)
  : JsRecord :=
  match entries with
  | [] => []
  | (k, v) :: rest =>
      if String.eqb k name then (k, val) :: rest
      else (k, v) :: updateOwn rest name val
  end.

(** A new own property named by the array index [n], put after the
    properties of smaller indices. *)
Fixpoint insertIndex (n : N) (name : string) (val : JsValue)
  (entries : JsRecord) : JsRecord :=
  match entries with
  | [] => [(name, val)]
  | (k, v) :: rest =>
      match arrayIndex k with
      | Some m =>
          if (m <? n)%N then (k, v) :: insertIndex n name val rest
          else (name, val) :: entries
      | None => (name, val) :: entries
      end
  end.

(** A new own property. *)
Definition defineOwn (entries : JsRecord) (name : string) (val : JsValue)
  : JsRecord :=
  match arrayIndex name with
  | Some n => insertIndex n name val entries
  | None => (entries ++ [(name, val)])%list
  end.

(** Whether [__proto__], looked up from this prototype on, is the accessor
    of [Object.prototype]: not without a prototype, and not when the object
    inherited from has a property of that name of its own (an object that
    [JSON.parse] made can have one). *)
Definition inheritsProtoAccessor (p : Prototype) : bool :=
  match p with
  | ObjectPrototype => true
  | NullPrototype => false
  | ValuePrototype (JsObject entries) =>
      match ownProperty entries "__proto__" with
      | Some _ => false
      | None => true
      end
  | ValuePrototype _ => true
  end.

(** [obj[col] = val] on an ordinary object.  An own property gets the new
    value.  Without one, the assignment makes a new own property (what is
    inherited under that name is a writable data property, or nothing),
    except for [__proto__] where its accessor is inherited: the setter makes
    an object or [null] the prototype, and ignores any other value. *)
Definition setProperty (obj : JsObj) (col : string) (val : JsValue) : JsObj :=
  match ownProperty (properties obj) col with
  | Some _ => mkObject (prototype obj) (updateOwn (properties obj) col val)
  | None =>
      if String.eqb col "__proto__" && inheritsProtoAccessor (prototype obj)
      then
        match val with
        | JsObject _ | JsArray _ | JsDate _ =>
            mkObject (ValuePrototype val) (properties obj)
        | JsNull => mkObject NullPrototype (properties obj)
        | _ => obj
        end
      else mkObject (prototype obj) (defineOwn (properties obj) col val)
  end.

(** [columns.forEach((col, idx) => { obj[col] = row[idx] })] from [idx] on *)
Fixpoint assignColumns (columns : list string) (row : list JsValue)
  (idx : nat) (obj : JsObj) : JsObj :=
  match columns with
  | [] => obj
  | col :: rest =>
      assignColumns rest row (S idx)
        (setProperty obj col (nth idx row JsUndefined))
  end.

(** The object made of a row: an object literal with the own properties
    [entries] (none, for the [{}] of line 382), then the assignments. *)
Definition zipRow (columns : list string) (row : list JsValue) (idx : nat)
  (entries : JsRecord) : JsObj :=
  assignColumns columns row idx (mkObject ObjectPrototype entries).

Definition lift {A} (r : Result A) : M A :=
  match r with
  | Ok a => ret a
  | Throw e => throw e
  end.

Definition authenticated_execute (query : string) (parameters : list JsValue)
  : M (list JsObj) :=
  tok <- get_token ;;
  if negb (truthy tok) then throw (Error "Authentication required")
  else
    tryCatch
      (qp <- (if queryHasPositionalParameters query
              then lift (replacePositionalParameters query parameters)
              else ret (query, parameters)) ;;
       auth <- header ;;
       res <- call (PostQuery auth (fst qp) (Some (snd qp))) ;;
       ret (map (fun row => zipRow (fst res) row 0 []) (snd res)))
      (fun err => handleApiError err).

Definition execute (query : string) (parameters : list JsValue)
  : M (list JsObj) :=
  ensureAuthenticated (authenticated_execute query parameters).

(** The requests a run added to the log, in order. *)
Definition requests (l : list Event) : list Request := map fst l.

End Chakra.

Arguments mkWorld {Env} _ _ _.
Arguments client {Env} _.
Arguments env {Env} _.
Arguments log {Env} _.
Arguments ret {Env A} _ _.
Arguments throw {Env A} _ _.
Arguments bind {Env A B} _ _ _.
Arguments tryCatch {Env A} _ _ _.
Arguments tryFinally {Env A} _ _ _.
Arguments call {Env} _ _ _.
Arguments fire {Env} _ _ _.
Arguments when {Env} _ _ _.
Arguments forEach {Env A} _ _ _.
Arguments get_token {Env} _.
Arguments assign_token {Env} _ _.
Arguments header {Env} _.
Arguments session_key {Env} _.
Arguments handleApiError {Env A} _ _.
Arguments lift {Env A} _ _.
Arguments objectEntries {Env} _ _.
Arguments fetchToken {Env} _ _.
Arguments login {Env} _ _.
Arguments ensureAuthenticated_loop {Env} _ {T} _ _ _.
Arguments ensureAuthenticated {Env} _ {T} _ _.
Arguments createDatabaseAndSchema {Env} _ _ _.
Arguments createTable {Env} _ _ _ _.
Arguments replaceExistingTable {Env} _ _ _.
Arguments requestPresignedUploadUrl {Env} _ _ _.
Arguments uploadParquetUsingPresignedUrl {Env} _ _ _ _.
Arguments importDataFromPresignedUrl {Env} _ _ _ _.
Arguments importDataFromAppendOnlyDedup {Env} _ _ _ _ _.
Arguments deleteFileFromS3 {Env} _ _ _.
Arguments stageAndImport {Env} _ _ _ _ _ _ _.
Arguments authenticated_push {Env} _ _ _ _ _.
Arguments push {Env} _ _ _ _ _.
Arguments authenticated_execute {Env} _ _ _ _.
Arguments execute {Env} _ _ _ _.

(* ------------------------------------------------------------------------- *)
(** ** The vocabulary of the properties

    What follows is not the client's code: the definitions the statements
    about it are written with, and the concrete environments and inputs the
    client is run on. *)

(** *** Scripted environments and sample inputs *)

(** A script fixes the token the service hands out and which calls fail: the
    state counts the calls answered so far. *)
Record Script : Type := mkScript {
  token_reply : string;
  failure : Request -> nat -> option JsError
}.

Definition default_reply (tok : string) (r : Request) : reply_type r :=
  match r as r0 return reply_type r0 with
  | PostServers _ _ _ _ => tok
  | PostQuery _ _ _ => ([], [])
  | GetPresignedUpload _ _ => ("https://bucket/put", "staged-key")
  | TmpFile _ => "/tmp/tmp-1.parquet"
  | FsStat _ => 128%N
  | UuidV4 => "uuid-1"
  | PostDatabases _ _ | PutPresigned _ _ _ | PostParquetImport _ _ _
  | PostParquetImportDedupe _ _ _ _ | DeleteFiles _ _ | TmpCleanup _
  | ParquetOpenFile _ _ | ParquetAppendRow _ | ParquetClose => tt
  end.

Definition scripted (sc : Script) (r : Request) (n : nat)
  : Result (reply_type r) * nat :=
  (match failure sc r n with
   | Some e => Throw e
   | None => Ok (default_reply (token_reply sc) r)
   end, S n).

(** Every call succeeds. *)
Definition healthy : Script := mkScript "DDB_token" (fun _ _ => None).

(** The service hands out a token of another kind. *)
Definition wrongPrefix : Script := mkScript "JWT_token" (fun _ _ => None).

Definition httpFailure (code : Z) : JsError :=
  AxiosError "Request failed" (Some (mkResponse code None)).

(** Every query is answered 401. *)
Definition unauthorized : Script :=
  mkScript "DDB_token"
    (fun r _ => match r with
                | PostQuery _ _ _ => Some (httpFailure 401)
                | _ => None
                end).

(** The import of the staged file is answered 500. *)
Definition importFails : Script :=
  mkScript "DDB_token"
    (fun r _ => match r with
                | PostParquetImport _ _ _ => Some (httpFailure 500)
                | _ => None
                end).

(** A fresh client and one that holds a token. *)
Definition freshWorld : World nat :=
  mkWorld (constructor "ak:sk:user" true) 0%nat [].

Definition loggedInWorld : World nat :=
  mkWorld (set_token (Some "DDB_token") (constructor "ak:sk:user" true))
    0%nat [].

Definition defaultOptions : PushOptions := mkOptions None None None None.

Definition alice : JsRecord :=
  [("id", JsNum (Finite 1)); ("name", JsString "Alice");
   ("active", JsBoolean true)].

(** *** Type inference *)



(** *** Table references *)

(** The number of dots of a name. *)
Fixpoint dots (s : string) : nat :=
  match s with
  | EmptyString => 0
  | String c rest => (if Ascii.eqb c "." then 1 else 0) + dots rest
  end.

(** *** Kinds of calls *)

(** The endpoint or library function a request goes to. *)
Inductive Kind : Type :=
| KServers | KDatabases | KQuery | KPresignedUpload | KPut | KImport
| KImportDedupe | KDelete | KTmpFile | KTmpCleanup | KParquetOpen
| KParquetAppend | KParquetClose | KStat | KUuid.

Definition kind (r : Request) : Kind :=
  match r with
  | PostServers _ _ _ _ => KServers
  | PostDatabases _ _ => KDatabases
  | PostQuery _ _ _ => KQuery
  | GetPresignedUpload _ _ => KPresignedUpload
  | PutPresigned _ _ _ => KPut
  | PostParquetImport _ _ _ => KImport
  | PostParquetImportDedupe _ _ _ _ => KImportDedupe
  | DeleteFiles _ _ => KDelete
  | TmpFile _ => KTmpFile
  | TmpCleanup _ => KTmpCleanup
  | ParquetOpenFile _ _ => KParquetOpen
  | ParquetAppendRow _ => KParquetAppend
  | ParquetClose => KParquetClose
  | FsStat _ => KStat
  | UuidV4 => KUuid
  end.

(** The calls that serialize, stage, import and unstage the records: all
    that [push] does after it has read the sample. *)
Definition stagingKind (k : Kind) : bool :=
  match k with
  | KServers | KDatabases | KQuery | KTmpFile | KTmpCleanup => false
  | _ => true
  end.

(** The calls [push] can make before it reads the sample. *)
Definition beforeStaging (k : Kind) : bool := negb (stagingKind k).

(** *** The token and its header *)

(** The header is [Bearer <token>] when the token is truthy, absent when
    it is [null] or empty. *)
Definition header_invariant (c : Client) : Prop :=
  authorization c
  = if truthy (tokenValue c) then Some ("Bearer " ++ template (tokenValue c))
    else None.

(** The invariant as the claim words it: a header if and only if a token. *)
Definition header_iff_token (c : Client) : Prop :=
  (exists t, tokenValue c = Some t /\ authorization c = Some ("Bearer " ++ t))
  <-> tokenValue c <> None.

(** *** Login and retry *)

(** The request [fetchToken] sends. *)
Definition loginRequest (c : Client) : Request :=
  let parts := split ":" (dbSessionKey c) in
  PostServers (authorization c) (nth_error parts 0) (nth_error parts 1)
    (nth_error parts 2).

Definition prefixMessage : string := "Token must start with 'DDB_'".

Definition exhaustedError : JsError :=
  ChakraAuthError "Failed to authenticate after 3 attempts." None.

(** *** Queries and their placeholders *)

(** A query cut at its placeholders: the text before each placeholder with
    the digits after its [$], in order, and the text after the last one. *)
Fixpoint assemble (pieces : list (string * string)) (tail : string) : string :=
  match pieces with
  | [] => tail
  | (text, digits) :: rest =>
      text ++ String "$" (digits ++ assemble rest tail)
  end.

(** The same query with [?] at every placeholder. *)
Fixpoint questionMarks (pieces : list (string * string)) (tail : string)
  : string :=
  match pieces with
  | [] => tail
  | (text, _) :: rest => text ++ String "?" (questionMarks rest tail)
  end.

(** The indices the placeholders refer to, left to right. *)
Definition references (pieces : list (string * string)) : list N :=
  map (fun piece => parseInt (snd piece)) pieces.

Fixpoint allDigits (s : string) : bool :=
  match s with
  | EmptyString => true
  | String c rest => isDigit c && allDigits rest
  end.

Definition startsWithDigit (s : string) : bool :=
  match s with
  | String c _ => isDigit c
  | EmptyString => false
  end.

(** The cut is the one the regular expression makes: the texts hold no
    placeholder, each placeholder has its digits, all of them (the text
    after it does not go on with a digit). *)
Fixpoint WellCut (pieces : list (string * string)) (tail : string) : Prop :=
  match pieces with
  | [] => queryHasPositionalParameters tail = false
  | (text, digits) :: rest =>
      queryHasPositionalParameters text = false
      /\ digits <> "" /\ allDigits digits = true
      /\ startsWithDigit (assemble rest tail) = false
      /\ WellCut rest tail
  end.

(** [idx < 0 || idx >= parameters.length] for [idx = n - 1] *)
Definition outOfBounds (parameters : list JsValue) (n : N) : bool :=
  (n =? 0)%N || (N.of_nat (length parameters) <? n)%N.

(** [parameters[n - 1]] *)
Definition parameterAt (parameters : list JsValue) (n : N) : JsValue :=
  nth (N.to_nat n - 1) parameters JsUndefined.

(** The rest of [s] after its leading digits. *)
Fixpoint dropDigits (s : string) : string :=
  match s with
  | String c rest => if isDigit c then dropDigits rest else s
  | EmptyString => ""
  end.

(** The cut of a query at its placeholders, by the same scan as
    [replaceScan]. *)
Fixpoint cutScan (query : string) (skip : nat)
  : list (string * string) * string :=
  match query with
  | EmptyString => ([], "")
  | String c rest =>
      match skip with
      | S skip' => cutScan rest skip'
      | O =>
          let g1 := takeDigits rest in
          if isDollar c && negb (String.eqb g1 "") then
            let (pieces, tail) := cutScan rest (String.length g1) in
            (("", g1) :: pieces, tail)
          else
            match cutScan rest 0 with
            | ([], tail) => ([], String c tail)
            | ((text, digits) :: more, tail) =>
                ((String c text, digits) :: more, tail)
            end
      end
  end.

Definition cut (query : string) : list (string * string) * string :=
  cutScan query 0.

(** *** The events of a push *)

Definition importRequest (auth : option string) (fullName key : string)
  (dedupe : bool) (keys : list string) : Request :=
  if dedupe then PostParquetImportDedupe auth fullName key keys
  else PostParquetImport auth fullName key.

Definition appended (row : JsRecord) : Event := (ParquetAppendRow row, Ok DUnit).

(** What a staging that runs to its end leaves in the log. *)
Definition stagingEvents (auth : option string) (fullName tempFile : string)
  (sample : JsRecord) (data : list JsRecord) (dedupe : bool)
  (keys : list string) (uuid url key : string) (size : N) : list Event :=
  (ParquetOpenFile (schemaFields sample) tempFile, Ok DUnit)
  :: map appended data
  ++ [ (ParquetClose, Ok DUnit);
       (UuidV4, Ok (DString uuid));
       (GetPresignedUpload auth (fullName ++ "_" ++ uuid ++ ".parquet"),
        Ok (DPair url key));
       (FsStat tempFile, Ok (DSize size));
       (PutPresigned url tempFile size, Ok DUnit);
       (importRequest auth fullName key dedupe keys, Ok DUnit);
       (DeleteFiles auth key, Ok DUnit) ].

(** What a run that failed leaves: the calls of [full] up to one, answered
    as in [full], then that one, failing with [e]. *)
Definition FailedAt (full : list Event) (e : JsError) (l : list Event)
  : Prop :=
  exists done r d rest,
    full = (done ++ (r, Ok d) :: rest)%list
    /\ l = (done ++ [(r, Throw e)])%list.

Definition lifecycleKind (k : Kind) : bool :=
  match k with
  | KDatabases | KQuery => true
  | _ => false
  end.

Definition schemaSql (fullName : string) : string :=
  let parts := split "." fullName in
  "CREATE SCHEMA IF NOT EXISTS " ++ template (nth_error parts 0) ++ "."
  ++ template (nth_error parts 1).

Definition dropSql (fullName : string) : string :=
  "DROP TABLE IF EXISTS " ++ fullName.

(** The requests for the database, the schema and the table, when all of
    them are made. *)
Definition lifecycleRequests (auth : option string) (fullName : string)
  (data : list JsRecord) (create replace : bool) : list Request :=
  ((if create || replace
    then [PostDatabases auth (nth_error (split "." fullName) 0);
          PostQuery auth (schemaSql fullName) None]
    else [])
   ++ (if replace then [PostQuery auth (dropSql fullName) None] else [])
   ++ (if create || replace
       then match data with
            | sample :: _ =>
                [PostQuery auth (createTableSql fullName sample) None]
            | [] => []
            end
       else []))%list.

Definition sampleMessage : string :=
  "Cannot convert undefined or null to object".

(** What the staging of [data] under [tempFile] did: it threw on the absent
    sample, or ran through [stagingEvents], maybe up to a failed call. *)
Definition Staged (auth : option string) (fullName tempFile : string)
  (data : list JsRecord) (dedupe : bool) (keys : list string)
  (r : Result unit) (l : list Event) : Prop :=
  match data with
  | [] => r = Throw (TypeError sampleMessage) /\ l = []
  | sample :: _ =>
      exists uuid url key size,
        let full := stagingEvents auth fullName tempFile sample data dedupe
                      keys uuid url key size in
        match r with
        | Ok _ => l = full
        | Throw e => FailedAt full e l
        end
  end.

(** What a run of [authenticated_push] did once the name and the token were
    checked: it stopped in the steps before the temporary file, or at its
    creation, or it created the file, staged, and cleaned up. *)
Definition Pushed (auth : option string) (fullName : string)
  (data : list JsRecord) (create replace dedupe : bool) (keys : list string)
  (r : Result unit) (l : list Event) : Prop :=
  exists l1,
    Forall (fun ev : Event => lifecycleKind (kind (fst ev)) = true) l1
    /\ (((exists e, r = Throw e) /\ l = l1
         /\ exists n,
             requests l1
             = firstn n (lifecycleRequests auth fullName data create replace))
        \/ (exists err,
               r = Throw (apiError err)
               /\ requests l1
                  = lifecycleRequests auth fullName data create replace
               /\ l = (l1 ++ [(TmpFile ".parquet", Throw err)])%list)
        \/ (exists tempFile l2 cleaned staged,
               requests l1
               = lifecycleRequests auth fullName data create replace
               /\ l = (l1 ++ (TmpFile ".parquet", Ok (DString tempFile))
                          :: l2 ++ [(TmpCleanup tempFile, cleaned)])%list
               /\ Staged auth fullName tempFile data dedupe keys staged l2
               /\ r = match staged with
                      | Ok _ => Ok tt
                      | Throw e => Throw (apiError e)
                      end)).

(** The requests of a staging that runs to its end. *)
Definition stagingRequests (auth : option string) (fullName tempFile : string)
  (sample : JsRecord) (data : list JsRecord) (dedupe : bool)
  (keys : list string) (uuid url key : string) (size : N) : list Request :=
  (ParquetOpenFile (schemaFields sample) tempFile
   :: map ParquetAppendRow data
   ++ [ ParquetClose;
        UuidV4;
        GetPresignedUpload auth (fullName ++ "_" ++ uuid ++ ".parquet");
        FsStat tempFile;
        PutPresigned url tempFile size;
        importRequest auth fullName key dedupe keys;
        DeleteFiles auth key ])%list.

(** The key of the staged file an import request names. *)
Definition importKey (r : Request) : option string :=
  match r with
  | PostParquetImport _ _ key => Some key
  | PostParquetImportDedupe _ _ key _ => Some key
  | _ => None
  end.

(** The calls that write the file and ask where to upload it. *)
Definition preparationKind (k : Kind) : bool :=
  match k with
  | KParquetOpen | KParquetAppend | KParquetClose | KUuid | KPresignedUpload
  | KStat => true
  | _ => false
  end.

Definition preparationEvents (auth : option string)
  (fullName tempFile : string) (sample : JsRecord) (data : list JsRecord)
  (uuid url key : string) (size : N) : list Event :=
  (ParquetOpenFile (schemaFields sample) tempFile, Ok DUnit)
  :: map appended data
  ++ [ (ParquetClose, Ok DUnit);
       (UuidV4, Ok (DString uuid));
       (GetPresignedUpload auth (fullName ++ "_" ++ uuid ++ ".parquet"),
        Ok (DPair url key));
       (FsStat tempFile, Ok (DSize size)) ].

(** *** Counting events *)

Definition isQuery (ev : Event) : bool :=
  match fst ev with
  | PostQuery _ _ _ => true
  | _ => false
  end.

Definition isLogin (ev : Event) : bool :=
  match fst ev with
  | PostServers _ _ _ _ => true
  | _ => false
  end.

(** How many events of a kind the log of a world holds. *)
Definition count (p : Event -> bool) (w : World nat) : nat :=
  length (filter p (log w)).

Definition dedupeOptions : PushOptions :=
  mkOptions None None (Some true) None.

Definition emptyTokenWorld : World nat :=
  snd (assign_token (Some "") freshWorld).

Section Vocabulary.

Variable Env : Type.
Variable respond : forall r : Request, Env -> Result (reply_type r) * Env.

(** [m] keeps [Inv]: whatever the outcome, a world that satisfies [Inv] is
    left in one that does. *)
Definition Preserves {A} (Inv : World Env -> Prop) (m : M Env A) : Prop :=
  forall w r w', Inv w -> m w = (r, w') -> Inv w'.

(** The worlds a client can be in: built by the constructor, then changed by
    its public members (the [token] setter, [login], [push], [execute]) and
    by the environment on its own. *)
Inductive Reachable : World Env -> Prop :=
| reach_new (key : string) (q : bool) (e : Env) :
    Reachable (mkWorld (constructor key q) e [])
| reach_env (w : World Env) (e : Env) :
    Reachable w -> Reachable (mkWorld (client w) e (log w))
| reach_set_token (w : World Env) (val : option string) :
    Reachable w -> Reachable (snd (assign_token val w))
| reach_login (w : World Env) :
    Reachable w -> Reachable (snd (login respond w))
| reach_push (w : World Env) (tableName : string) (data : list JsRecord)
    (options : PushOptions) :
    Reachable w -> Reachable (snd (push respond tableName data options w))
| reach_execute (w : World Env) (query : string) (ps : list JsValue) :
    Reachable w -> Reachable (snd (execute respond query ps w)).

(** [w] is [w0] after some calls, all of allowed kinds. *)
Definition Extends (allowed : Kind -> bool) (w0 w : World Env) : Prop :=
  exists l, log w = (log w0 ++ l)%list
            /\ Forall (fun ev : Event => allowed (kind (fst ev)) = true) l.

(** Every call is answered: none fails. *)
Definition Answering : Prop :=
  forall r e, exists a e', respond r e = (Ok a, e').

(** A computation that throws from every world. *)
Definition AlwaysThrows {A} (m : M Env A) : Prop :=
  forall w, exists e w', m w = (Throw e, w').

(** The service answered the login with a token of the expected prefix. *)
Definition tokenGranted (w : World Env) : Prop :=
  exists token : string,
    fst (respond (loginRequest (client w)) (env w)) = Ok token
    /\ String.prefix TOKEN_PREFIX token = true.

(** The claim as worded, on a client that holds no token: the token is set
    if and only if the service granted one, and otherwise it stays unset and
    the error is a [ChakraAuthError]. *)
Definition login_sets_token_or_raises_AuthError (w : World Env) : Prop :=
  tokenValue (client w) = None ->
  (tokenValue (client (snd (login respond w))) <> None <-> tokenGranted w)
  /\ (~ tokenGranted w ->
      tokenValue (client (snd (login respond w))) = None
      /\ exists e, fst (login respond w) = Throw e
                   /\ instanceof_ChakraAuthError e = true).

(** The wrapper is ready to run the operation from [w1]: it held a token in
    [w = w1], or held none and the login it made took [w] to [w1]. *)
Definition Ready (w w1 : World Env) : Prop :=
  (truthy (tokenValue (client w)) = true /\ w1 = w)
  \/ (truthy (tokenValue (client w)) = false
      /\ login respond w = (Ok tt, w1)).

(** The claim as worded: when a placeholder is out of the bounds of the
    parameters, or above 8, [execute] throws and no call has been made. *)
Definition rejects_before_any_call (query : string)
  (parameters : list JsValue) (w : World Env) : Prop :=
  existsb (fun n => outOfBounds parameters n || (8 <? n)%N)
    (references (fst (cut query))) = true ->
  let after := execute respond query parameters w in
  (exists e, fst after = Throw e) /\ log (snd after) = log w.

(** The events a run of [authenticated_push] added to the log. *)
Definition added (tableName : string) (data : list JsRecord)
  (options : PushOptions) (w : World Env) : list Event :=
  skipn (length (log w))
    (log (snd (authenticated_push respond tableName data options w))).

(** The claim as worded: once the temporary file and the staged object
    exist, the run unlinks the one and asks for the deletion of the other. *)
Definition releases_both_resources (tableName : string)
  (data : list JsRecord) (options : PushOptions) (w : World Env) : Prop :=
  forall p url size,
    In (TmpFile ".parquet", Ok (DString p)) (added tableName data options w) ->
    In (PutPresigned url p size, Ok DUnit) (added tableName data options w) ->
    (exists res, In (TmpCleanup p, res) (added tableName data options w))
    /\ (exists a k res,
           In (DeleteFiles a k, res) (added tableName data options w)).

(** The claim as worded: with [dedupeOnAppend] and no key column, [push]
    throws and has called nothing. *)
Definition rejects_missing_keys (tableName : string) (data : list JsRecord)
  (options : PushOptions) (w : World Env) : Prop :=
  dedupeOnAppend options = Some true ->
  primaryKeyColumns options = None \/ primaryKeyColumns options = Some [] ->
  let after := push respond tableName data options w in
  (exists e, fst after = Throw e) /\ log (snd after) = log w.

End Vocabulary.

Arguments Preserves {Env A} _ _.
Arguments Reachable {Env} _ _.
Arguments Extends {Env} _ _ _.
Arguments Answering {Env} _.
Arguments AlwaysThrows {Env A} _.
Arguments tokenGranted {Env} _ _.
Arguments login_sets_token_or_raises_AuthError {Env} _ _.
Arguments Ready {Env} _ _ _.
Arguments rejects_before_any_call {Env} _ _ _ _.
Arguments added {Env} _ _ _ _ _.
Arguments releases_both_resources {Env} _ _ _ _ _.
Arguments rejects_missing_keys {Env} _ _ _ _ _.

(** *** Errors and sessions *)

(** A query fails for a reason of its own: the service names it. *)
Definition tableMissing : JsError :=
  AxiosError "Request failed with status code 400"
    (Some (mkResponse 400 (Some "Table not found"))).

(** Every query is answered 400. *)
Definition queryRejected : Script :=
  mkScript "DDB_token"
    (fun r _ => match r with
                | PostQuery _ _ _ => Some tableMissing
                | _ => None
                end).

(** The first call is a query answered 401: the token has gone stale.  The
    service then hands out a new one. *)
Definition staleToken : Script :=
  mkScript "DDB_renewed"
    (fun r n => match r with
                | PostQuery _ _ _ =>
                    if (n =? 0)%nat then Some (httpFailure 401) else None
                | _ => None
                end).

(** The database is there already: its creation is answered 409. *)
Definition databaseExists : Script :=
  mkScript "DDB_token"
    (fun r _ => match r with
                | PostDatabases _ _ => Some (httpFailure 409)
                | _ => None
                end).

(** Every login is answered 403. *)
Definition loginRefused : Script :=
  mkScript "DDB_token"
    (fun r _ => match r with
                | PostServers _ _ _ _ => Some (httpFailure 403)
                | _ => None
                end).

(** What [login], [push] and [execute] can make of a client: nothing, or the
    same client holding a token the service granted. *)
Definition SameSession (c c' : Client) : Prop :=
  c' = c
  \/ exists token, String.prefix TOKEN_PREFIX token = true
                   /\ c' = set_token (Some token) c.

(** The error is one [handleApiError] lets through as it is: anything but an
    axios error that carries a response. *)
Definition Surfaced (e : JsError) : Prop := apiError e = e.

(** Whether the run goes on after this event: the call was answered; or it
    was the creation of the database, refused with status 409; or it was the
    cleanup of the temporary file, whose outcome nobody waits for. *)
Definition goesOn (ev : Event) : bool :=
  match fst ev, snd ev with
  | TmpCleanup _, _ => true
  | _, Ok _ => true
  | PostDatabases _ _, Throw err => status_is 409 err
  | _, Throw _ => false
  end.

(** The cleanup of the temporary file. *)
Definition isCleanup (ev : Event) : bool :=
  match fst ev with
  | TmpCleanup _ => true
  | _ => false
  end.

(** A run that threw [e] stopped at a call that failed: all went on until
    the call [rq] failed with [err], after which nothing but the cleanup
    was called, and [e] is [err] as [handleApiError] throws it. *)
Definition StoppedAt (e : JsError) (l : list Event) : Prop :=
  exists done rq err rest,
    l = (done ++ (rq, Throw err) :: rest)%list
    /\ forallb goesOn done = true
    /\ goesOn (rq, Throw err) = false
    /\ forallb isCleanup rest = true
    /\ apiError e = apiError err.

Section Outcomes.

Variable Env : Type.

(** Whatever [m] throws is [Surfaced]. *)
Definition ThrowsSurfaced {A} (m : M Env A) : Prop :=
  forall w e w', m w = (Throw e, w') -> Surfaced e.

(** From a world where a token is held, [m] returns, and a token is still
    held. *)
Definition Returns {A} (m : M Env A) : Prop :=
  forall w, truthy (tokenValue (client w)) = true ->
    exists a w', m w = (Ok a, w')
                 /\ truthy (tokenValue (client w')) = true.

(** [m] stops only at a call that fails. *)
Definition StopsAtFailure {A} (m : M Env A) : Prop :=
  forall w r w',
    m w = (r, w') ->
    exists l,
      log w' = (log w ++ l)%list
      /\ match r with
         | Ok _ => forallb goesOn l = true
         | Throw e => StoppedAt e l
         end.

End Outcomes.

Arguments ThrowsSurfaced {Env A} _.
Arguments Returns {Env A} _.
Arguments StopsAtFailure {Env A} _.

(** *** Strings and their parts *)

(** Whether the character occurs in the string. *)
Fixpoint occurs (c : ascii) (s : string) : bool :=
  match s with
  | EmptyString => false
  | String d rest => Ascii.eqb d c || occurs c rest
  end.

(** *** Queries and their rows *)

(** Lines 371-375 of [authenticated_execute]: the query and the parameters
    that are sent. *)
Definition preparedQuery (query : string) (parameters : list JsValue)
  : Result (string * list JsValue) :=
  if queryHasPositionalParameters query
  then replacePositionalParameters query parameters
  else Ok (query, parameters).

Definition queryRequest (auth : option string) (qp : string * list JsValue)
  : Request :=
  PostQuery auth (fst qp) (Some (snd qp)).

(** The objects made of the rows of a reply. *)
Definition rowObjects (res : list string * list (list JsValue))
  : list JsObj :=
  map (fun row => zipRow (fst res) row 0 []) (snd res).

(** The values the setter of [__proto__] ignores: any but an object or
    [null]. *)
Definition ignoredAsPrototype (val : JsValue) : bool :=
  match val with
  | JsObject _ | JsArray _ | JsDate _ | JsNull => false
  | _ => true
  end.

(** [columns.lastIndexOf(col)], [None] for -1 *)
Fixpoint lastIndexOf (col : string) (columns : list string) : option nat :=
  match columns with
  | [] => None
  | c :: rest =>
      match lastIndexOf col rest with
      | Some i => Some (S i)
      | None => if String.eqb c col then Some 0%nat else None
      end
  end.

(** The body of [authenticated_execute] after its check of the token
    (the [try] of lines 370-393). *)
Definition execute_body {Env : Type}
  (respond : forall r : Request, Env -> Result (reply_type r) * Env)
  (query : string) (parameters : list JsValue) : M Env (list JsObj) :=
  tryCatch
    (bind (if queryHasPositionalParameters query
           then lift (replacePositionalParameters query parameters)
           else ret (query, parameters))
       (fun qp =>
          bind header (fun auth =>
            bind (call respond (PostQuery auth (fst qp) (Some (snd qp))))
              (fun res =>
                 ret (map (fun row => zipRow (fst res) row 0 [])
                        (snd res))))))
    (fun err => handleApiError err).

(** *** The progress stream at work *)

(** What [source.pipe(stream)] does with a [Transform]: every chunk of the
    source goes through [_transform], in order, and the end of the source
    through [_flush]. *)
Definition piped (chunks : list Buffer) (s : ProgressStream)
  : ProgressStream :=
  _flush (fold_left (fun s chunk => _transform chunk s) chunks s).

(** The number of bytes of the chunks. *)
Definition bytes (chunks : list Buffer) : N :=
  N.of_nat (length (concat chunks)).

(** The bytes passed after each chunk, from [start] on. *)
Fixpoint runningTotals (start : N) (chunks : list Buffer) : list N :=
  match chunks with
  | [] => []
  | chunk :: rest =>
      let next := (start + N.of_nat (length chunk))%N in
      next :: runningTotals next rest
  end.

Definition sampleChunks : list Buffer :=
  [[Byte.x50; Byte.x41]; [Byte.x52]; [Byte.x31; Byte.x00]].

(* ------------------------------------------------------------------------- *)
(** ** Positional parameters, on examples *)

Example replace_two :
  replacePositionalParameters "SELECT $2, $1 FROM t WHERE a = $2"
    [JsString "x"; JsBoolean true]
  = Ok ("SELECT ?, ? FROM t WHERE a = ?",
        [JsBoolean true; JsString "x"; JsBoolean true]).
Proof. reflexivity. Qed.

(** The digits after a [$] are taken together: [$10] is the tenth
    parameter, not the first followed by a zero. *)
Example replace_greedy :
  replacePositionalParameters "$10" [JsNull]
  = Throw (Error parameterLimitMessage).
Proof. reflexivity. Qed.

(** A [$] that no digit follows is text. *)
Example replace_dollars :
  replacePositionalParameters "cost$ $$1 $x" [JsString "a"]
  = Ok ("cost$ $? $x", [JsString "a"]).
Proof. reflexivity. Qed.

(** The check is against the number of parameters only: the ninth of nine
    parameters goes through, whatever the message says of a ceiling of 8. *)
Example replace_ninth :
  replacePositionalParameters "SELECT $9"
    [JsNull; JsNull; JsNull; JsNull; JsNull; JsNull; JsNull; JsNull;
     JsString "ninth"]
  = Ok ("SELECT ?", [JsString "ninth"]).
Proof. reflexivity. Qed.

Example cut_two :
  cut "SELECT $2, $1 FROM t"
  = ([("SELECT ", "2"); (", ", "1")], " FROM t").
Proof. reflexivity. Qed.

(* ------------------------------------------------------------------------- *)
(** ** Type inference (section 4.3) *)




(* ------------------------------------------------------------------------- *)
(** ** Table references *)

Lemma split_length (s : string) : length (split "." s) = S (dots s).
Proof.
  induction s as [|c rest IH]; simpl; [reflexivity|].
  destruct (Ascii.eqb c "."); simpl.
  - now rewrite IH.
  - destruct (split "." rest) eqn:E; simpl in *; [discriminate|].
    exact IH.
Qed.

Lemma split_default_prefix (tableName : string) :
  split "." ("duckdb.main." ++ tableName)
  = "duckdb" :: "main" :: split "." tableName.
Proof. reflexivity. Qed.

Lemma resolveTableName_simple (tableName : string) :
  length (split "." tableName) = 1%nat ->
  resolveTableName tableName = Ok ("duckdb.main." ++ tableName)
  /\ resolveTableName ("duckdb.main." ++ tableName)
     = Ok ("duckdb.main." ++ tableName).
Proof.
  intros H. unfold resolveTableName.
  rewrite split_default_prefix. simpl length. rewrite H. split; reflexivity.
Qed.

Lemma resolveTableName_qualified (tableName : string) :
  length (split "." tableName) = 3%nat ->
  resolveTableName tableName = Ok tableName.
Proof. intros H. unfold resolveTableName. now rewrite H. Qed.

Lemma resolveTableName_rejected (tableName : string) :
  length (split "." tableName) <> 1%nat ->
  length (split "." tableName) <> 3%nat ->
  resolveTableName tableName = Throw (Error tableNameMessage).
Proof.
  intros H1 H3. unfold resolveTableName.
  apply Nat.eqb_neq in H1. apply Nat.eqb_neq in H3.
  now rewrite H1, H3.
Qed.

(* ------------------------------------------------------------------------- *)
(** ** Invariants of runs *)

Section Runs.

Variable Env : Type.
Variable respond : forall r : Request, Env -> Result (reply_type r) * Env.

Lemma call_run (r : Request) (w : World Env) :
  call respond r w
  = (fst (respond r (env w)),
     mkWorld (client w) (snd (respond r (env w)))
       (log w ++ [(r, logged r (fst (respond r (env w))))])%list).
Proof. unfold call. now destruct (respond r (env w)). Qed.

Section Invariant.

Variable Inv : World Env -> Prop.
Variable allowed : Kind -> bool.

Hypothesis Inv_call :
  forall r w, allowed (kind r) = true -> Inv w -> Inv (snd (call respond r w)).

Hypothesis Inv_assign :
  forall val w, Inv w -> Inv (mkWorld (set_token val (client w)) (env w) (log w)).

Lemma preserves_ret {A} (a : A) : Preserves Inv (ret a).
Proof. intros w r w' Hw H. inversion H; now subst. Qed.

Lemma preserves_throw {A} (e : JsError) : Preserves Inv (@throw Env A e).
Proof. intros w r w' Hw H. inversion H; now subst. Qed.

Lemma preserves_bind {A B} (m : M Env A) (f : A -> M Env B) :
  Preserves Inv m -> (forall a, Preserves Inv (f a)) ->
  Preserves Inv (bind m f).
Proof.
  intros Hm Hf w r w' Hw H. unfold bind in H.
  destruct (m w) as [[a|e] w1] eqn:E.
  - eapply Hf; [eapply Hm|]; eauto.
  - inversion H; subst. eapply Hm; eauto.
Qed.

Lemma preserves_tryCatch {A} (m : M Env A) (h : JsError -> M Env A) :
  Preserves Inv m -> (forall e, Preserves Inv (h e)) ->
  Preserves Inv (tryCatch m h).
Proof.
  intros Hm Hh w r w' Hw H. unfold tryCatch in H.
  destruct (m w) as [[a|e] w1] eqn:E.
  - inversion H; subst. eapply Hm; eauto.
  - eapply Hh; [eapply Hm|]; eauto.
Qed.

Lemma preserves_tryFinally {A} (m : M Env A) (fin : World Env -> World Env) :
  Preserves Inv m -> (forall w, Inv w -> Inv (fin w)) ->
  Preserves Inv (tryFinally m fin).
Proof.
  intros Hm Hfin w r w' Hw H. unfold tryFinally in H.
  destruct (m w) as [r1 w1] eqn:E. inversion H; subst.
  apply Hfin. eapply Hm; eauto.
Qed.

Lemma preserves_call (r : Request) :
  allowed (kind r) = true -> Preserves Inv (call respond r).
Proof.
  intros Hr w res w' Hw H.
  replace w' with (snd (call respond r w)) by now rewrite H.
  now apply Inv_call.
Qed.

Lemma preserves_fire (r : Request) (w : World Env) :
  allowed (kind r) = true -> Inv w -> Inv (fire respond r w).
Proof. intros Hr Hw. unfold fire. now apply Inv_call. Qed.

Lemma preserves_get_token : Preserves Inv get_token.
Proof. intros w r w' Hw H. inversion H; now subst. Qed.

Lemma preserves_header : Preserves Inv header.
Proof. intros w r w' Hw H. inversion H; now subst. Qed.

Lemma preserves_session_key : Preserves Inv session_key.
Proof. intros w r w' Hw H. inversion H; now subst. Qed.

Lemma preserves_assign_token (val : option string) :
  Preserves Inv (assign_token val).
Proof. intros w r w' Hw H. inversion H; subst. now apply Inv_assign. Qed.

Lemma preserves_handleApiError {A} (err : JsError) :
  Preserves Inv (@handleApiError Env A err).
Proof. apply preserves_throw. Qed.

Lemma preserves_lift {A} (r : Result A) : Preserves Inv (lift r).
Proof. destruct r; [apply preserves_ret | apply preserves_throw]. Qed.

Lemma preserves_objectEntries (sample : option JsRecord) :
  Preserves Inv (objectEntries sample).
Proof. destruct sample; [apply preserves_ret | apply preserves_throw]. Qed.

Lemma preserves_forEach {A} (xs : list A) (f : A -> M Env unit) :
  (forall x, Preserves Inv (f x)) -> Preserves Inv (forEach xs f).
Proof.
  intros Hf. induction xs as [|x rest IH]; simpl.
  - apply preserves_ret.
  - apply preserves_bind; [apply Hf | intros _; exact IH].
Qed.

(** One step of a proof that a composed computation keeps [Inv]. *)
Ltac preserve_step :=
  first
    [ apply preserves_ret | apply preserves_throw | apply preserves_get_token
    | apply preserves_header | apply preserves_session_key
    | apply preserves_assign_token | apply preserves_handleApiError
    | apply preserves_lift | apply preserves_objectEntries
    | match goal with
      | |- Preserves _ (call _ ?r) =>
          apply (preserves_call r); simpl; assumption
      end
    | apply preserves_fire; simpl; assumption
    | apply preserves_bind; [|intros ?]
    | apply preserves_tryCatch; [|intros ?]
    | apply preserves_tryFinally; [|intros ? ?]
    | apply preserves_forEach; intros ?
    | match goal with
      | |- Preserves _ (if ?b then _ else _) => destruct b
      | |- Preserves _ (when ?b _) => unfold when
      end ].

Ltac preserve := repeat preserve_step.

(** Every staging call is allowed once [Hk] says so of their kinds. *)
Ltac staging_allowed Hk :=
  assert (allowed KParquetOpen = true) by (now apply Hk);
  assert (allowed KParquetAppend = true) by (now apply Hk);
  assert (allowed KParquetClose = true) by (now apply Hk);
  assert (allowed KUuid = true) by (now apply Hk);
  assert (allowed KPresignedUpload = true) by (now apply Hk);
  assert (allowed KStat = true) by (now apply Hk);
  assert (allowed KPut = true) by (now apply Hk);
  assert (allowed KImport = true) by (now apply Hk);
  assert (allowed KImportDedupe = true) by (now apply Hk);
  assert (allowed KDelete = true) by (now apply Hk).

Lemma preserves_login :
  allowed KServers = true -> Preserves Inv (login respond).
Proof. intros Hs. unfold login, fetchToken. preserve. Qed.

Lemma preserves_ensureAuthenticated_loop {T} (operation : M Env T) (n : nat) :
  allowed KServers = true -> Preserves Inv operation ->
  Preserves Inv (ensureAuthenticated_loop respond operation n).
Proof.
  intros Hs Hop. pose proof (preserves_login Hs) as Hlogin.
  induction n as [|n IH]; simpl; preserve; assumption.
Qed.

Lemma preserves_authenticated_execute (query : string) (ps : list JsValue) :
  allowed KQuery = true ->
  Preserves Inv (authenticated_execute respond query ps).
Proof. intros Hq. unfold authenticated_execute. preserve. Qed.

(** [push] in general needs every kind of call; on an empty record set the
    staging calls are out of reach. *)
Lemma preserves_authenticated_push (tableName : string)
  (data : list JsRecord) (options : PushOptions) :
  allowed KDatabases = true -> allowed KQuery = true ->
  allowed KTmpFile = true -> allowed KTmpCleanup = true ->
  (data = [] \/ forall k, stagingKind k = true -> allowed k = true) ->
  Preserves Inv (authenticated_push respond tableName data options).
Proof.
  intros Hd Hq Ht Hc Hstage. unfold authenticated_push.
  destruct (resolveTableName tableName) as [fullName|e]; [|preserve].
  apply preserves_bind; [preserve|intros tok].
  destruct (negb (truthy tok)); [preserve|].
  unfold createDatabaseAndSchema, replaceExistingTable, createTable.
  destruct Hstage as [->|Hstage].
  - preserve.
  - staging_allowed Hstage. preserve.
Qed.

End Invariant.

End Runs.

(* ------------------------------------------------------------------------- *)
(** ** The session token and the [Authorization] header *)

Section Lifetime.

Variable Env : Type.
Variable respond : forall r : Request, Env -> Result (reply_type r) * Env.

Lemma header_invariant_set_token (val : option string) (c : Client) :
  header_invariant (set_token val c).
Proof. reflexivity. Qed.

Lemma header_invariant_call (r : Request) (w : World Env) :
  true = true -> header_invariant (client w) ->
  header_invariant (client (snd (call respond r w))).
Proof. intros _ Hw. now rewrite call_run. Qed.

Lemma preserves_header_invariant_login :
  Preserves (fun w => header_invariant (client w)) (login respond).
Proof.
  apply preserves_login with (allowed := fun _ => true);
    solve [reflexivity | exact header_invariant_call].
Qed.

Lemma preserves_header_invariant_push (tableName : string)
  (data : list JsRecord) (options : PushOptions) :
  Preserves (fun w => header_invariant (client w))
    (push respond tableName data options).
Proof.
  apply preserves_ensureAuthenticated_loop with (allowed := fun _ => true);
    try solve [reflexivity | exact header_invariant_call].
  apply preserves_authenticated_push with (allowed := fun _ => true);
    try solve [reflexivity | exact header_invariant_call].
  now right.
Qed.

Lemma preserves_header_invariant_execute (query : string)
  (ps : list JsValue) :
  Preserves (fun w => header_invariant (client w)) (execute respond query ps).
Proof.
  apply preserves_ensureAuthenticated_loop with (allowed := fun _ => true);
    try solve [reflexivity | exact header_invariant_call].
  apply preserves_authenticated_execute with (allowed := fun _ => true);
    solve [reflexivity | exact header_invariant_call].
Qed.

Lemma reachable_header_invariant (w : World Env) :
  Reachable respond w -> header_invariant (client w).
Proof.
  induction 1 as [key q e|w e _ IH|w val _ _|w _ IH|w t d o _ IH|w q ps _ IH].
  - reflexivity.
  - exact IH.
  - apply header_invariant_set_token.
  - destruct (login respond w) as [r w'] eqn:E.
    exact (preserves_header_invariant_login w r w' IH E).
  - destruct (push respond t d o w) as [r w'] eqn:E.
    exact (preserves_header_invariant_push t d o w r w' IH E).
  - destruct (execute respond q ps w) as [r w'] eqn:E.
    exact (preserves_header_invariant_execute q ps w r w' IH E).
Qed.

Lemma header_invariant_iff (c : Client) (h : string) :
  header_invariant c ->
  (authorization c = Some h
   <-> exists t, tokenValue c = Some t /\ t <> "" /\ h = "Bearer " ++ t).
Proof.
  unfold header_invariant, truthy. intros ->.
  destruct (tokenValue c) as [t|]; simpl.
  - destruct (String.eqb_spec t ""); simpl.
    + split; [discriminate|]. intros (t' & Ht & Hne & _).
      inversion Ht; subst. contradiction.
    + split.
      * intros H. inversion H. exists t. auto.
      * intros (t' & Ht & _ & ->). now inversion Ht.
  - split; [discriminate|]. intros (t' & Ht & _). discriminate.
Qed.

(** C9 (as amended). The header is absent at construction; assigning [null]
    or the empty string to the token removes it; and in every reachable
    world the header is present if and only if the token is neither [null]
    nor empty, and then it is [Bearer <token>]. *)
Theorem authorization_header_follows_token :
  (forall key q, authorization (constructor key q) = None) /\
  (forall c, authorization (set_token None c) = None
             /\ authorization (set_token (Some "") c) = None) /\
  (forall w, Reachable respond w ->
     forall h, authorization (client w) = Some h
               <-> exists t, tokenValue (client w) = Some t /\ t <> ""
                             /\ h = "Bearer " ++ t).
Proof.
  split; [reflexivity|]. split; [split; reflexivity|].
  intros w Hw h. apply header_invariant_iff.
  now apply reachable_header_invariant.
Qed.

End Lifetime.

(* ------------------------------------------------------------------------- *)
(** ** What a run adds to the log *)

Section Logs.

Variable Env : Type.
Variable respond : forall r : Request, Env -> Result (reply_type r) * Env.

Lemma extends_refl (allowed : Kind -> bool) (w : World Env) :
  Extends allowed w w.
Proof. exists []. split; [now rewrite app_nil_r | constructor]. Qed.

Lemma extends_call (allowed : Kind -> bool) (w0 : World Env) (r : Request)
  (w : World Env) :
  allowed (kind r) = true -> Extends allowed w0 w ->
  Extends allowed w0 (snd (call respond r w)).
Proof.
  intros Hr (l & Hl & Hall). rewrite call_run. simpl.
  exists (l ++ [(r, logged r (fst (respond r (env w))))])%list. split.
  - now rewrite Hl, app_assoc.
  - apply Forall_app. split; [exact Hall|]. constructor; [exact Hr|constructor].
Qed.

Lemma extends_assign (allowed : Kind -> bool) (w0 : World Env)
  (val : option string) (w : World Env) :
  Extends allowed w0 w ->
  Extends allowed w0 (mkWorld (set_token val (client w)) (env w) (log w)).
Proof. intros H. exact H. Qed.

Lemma ensureAuthenticated_loop_throws {T} (operation : M Env T) (n : nat) :
  AlwaysThrows operation ->
  AlwaysThrows (ensureAuthenticated_loop respond operation n).
Proof.
  intros Hop. induction n as [|n IH]; intros w; simpl.
  - eexists _, _. reflexivity.
  - unfold bind, get_token, tryCatch, when.
    assert (Hretry : forall w1, exists e w',
               match operation w1 with
               | (Ok a, w2) => (Ok a, w2)
               | (Throw err, w2) =>
                   (if isAuthError err
                    then fun w3 =>
                           match login respond w3 with
                           | (Ok _, w4) =>
                               ensureAuthenticated_loop respond operation n w4
                           | (Throw e0, w4) => (Throw e0, w4)
                           end
                    else throw err) w2
               end = (Throw e, w')).
    { intros w1. destruct (Hop w1) as (err & w2 & ->).
      destruct (isAuthError err).
      - destruct (login respond w2) as [[[]|e0] w4].
        + apply IH.
        + eexists _, _. reflexivity.
      - eexists _, _. reflexivity. }
    destruct (negb (truthy (tokenValue (client w)))).
    + destruct (login respond w) as [[[]|e0] w1].
      * apply Hretry.
      * eexists _, _. reflexivity.
    + apply Hretry.
Qed.

Lemma throws_throw {A} (e : JsError) : AlwaysThrows (@throw Env A e).
Proof. intros w. eexists _, _. reflexivity. Qed.

Lemma throws_bind {A B} (m : M Env A) (f : A -> M Env B) :
  (forall a, AlwaysThrows (f a)) -> AlwaysThrows (bind m f).
Proof.
  intros Hf w. unfold bind. destruct (m w) as [[a|e] w1].
  - apply Hf.
  - eexists _, _. reflexivity.
Qed.

Lemma throws_tryCatch {A} (m : M Env A) (h : JsError -> M Env A) :
  AlwaysThrows m -> (forall e, AlwaysThrows (h e)) ->
  AlwaysThrows (tryCatch m h).
Proof.
  intros Hm Hh w. unfold tryCatch. destruct (Hm w) as (e & w1 & ->).
  apply Hh.
Qed.

Lemma throws_tryFinally {A} (m : M Env A) (fin : World Env -> World Env) :
  AlwaysThrows m -> AlwaysThrows (tryFinally m fin).
Proof.
  intros Hm w. unfold tryFinally. destruct (Hm w) as (e & w1 & ->).
  eexists _, _. reflexivity.
Qed.

Lemma authenticated_push_empty_throws (tableName : string)
  (options : PushOptions) :
  AlwaysThrows (authenticated_push respond tableName [] options).
Proof.
  unfold authenticated_push.
  destruct (resolveTableName tableName) as [fullName|e];
    [|apply throws_throw].
  apply throws_bind. intros tok.
  destruct (negb (truthy tok)); [apply throws_throw|].
  apply throws_tryCatch; [|intros e; apply throws_throw].
  do 4 (apply throws_bind; intros ?).
  apply throws_tryFinally. apply throws_throw.
Qed.

(** C10. On an empty record set [push] always fails with a thrown error;
    the calls it made before are logins, the database, schema and drop
    statements and the temporary file and its cleanup: no row is written, no
    upload target is asked for, nothing is uploaded or imported.  With a
    token held, a well-formed table name and every call answered, the error
    is the [TypeError] of reading the entries of the absent sample. *)
Theorem push_empty_record_set_fails (tableName : string)
  (options : PushOptions) (w : World Env) :
  (exists e w' l,
      push respond tableName [] options w = (Throw e, w')
      /\ log w' = (log w ++ l)%list
      /\ Forall (fun ev : Event => stagingKind (kind (fst ev)) = false) l) /\
  (forall fullName,
      resolveTableName tableName = Ok fullName ->
      truthy (tokenValue (client w)) = true ->
      Answering respond ->
      fst (authenticated_push respond tableName [] options w)
      = Throw (TypeError "Cannot convert undefined or null to object")).
Proof.
  split.
  - destruct (ensureAuthenticated_loop_throws _ maxAttempts
                (authenticated_push_empty_throws tableName options) w)
      as (e & w' & Hrun).
    assert (Hext : Extends beforeStaging w w').
    { assert (Hop : Preserves (Extends beforeStaging w)
                      (authenticated_push respond tableName [] options)).
      { apply (preserves_authenticated_push Env respond
                 (Extends beforeStaging w) beforeStaging
                 (fun r0 w0 => extends_call beforeStaging w r0 w0));
          try reflexivity.
        now left. }
      apply (preserves_ensureAuthenticated_loop Env respond
               (Extends beforeStaging w) beforeStaging
               (fun r0 w0 => extends_call beforeStaging w r0 w0)
               (fun val w0 => extends_assign beforeStaging w val w0)
               _ maxAttempts eq_refl Hop w (Throw e) w'
               (extends_refl beforeStaging w) Hrun). }
    destruct Hext as (l & Hl & Hall).
    exists e, w', l. split; [exact Hrun|]. split; [exact Hl|].
    eapply Forall_impl; [|exact Hall].
    intros ev H. unfold beforeStaging in H. now apply negb_true_iff in H.
  - intros fullName Hname Htok Hok.
    unfold authenticated_push. rewrite Hname.
    unfold bind, get_token. rewrite Htok. simpl negb. cbv iota.
    unfold tryCatch, when, createDatabaseAndSchema, replaceExistingTable,
      createTable, tryFinally, stageAndImport, objectEntries, bind, header,
      tryCatch, handleApiError, throw, ret, call.
    simpl nth_error.
    destruct (orDefault (createIfMissing options) true),
      (orDefault (replaceIfExists options) false); simpl;
      repeat match goal with
        | |- context [respond ?r ?e] =>
            let Heq := fresh in
            destruct (Hok r e) as (? & ? & Heq); rewrite Heq; clear Heq;
            simpl
        end;
      reflexivity.
Qed.

End Logs.

(* ------------------------------------------------------------------------- *)
(** ** Login (section 4.1) *)

Section Login.

Variable Env : Type.
Variable respond : forall r : Request, Env -> Result (reply_type r) * Env.

Lemma login_run (w : World Env) :
  let request := loginRequest (client w) in
  let reply := fst (respond request (env w)) in
  let after c := mkWorld c (snd (respond request (env w)))
                   (log w ++ [(request, logged request reply)])%list in
  login respond w
  = match reply with
    | Ok token =>
        if String.prefix TOKEN_PREFIX token
        then (Ok tt, after (set_token (Some token) (client w)))
        else (Throw (Error prefixMessage), after (client w))
    | Throw err => (Throw (apiError err), after (client w))
    end.
Proof.
  unfold login, fetchToken, bind, session_key, header, tryCatch,
    handleApiError, throw, assign_token, loginRequest.
  unfold call. cbv zeta.
  match goal with
  | |- context [respond ?r (env w)] =>
      destruct (respond r (env w)) as [[token|err] e']; [|reflexivity]
  end.
  simpl. now destruct (String.prefix TOKEN_PREFIX token).
Qed.

Lemma apiError_AuthError (err : JsError) :
  instanceof_ChakraAuthError (apiError err) = instanceof_ChakraAuthError err.
Proof. destruct err as [| |m [r|]| |]; reflexivity. Qed.

Lemma prefix_truthy (token : string) :
  String.prefix TOKEN_PREFIX token = true -> truthy (Some token) = true.
Proof. destruct token; [discriminate|reflexivity]. Qed.

Ltac login_cases :=
  repeat match goal with
    | |- _ /\ _ => split
    | |- _ <-> _ => split
    | |- forall _, _ => intro
    | H : exists _, _ |- _ => destruct H
    | H : _ /\ _ |- _ => destruct H
    | H : Ok _ = Ok _ |- _ => inversion H; subst; clear H
    | H : Throw _ = Throw _ |- _ => inversion H; subst; clear H
    end;
  try congruence; try discriminate; try reflexivity.

(** C2 (as amended). [login] makes one request.  It returns, with the token
    set to the one received and the header to [Bearer <token>], if and only
    if the request succeeds and the token starts with [DDB_].  Otherwise the
    client is left as it was (so a token that was unset stays unset) and an
    error is raised which is not an AuthError of the client's making: a plain
    [Error] when the prefix is wrong; when the request fails, the transport's
    error, wrapped as a [ChakraAPIError] if it carries a response. *)
Theorem login_sets_token_iff_granted (w : World Env) :
  let request := loginRequest (client w) in
  let reply := fst (respond request (env w)) in
  let outcome := fst (login respond w) in
  let w' := snd (login respond w) in
  log w' = (log w ++ [(request, logged request reply)])%list
  /\ (outcome = Ok tt <-> tokenGranted respond w)
  /\ (forall token, reply = Ok token ->
        String.prefix TOKEN_PREFIX token = true ->
        client w' = set_token (Some token) (client w)
        /\ tokenValue (client w') = Some token
        /\ authorization (client w') = Some ("Bearer " ++ token))
  /\ (outcome <> Ok tt -> client w' = client w)
  /\ (forall token, reply = Ok token ->
        String.prefix TOKEN_PREFIX token = false ->
        outcome = Throw (Error prefixMessage))
  /\ (forall err, reply = Throw err -> outcome = Throw (apiError err))
  /\ (forall e, outcome = Throw e -> instanceof_ChakraAuthError e = true ->
        reply = Throw e).
Proof.
  cbv zeta. rewrite login_run. unfold tokenGranted.
  destruct (fst (respond (loginRequest (client w)) (env w)))
    as [token|err] eqn:Ereply.
  - destruct (String.prefix TOKEN_PREFIX token) eqn:Eprefix; simpl.
    + login_cases.
      * now exists token.
      * match goal with
        | H : String.prefix TOKEN_PREFIX ?t = true |- _ =>
            pose proof (prefix_truthy t H) as Ht
        end.
        unfold truthy in Ht. simpl. now rewrite Ht.
    + login_cases.
  - simpl. login_cases.
    rewrite apiError_AuthError in *.
    destruct err as [| |m [r|]| |]; try discriminate; reflexivity.
Qed.

End Login.

(* ------------------------------------------------------------------------- *)
(** ** The retry wrapper (section 4.1) *)

Section Retry.

Variable Env : Type.
Variable respond : forall r : Request, Env -> Result (reply_type r) * Env.

Lemma ensureAuthenticated_loop_S {T} (operation : M Env T) (n : nat)
  (w : World Env) :
  ensureAuthenticated_loop respond operation (S n) w
  = match (if truthy (tokenValue (client w)) then (Ok tt, w)
           else login respond w) with
    | (Throw e, w1) => (Throw e, w1)
    | (Ok _, w1) =>
        match operation w1 with
        | (Ok v, w2) => (Ok v, w2)
        | (Throw err, w2) =>
            if isAuthError err then
              match login respond w2 with
              | (Ok _, w3) => ensureAuthenticated_loop respond operation n w3
              | (Throw e, w3) => (Throw e, w3)
              end
            else (Throw err, w2)
        end
    end.
Proof.
  simpl. unfold bind, get_token, when, tryCatch, throw, ret.
  destruct (truthy (tokenValue (client w))); simpl.
  - destruct (operation w) as [[v|err] w2]; [reflexivity|].
    now destruct (isAuthError err).
  - destruct (login respond w) as [[[]|e] w1]; [|reflexivity].
    destruct (operation w1) as [[v|err] w2]; [reflexivity|].
    now destruct (isAuthError err).
Qed.

Lemma ready_run {T} (operation : M Env T) (n : nat) (w w1 : World Env) :
  Ready respond w w1 ->
  ensureAuthenticated_loop respond operation (S n) w
  = match operation w1 with
    | (Ok v, w2) => (Ok v, w2)
    | (Throw err, w2) =>
        if isAuthError err then
          match login respond w2 with
          | (Ok _, w3) => ensureAuthenticated_loop respond operation n w3
          | (Throw e, w3) => (Throw e, w3)
          end
        else (Throw err, w2)
    end.
Proof.
  intros [[Htok ->]|[Htok Hlogin]]; rewrite ensureAuthenticated_loop_S, Htok.
  - reflexivity.
  - now rewrite Hlogin.
Qed.

Lemma login_ok_truthy (w w' : World Env) :
  login respond w = (Ok tt, w') -> truthy (tokenValue (client w')) = true.
Proof.
  rewrite login_run.
  destruct (fst (respond (loginRequest (client w)) (env w))) as [token|err];
    [|discriminate].
  destruct (String.prefix TOKEN_PREFIX token) eqn:E; [|discriminate].
  intros H. inversion H; subst. simpl. now apply prefix_truthy.
Qed.

(** The operation is run at most [n] times by [n] iterations. *)
Lemma attempts_bounded {T} (operation : M Env T) (runs : World Env -> nat) :
  (forall w, runs (snd (operation w)) = S (runs w)) ->
  (forall w, runs (snd (login respond w)) = runs w) ->
  forall n w,
    runs (snd (ensureAuthenticated_loop respond operation n w)) <= runs w + n.
Proof.
  intros Hop Hlogin. induction n as [|n IH]; intros w.
  - simpl. lia.
  - rewrite ensureAuthenticated_loop_S.
    assert (Hfrom : forall w1, runs w1 = runs w ->
      runs (snd (match operation w1 with
                 | (Ok v, w2) => (Ok v, w2)
                 | (Throw err, w2) =>
                     if isAuthError err then
                       match login respond w2 with
                       | (Ok _, w3) =>
                           ensureAuthenticated_loop respond operation n w3
                       | (Throw e, w3) => (Throw e, w3)
                       end
                     else (Throw err, w2)
                 end)) <= runs w + S n).
    { intros w1 H1. pose proof (Hop w1) as Hrun.
      destruct (operation w1) as [[v|err] w2]; simpl in *; [lia|].
      destruct (isAuthError err); simpl; [|lia].
      pose proof (Hlogin w2) as Hl.
      destruct (login respond w2) as [[[]|e] w3]; simpl in *; [|lia].
      specialize (IH w3). lia. }
    destruct (truthy (tokenValue (client w))).
    + now apply Hfrom.
    + pose proof (Hlogin w) as Hl.
      destruct (login respond w) as [[[]|e] w1]; simpl in *; [|lia].
      now apply Hfrom.
Qed.

(** When every run of the operation fails with a 401 and every login is
    answered, [n] iterations run the operation [n] times, log in after each,
    and end in the AuthError. *)
Lemma attempts_exhausted {T} (operation : M Env T)
  (runs logins : World Env -> nat) :
  (forall w, runs (snd (operation w)) = S (runs w)
             /\ logins (snd (operation w)) = logins w) ->
  (forall w, runs (snd (login respond w)) = runs w
             /\ logins (snd (login respond w)) = S (logins w)) ->
  (forall w, exists err, fst (operation w) = Throw err
                         /\ isAuthError err = true) ->
  (forall w, fst (login respond w) = Ok tt) ->
  forall n w, truthy (tokenValue (client w)) = true ->
    let after := ensureAuthenticated_loop respond operation n w in
    fst after = Throw exhaustedError
    /\ runs (snd after) = runs w + n
    /\ logins (snd after) = logins w + n.
Proof.
  intros Hop Hlogin H401 Hok. induction n as [|n IH]; intros w Htok.
  - simpl. repeat split; lia.
  - cbv zeta. rewrite ensureAuthenticated_loop_S, Htok.
    destruct (Hop w) as [Hr Hl]. destruct (H401 w) as (err & Herr & Hauth).
    destruct (operation w) as [res w2]. simpl in *. subst res.
    rewrite Hauth.
    destruct (Hlogin w2) as [Hr2 Hl2]. pose proof (Hok w2) as Hok2.
    destruct (login respond w2) as [res w3] eqn:E. simpl in *. subst res.
    destruct (IH w3 (login_ok_truthy _ _ E)) as (Hres & Hruns & Hlogins).
    repeat split; [exact Hres|lia|lia].
Qed.

(** C1. Through [ensureAuthenticated] an operation is run at most 3 times.
    A run that succeeds returns its value at once.  A run that fails with
    an error that is not a 401 authorization failure has that error
    propagated at once: the world is the one the failed run left, so there
    was no retry and no login after it.  A run that fails with a 401 is
    followed by one login and, if attempts remain, by the next run.  When
    every run fails with a 401 (and the logins go through) the operation is
    run exactly 3 times, each followed by a login, and the wrapper raises
    the [ChakraAuthError]. *)
Theorem ensureAuthenticated_retry_policy (T : Type) (operation : M Env T) :
  (forall runs : World Env -> nat,
      (forall w, runs (snd (operation w)) = S (runs w)) ->
      (forall w, runs (snd (login respond w)) = runs w) ->
      forall w,
        runs (snd (ensureAuthenticated respond operation w)) <= runs w + 3)
  /\ (forall n w w1 v w2,
        Ready respond w w1 -> operation w1 = (Ok v, w2) ->
        ensureAuthenticated_loop respond operation (S n) w = (Ok v, w2))
  /\ (forall n w w1 err w2,
        Ready respond w w1 -> operation w1 = (Throw err, w2) ->
        isAuthError err = false ->
        ensureAuthenticated_loop respond operation (S n) w = (Throw err, w2))
  /\ (forall n w w1 err w2 w3,
        Ready respond w w1 -> operation w1 = (Throw err, w2) ->
        isAuthError err = true -> login respond w2 = (Ok tt, w3) ->
        Ready respond w3 w3
        /\ ensureAuthenticated_loop respond operation (S n) w
           = ensureAuthenticated_loop respond operation n w3)
  /\ (forall runs logins : World Env -> nat,
        (forall w, runs (snd (operation w)) = S (runs w)
                   /\ logins (snd (operation w)) = logins w) ->
        (forall w, runs (snd (login respond w)) = runs w
                   /\ logins (snd (login respond w)) = S (logins w)) ->
        (forall w, exists err, fst (operation w) = Throw err
                               /\ isAuthError err = true) ->
        (forall w, fst (login respond w) = Ok tt) ->
        forall w, truthy (tokenValue (client w)) = true ->
          let after := ensureAuthenticated respond operation w in
          fst after = Throw exhaustedError
          /\ instanceof_ChakraAuthError exhaustedError = true
          /\ runs (snd after) = runs w + 3
          /\ logins (snd after) = logins w + 3).
Proof.
  split; [|split; [|split; [|split]]].
  - intros runs Hop Hlogin w.
    exact (attempts_bounded operation runs Hop Hlogin maxAttempts w).
  - intros n w w1 v w2 Hready Hrun.
    now rewrite (ready_run operation n w w1 Hready), Hrun.
  - intros n w w1 err w2 Hready Hrun Hauth.
    now rewrite (ready_run operation n w w1 Hready), Hrun, Hauth.
  - intros n w w1 err w2 w3 Hready Hrun Hauth Hlogin. split.
    + left. split; [|reflexivity]. exact (login_ok_truthy _ _ Hlogin).
    + now rewrite (ready_run operation n w w1 Hready), Hrun, Hauth, Hlogin.
  - intros runs logins Hop Hlogin H401 Hok w Htok.
    destruct (attempts_exhausted operation runs logins Hop Hlogin H401 Hok
                maxAttempts w Htok) as (Hres & Hruns & Hlogins).
    cbv zeta. unfold ensureAuthenticated. repeat split; assumption.
Qed.

End Retry.

(* ------------------------------------------------------------------------- *)
(** ** Table references (section 3) *)

Section TableNames.

Variable Env : Type.
Variable respond : forall r : Request, Env -> Result (reply_type r) * Env.

(** C6. A table reference has one more segment than it has dots.  With one
    segment it is accepted and stands for [duckdb.main.<name>]: the push is
    the push to that full name.  With three segments it is accepted as it
    is.  With any other number of segments the push is rejected with the
    table-name error, and nothing is called. *)
Theorem table_reference_segments (tableName : string) :
  let segments := length (split "." tableName) in
  segments = S (dots tableName)
  /\ (segments = 1 ->
      resolveTableName tableName = Ok ("duckdb.main." ++ tableName)
      /\ forall data options w,
          authenticated_push respond tableName data options w
          = authenticated_push respond ("duckdb.main." ++ tableName) data
              options w)
  /\ (segments = 3 -> resolveTableName tableName = Ok tableName)
  /\ (segments <> 1 -> segments <> 3 ->
      resolveTableName tableName = Throw (Error tableNameMessage)
      /\ forall data options w,
          authenticated_push respond tableName data options w
          = (Throw (Error tableNameMessage), w)).
Proof.
  cbv zeta. split; [apply split_length|]. split; [|split].
  - intros H. destruct (resolveTableName_simple tableName H) as [H1 H2].
    split; [exact H1|]. intros data options w.
    unfold authenticated_push. now rewrite H1, H2.
  - apply resolveTableName_qualified.
  - intros H1 H3.
    pose proof (resolveTableName_rejected tableName H1 H3) as H.
    split; [exact H|]. intros data options w.
    unfold authenticated_push. now rewrite H.
Qed.

End TableNames.

(* ------------------------------------------------------------------------- *)
(** ** Positional parameters (section 4.7) *)

Lemma append_empty_r (s : string) : s ++ "" = s.
Proof. induction s as [|c s IH]; simpl; [reflexivity|now rewrite IH]. Qed.

Lemma takeDigits_app (digits rest : string) :
  allDigits digits = true -> startsWithDigit rest = false ->
  takeDigits (digits ++ rest) = digits.
Proof.
  intros Hd Hr. induction digits as [|c ds IH]; simpl in *.
  - destruct rest as [|c r]; [reflexivity|]. simpl in *. now rewrite Hr.
  - apply andb_true_iff in Hd. destruct Hd as [Hc Hds].
    rewrite Hc. now rewrite IH.
Qed.

Lemma replaceScan_skip (parameters : list JsValue) (skipped rest : string) :
  replaceScan parameters (skipped ++ rest) (String.length skipped)
  = replaceScan parameters rest 0.
Proof.
  induction skipped as [|c s IH]; simpl; [|exact IH].
  now destruct rest.
Qed.

Lemma startsWithDigit_dollar (rest : string) :
  startsWithDigit (String "$" rest) = false.
Proof. reflexivity. Qed.

(** Text without a placeholder is copied. *)
Lemma replaceScan_text (parameters : list JsValue) (text rest : string) :
  queryHasPositionalParameters text = false ->
  startsWithDigit rest = false ->
  replaceScan parameters (text ++ rest) 0
  = match replaceScan parameters rest 0 with
    | Ok (q, ps) => Ok (text ++ q, ps)
    | Throw e => Throw e
    end.
Proof.
  intros Ht Hr. induction text as [|c t IH]; simpl.
  - now destruct (replaceScan parameters rest 0) as [[q ps]|e].
  - simpl in Ht. apply orb_false_iff in Ht. destruct Ht as [Hc Ht].
    assert (Hno : isDollar c && negb (takeDigits (t ++ rest) =? "") = false).
    { destruct (isDollar c); [|reflexivity].
      assert (Hnone : takeDigits (t ++ rest) = "").
      { destruct t as [|d t']; simpl in *.
        - destruct rest as [|d r]; simpl in *; [reflexivity|now rewrite Hr].
        - now rewrite Hc. }
      now rewrite Hnone. }
    rewrite Hno, (IH Ht).
    now destruct (replaceScan parameters rest 0) as [[q ps]|e].
Qed.

(** A placeholder is checked, then replaced. *)
Lemma replaceScan_placeholder (parameters : list JsValue)
  (digits rest : string) :
  digits <> "" -> allDigits digits = true -> startsWithDigit rest = false ->
  replaceScan parameters (String "$" (digits ++ rest)) 0
  = if outOfBounds parameters (parseInt digits)
    then Throw (Error parameterLimitMessage)
    else match replaceScan parameters rest 0 with
         | Ok (q, ps) =>
             Ok (String "?" q, parameterAt parameters (parseInt digits) :: ps)
         | Throw e => Throw e
         end.
Proof.
  intros Hne Hd Hr. simpl.
  rewrite (takeDigits_app digits rest Hd Hr).
  destruct (String.eqb_spec digits ""); [contradiction|]. simpl.
  unfold outOfBounds.
  destruct ((parseInt digits =? 0)%N
            || (N.of_nat (length parameters) <? parseInt digits)%N);
    [reflexivity|].
  now rewrite replaceScan_skip.
Qed.

Lemma replaceScan_none (parameters : list JsValue) (tail : string) :
  queryHasPositionalParameters tail = false ->
  replaceScan parameters tail 0 = Ok (tail, []).
Proof.
  intros H. rewrite <- (append_empty_r tail) at 1.
  rewrite (replaceScan_text parameters tail "" H eq_refl). simpl.
  now rewrite append_empty_r.
Qed.

Lemma replaceScan_assembled (parameters : list JsValue)
  (pieces : list (string * string)) (tail : string) :
  WellCut pieces tail ->
  replaceScan parameters (assemble pieces tail) 0
  = if existsb (outOfBounds parameters) (references pieces)
    then Throw (Error parameterLimitMessage)
    else Ok (questionMarks pieces tail,
             map (parameterAt parameters) (references pieces)).
Proof.
  induction pieces as [|[text digits] rest IH]; simpl; intros Hcut.
  - now apply replaceScan_none.
  - destruct Hcut as (Htext & Hne & Hdigits & Hnext & Hrest).
    rewrite (replaceScan_text parameters text _ Htext
               (startsWithDigit_dollar _)).
    rewrite (replaceScan_placeholder parameters digits _ Hne Hdigits Hnext).
    destruct (outOfBounds parameters (parseInt digits)); [reflexivity|].
    rewrite (IH Hrest). simpl.
    now destruct (existsb (outOfBounds parameters) (references rest)).
Qed.

Lemma hasPositionalParameters_app (text rest : string) :
  queryHasPositionalParameters rest = true ->
  queryHasPositionalParameters (text ++ rest) = true.
Proof.
  intros H. induction text as [|c t IH]; simpl; [exact H|].
  rewrite IH. apply orb_true_r.
Qed.

Lemma hasPositionalParameters_assembled (piece : string * string)
  (rest : list (string * string)) (tail : string) :
  WellCut (piece :: rest) tail ->
  queryHasPositionalParameters (assemble (piece :: rest) tail) = true.
Proof.
  destruct piece as [text digits]. simpl.
  intros (_ & Hne & Hdigits & _). apply hasPositionalParameters_app.
  destruct digits as [|d ds]; [contradiction|]. simpl in *.
  apply andb_true_iff in Hdigits. destruct Hdigits as [Hd _].
  now rewrite Hd.
Qed.

Lemma takeDigits_dropDigits (s : string) :
  s = takeDigits s ++ dropDigits s.
Proof.
  induction s as [|c s IH]; simpl; [reflexivity|].
  destruct (isDigit c); simpl; [now rewrite <- IH|reflexivity].
Qed.

Lemma allDigits_takeDigits (s : string) : allDigits (takeDigits s) = true.
Proof.
  induction s as [|c s IH]; simpl; [reflexivity|].
  destruct (isDigit c) eqn:E; simpl; [now rewrite E, IH|reflexivity].
Qed.

Lemma startsWithDigit_dropDigits (s : string) :
  startsWithDigit (dropDigits s) = false.
Proof.
  induction s as [|c s IH]; simpl; [reflexivity|].
  destruct (isDigit c) eqn:E; simpl; [exact IH|exact E].
Qed.

Lemma length_dropDigits (s : string) :
  String.length (dropDigits s) <= String.length s.
Proof.
  induction s as [|c s IH]; simpl; [lia|].
  destruct (isDigit c); simpl; lia.
Qed.

Lemma cutScan_skip (skipped rest : string) :
  cutScan (skipped ++ rest) (String.length skipped) = cutScan rest 0.
Proof.
  induction skipped as [|c s IH]; simpl; [|exact IH].
  now destruct rest.
Qed.

Lemma startsWithDigit_takeDigits (s : string) :
  takeDigits s = "" -> startsWithDigit s = false.
Proof.
  destruct s as [|c s]; simpl; [reflexivity|].
  now destruct (isDigit c).
Qed.

Lemma cut_spec_bounded (n : nat) (query : string) :
  String.length query <= n ->
  assemble (fst (cut query)) (snd (cut query)) = query
  /\ WellCut (fst (cut query)) (snd (cut query)).
Proof.
  revert query. induction n as [|n IH]; intros query Hlen.
  - destruct query; [|simpl in Hlen; lia]. now split.
  - destruct query as [|c rest]; [now split|]. simpl in Hlen.
    unfold cut. simpl.
    destruct (isDollar c && negb (takeDigits rest =? "")) eqn:Ematch.
    + apply andb_true_iff in Ematch. destruct Ematch as [Hc Hg].
      assert (Hskip : cutScan rest (String.length (takeDigits rest))
                      = cutScan (dropDigits rest) 0).
      { rewrite (takeDigits_dropDigits rest) at 1. apply cutScan_skip. }
      rewrite Hskip.
      pose proof (length_dropDigits rest) as Hdrop.
      destruct (IH (dropDigits rest) ltac:(lia)) as [Hasm Hcut].
      unfold cut in Hasm, Hcut.
      destruct (cutScan (dropDigits rest) 0) as [pieces tail]. simpl in *.
      unfold isDollar in Hc. apply Ascii.eqb_eq in Hc. subst c.
      split.
      * rewrite Hasm. now rewrite <- takeDigits_dropDigits.
      * repeat split; try assumption.
        -- apply negb_true_iff in Hg. now apply String.eqb_neq in Hg.
        -- apply allDigits_takeDigits.
        -- rewrite Hasm. apply startsWithDigit_dropDigits.
    + destruct (IH rest ltac:(lia)) as [Hasm Hcut].
      unfold cut in Hasm, Hcut.
      assert (Hstart : isDollar c && startsWithDigit rest = false).
      { destruct (isDollar c); [|reflexivity]. simpl in *.
        apply negb_false_iff in Ematch. apply String.eqb_eq in Ematch.
        now apply startsWithDigit_takeDigits. }
      destruct (cutScan rest 0) as [[|[text digits] more] tail]; simpl in *.
      * subst tail. split; [reflexivity|].
        unfold startsWithDigit in Hstart. now rewrite Hstart, Hcut.
      * split; [now rewrite Hasm|].
        destruct Hcut as (Htext & Hrest). split; [|exact Hrest].
        rewrite Htext, orb_false_r.
        rewrite <- Hasm in Hstart.
        destruct text as [|d text]; simpl in *;
          [now rewrite andb_false_r|exact Hstart].
Qed.

Lemma cut_spec (query : string) :
  assemble (fst (cut query)) (snd (cut query)) = query
  /\ WellCut (fst (cut query)) (snd (cut query)).
Proof. exact (cut_spec_bounded (String.length query) query (le_n _)). Qed.

Lemma cut_has_placeholder (query : string) :
  queryHasPositionalParameters query = true -> fst (cut query) <> [].
Proof.
  intros Hhas Hnone. destruct (cut_spec query) as [Hasm Hcut].
  rewrite Hnone in Hasm, Hcut. simpl in Hasm, Hcut. congruence.
Qed.

Section Execute.

Variable Env : Type.
Variable respond : forall r : Request, Env -> Result (reply_type r) * Env.

Lemma ready_truthy (w w1 : World Env) :
  Ready respond w w1 -> truthy (tokenValue (client w1)) = true.
Proof.
  intros [[H ->]|[_ H]]; [exact H|]. exact (login_ok_truthy _ _ _ _ H).
Qed.

Lemma execute_assembled (pieces : list (string * string)) (tail : string)
  (parameters : list JsValue) (w w1 : World Env) :
  pieces <> [] -> WellCut pieces tail -> Ready respond w w1 ->
  let query := assemble pieces tail in
  let request :=
    PostQuery (authorization (client w1)) (questionMarks pieces tail)
      (Some (map (parameterAt parameters) (references pieces))) in
  let reply := respond request (env w1) in
  (existsb (outOfBounds parameters) (references pieces) = true ->
     authenticated_execute respond query parameters w1
     = (Throw (Error parameterLimitMessage), w1)
     /\ execute respond query parameters w
        = (Throw (Error parameterLimitMessage), w1))
  /\ (existsb (outOfBounds parameters) (references pieces) = false ->
      authenticated_execute respond query parameters w1
      = (match fst reply with
         | Ok res => Ok (map (fun row => zipRow (fst res) row 0 []) (snd res))
         | Throw err => Throw (apiError err)
         end,
         mkWorld (client w1) (snd reply)
           (log w1 ++ [(request, logged request (fst reply))])%list)).
Proof.
  intros Hsome Hcut Hready. cbv zeta.
  pose proof (ready_truthy w w1 Hready) as Htok.
  assert (Hhas : queryHasPositionalParameters (assemble pieces tail) = true).
  { destruct pieces as [|piece rest]; [contradiction|].
    now apply hasPositionalParameters_assembled. }
  assert (Hrun : authenticated_execute respond (assemble pieces tail)
                   parameters w1
                 = if existsb (outOfBounds parameters) (references pieces)
                   then (Throw (Error parameterLimitMessage), w1)
                   else
                     let request :=
                       PostQuery (authorization (client w1))
                         (questionMarks pieces tail)
                         (Some (map (parameterAt parameters)
                                  (references pieces))) in
                     let reply := respond request (env w1) in
                     (match fst reply with
                      | Ok res =>
                          Ok (map (fun row => zipRow (fst res) row 0 [])
                                (snd res))
                      | Throw err => Throw (apiError err)
                      end,
                      mkWorld (client w1) (snd reply)
                        (log w1 ++ [(request, logged request (fst reply))])%list)).
  { unfold authenticated_execute, bind, get_token. rewrite Htok. simpl negb.
    cbv iota. rewrite Hhas. unfold replacePositionalParameters.
    rewrite (replaceScan_assembled parameters pieces tail Hcut).
    unfold tryCatch, bind, header, handleApiError, throw, ret, lift.
    destruct (existsb (outOfBounds parameters) (references pieces));
      [reflexivity|].
    unfold call, ret. simpl.
    match goal with
    | |- context [respond ?r (env w1)] =>
        destruct (respond r (env w1)) as [[res|err] e']
    end; reflexivity. }
  split.
  - intros Hout. rewrite Hout in Hrun. split; [exact Hrun|].
    unfold execute, ensureAuthenticated, maxAttempts.
    now rewrite (ready_run Env respond _ 2 w w1 Hready), Hrun.
  - intros Hin. now rewrite Hin in Hrun.
Qed.

(** C5 (as amended). Take a query that holds a placeholder, cut at its
    placeholders [$n1], [$n2], ... in this order, and let the wrapper be
    ready to run.  If some index is 0 or above the number of parameters,
    [execute] throws the [Error] that names the ceiling of 8 parameters, and
    the query is not sent: nothing is called after the wrapper became ready.
    If every index is within the parameters and at most 8, one query request
    is sent: its SQL is the query with [?] at each placeholder, in order,
    and its parameters are those the placeholders refer to, in the order of
    the placeholders. *)
Theorem execute_rewrites_placeholders (query : string)
  (parameters : list JsValue) (w w1 : World Env) :
  queryHasPositionalParameters query = true -> Ready respond w w1 ->
  let pieces := fst (cut query) in
  let tail := snd (cut query) in
  let request :=
    PostQuery (authorization (client w1)) (questionMarks pieces tail)
      (Some (map (parameterAt parameters) (references pieces))) in
  let reply := respond request (env w1) in
  query = assemble pieces tail
  /\ WellCut pieces tail
  /\ (existsb (outOfBounds parameters) (references pieces) = true ->
      authenticated_execute respond query parameters w1
      = (Throw (Error parameterLimitMessage), w1)
      /\ execute respond query parameters w
         = (Throw (Error parameterLimitMessage), w1))
  /\ (existsb (outOfBounds parameters) (references pieces) = false ->
      forallb (fun n => (n <=? 8)%N) (references pieces) = true ->
      authenticated_execute respond query parameters w1
      = (match fst reply with
         | Ok res => Ok (map (fun row => zipRow (fst res) row 0 []) (snd res))
         | Throw err => Throw (apiError err)
         end,
         mkWorld (client w1) (snd reply)
           (log w1 ++ [(request, logged request (fst reply))])%list)).
Proof.
  intros Hhas Hready. cbv zeta.
  destruct (cut_spec query) as [Hquery Hcut].
  pose proof (execute_assembled (fst (cut query)) (snd (cut query))
                parameters w w1 (cut_has_placeholder query Hhas) Hcut Hready)
    as [Hout Hin].
  cbv zeta in Hout, Hin. rewrite Hquery in Hout, Hin.
  split; [symmetry; exact Hquery|]. split; [exact Hcut|].
  split; [exact Hout|]. intros Hbounds _. exact (Hin Hbounds).
Qed.

End Execute.

(* ------------------------------------------------------------------------- *)
(** ** The events of a push (sections 4.2, 4.4 to 4.6) *)

Lemma FailedAt_here (r : Request) (d : Data) (rest : list Event)
  (e : JsError) :
  FailedAt ((r, Ok d) :: rest) e [(r, Throw e)].
Proof. exists [], r, d, rest. split; reflexivity. Qed.

Lemma FailedAt_cons (ev : Event) (full : list Event) (e : JsError)
  (l : list Event) :
  FailedAt full e l -> FailedAt (ev :: full) e (ev :: l).
Proof.
  intros (done & r & d & rest & -> & ->).
  exists (ev :: done), r, d, rest. split; reflexivity.
Qed.

Lemma FailedAt_app (pre full : list Event) (e : JsError) (l : list Event) :
  FailedAt full e l -> FailedAt (pre ++ full)%list e (pre ++ l)%list.
Proof.
  intros H. induction pre as [|ev pre IH]; simpl; [exact H|].
  now apply FailedAt_cons.
Qed.

Section PushRuns.

Variable Env : Type.
Variable respond : forall r : Request, Env -> Result (reply_type r) * Env.

Lemma forEach_appendRow_run (data : list JsRecord) (w : World Env)
  (r : Result unit) (w' : World Env) :
  forEach data (fun row => call respond (ParquetAppendRow row)) w = (r, w') ->
  client w' = client w
  /\ exists l, log w' = (log w ++ l)%list
     /\ match r with
        | Ok _ => l = map appended data
        | Throw e =>
            exists done row rest,
              data = (done ++ row :: rest)%list
              /\ l = (map appended done ++ [(ParquetAppendRow row, Throw e)])%list
        end.
Proof.
  revert w. induction data as [|row data IH]; intros w; simpl.
  - intros H. inversion H; subst. split; [reflexivity|].
    exists []. now rewrite app_nil_r.
  - unfold bind. rewrite call_run.
    destruct (respond (ParquetAppendRow row) (env w)) as [[[]|e] e1]; simpl.
    + intros H. apply IH in H. destruct H as (Hc & l & Hl & Hr).
      simpl in *. split; [exact Hc|].
      exists (appended row :: l). split.
      * now rewrite Hl, <- app_assoc.
      * destruct r as [[]|e]; [now subst|].
        destruct Hr as (done & row' & rest & -> & ->).
        now exists (row :: done), row', rest.
    + intros H. inversion H; subst. simpl. split; [reflexivity|].
      exists [(ParquetAppendRow row, Throw e)]. split; [reflexivity|].
      now exists [], row, data.
Qed.

(** The end of a symbolic run [H : (outcome, world) = (r, w')] whose log is
    known: a failure after some calls, or the whole staging. *)
Ltac failed_run H uuid url key size :=
  inversion H; subst; split; [reflexivity|];
  exists uuid, url, key, size; eexists; split;
  [ cbn [log]; repeat rewrite <- app_assoc; reflexivity
  | unfold stagingEvents, importRequest; simpl;
    repeat first
      [ apply FailedAt_here | apply FailedAt_cons | apply FailedAt_app ] ].

Ltac finished_run H uuid url key size :=
  inversion H; subst; split; [reflexivity|];
  exists uuid, url, key, size; eexists; split;
  [ cbn [log]; repeat rewrite <- app_assoc; reflexivity
  | unfold stagingEvents, importRequest; simpl;
    repeat rewrite <- app_assoc; reflexivity ].

Lemma stageAndImport_run (fullName tempFile : string) (sample : JsRecord)
  (more : list JsRecord) (dedupe : bool) (keys : list string)
  (w : World Env) (r : Result unit) (w' : World Env) :
  stageAndImport respond fullName tempFile (sample :: more) dedupe keys w
  = (r, w') ->
  client w' = client w
  /\ exists uuid url key size l,
      log w' = (log w ++ l)%list
      /\ let full := stagingEvents (authorization (client w)) fullName
                       tempFile sample (sample :: more) dedupe keys uuid url
                       key size in
         match r with
         | Ok _ => l = full
         | Throw e => FailedAt full e l
         end.
Proof.
  unfold stageAndImport, requestPresignedUploadUrl,
    uploadParquetUsingPresignedUrl, importDataFromAppendOnlyDedup,
    importDataFromPresignedUrl, deleteFileFromS3, objectEntries.
  cbn [nth_error]. unfold bind at 1. unfold ret at 1.
  unfold bind at 1. intros H.
  rewrite call_run in H.
  destruct (respond (ParquetOpenFile (schemaFields sample) tempFile) (env w))
    as [[[]|err] e1]; cbn [fst snd logged data_of] in H.
  2:{ failed_run H "" "" "" 0%N. }
  unfold bind at 1 in H.
  match type of H with
  | context [forEach ?d ?f ?w0] =>
      destruct (forEach d f w0) as [[[]|err] w2] eqn:Efor;
      apply forEach_appendRow_run in Efor;
      destruct Efor as (Hc2 & l2 & Hl2 & Hr2)
  end; cbn [fst snd client env log] in *.
  2:{ inversion H; subst. split; [exact Hc2|].
      destruct Hr2 as (done & row & rest & Hdata & ->).
      exists "", "", "", 0%N. eexists. split.
      - rewrite Hl2, <- app_assoc. reflexivity.
      - unfold stagingEvents. rewrite Hdata, map_app. simpl.
        apply FailedAt_cons. rewrite <- app_assoc.
        apply FailedAt_app. apply FailedAt_here. }
  subst l2. destruct w2 as [c2 e2 lg2]. cbn [client log] in Hc2, Hl2.
  subst c2 lg2. unfold bind, header in H. cbv beta in H.
  rewrite call_run in H. cbn [fst snd client env log] in H.
  destruct (respond ParquetClose e2) as [[[]|err] e3];
    cbn [fst snd logged data_of] in H.
  2:{ failed_run H "" "" "" 0%N. }
  rewrite call_run in H. cbn [fst snd client env log] in H.
  destruct (respond UuidV4 e3) as [[uuid|err] e4];
    cbn [fst snd logged data_of] in H.
  2:{ failed_run H "" "" "" 0%N. }
  rewrite call_run in H. cbn [fst snd client env log] in H.
  match type of H with
  | context [respond ?q e4] =>
      destruct (respond q e4) as [[[url key]|err] e5]
  end; cbn [fst snd logged data_of] in H.
  2:{ failed_run H uuid "" "" 0%N. }
  rewrite call_run in H. cbn [fst snd client env log] in H.
  destruct (respond (FsStat tempFile) e5) as [[size|err] e6];
    cbn [fst snd logged data_of] in H.
  2:{ failed_run H uuid url key 0%N. }
  rewrite call_run in H. cbn [fst snd client env log] in H.
  destruct (respond (PutPresigned url tempFile size) e6) as [[[]|err] e7];
    cbn [fst snd logged data_of] in H.
  2:{ failed_run H uuid url key size. }
  destruct dedupe.
  - rewrite call_run in H. cbn [fst snd client env log] in H.
    match type of H with
    | context [respond ?q e7] => destruct (respond q e7) as [[[]|err] e8]
    end; cbn [fst snd logged data_of] in H.
    2:{ failed_run H uuid url key size. }
    rewrite call_run in H. cbn [fst snd client env log] in H.
    match type of H with
    | context [respond ?q e8] => destruct (respond q e8) as [[[]|err] e9]
    end; cbn [fst snd logged data_of] in H.
    2:{ failed_run H uuid url key size. }
    finished_run H uuid url key size.
  - rewrite call_run in H. cbn [fst snd client env log] in H.
    match type of H with
    | context [respond ?q e7] => destruct (respond q e7) as [[[]|err] e8]
    end; cbn [fst snd logged data_of] in H.
    2:{ failed_run H uuid url key size. }
    rewrite call_run in H. cbn [fst snd client env log] in H.
    match type of H with
    | context [respond ?q e8] => destruct (respond q e8) as [[[]|err] e9]
    end; cbn [fst snd logged data_of] in H.
    2:{ failed_run H uuid url key size. }
    finished_run H uuid url key size.
Qed.

Ltac lifecycle_failed H :=
  inversion H; subst;
  match goal with
  | |- exists l1 w1, _ /\ _ /\ _ /\ ((exists e, _ /\ ?W = w1 /\ _) \/ _) =>
      eexists; exists W; split; [reflexivity|]; split;
      [ cbn [log]; repeat rewrite <- app_assoc; reflexivity |];
      split; [repeat constructor|]; left; eexists; split; [reflexivity|];
      split; [reflexivity|];
      first [ exists 1; reflexivity | exists 2; reflexivity
            | exists 3; reflexivity | exists 4; reflexivity ]
  end.

Ltac lifecycle_done H :=
  match type of H with
  | _ ?W = _ =>
      eexists; exists W; split; [reflexivity|]; split;
      [ cbn [log]; repeat rewrite <- app_assoc; reflexivity |];
      split; [repeat constructor|]; right; split; [reflexivity|exact H]
  end.

(** The run after the database request: the schema, the drop, the table. *)
Ltac lifecycle_rest H :=
  cbv beta iota in H;
  rewrite call_run in H; cbn [fst snd client env log] in H;
  match type of H with
  | context [respond ?q ?e] =>
      destruct (respond q e) as [[?|?] ?]
  end; cbn [fst snd logged data_of] in H; [|lifecycle_failed H];
  match goal with
  | |- context [if ?replace then [PostQuery _ _ _] else []] =>
      destruct replace
  end;
  [ rewrite call_run in H; cbn [fst snd client env log] in H;
    match type of H with
    | context [respond ?q ?e] =>
        destruct (respond q e) as [[?|?] ?]
    end; cbn [fst snd logged data_of] in H; [|lifecycle_failed H]
  | ];
  (match goal with
   | |- context [match ?data with [] => _ | _ :: _ => _ end] =>
       destruct data as [|sample more]
   end;
   cbn [nth_error] in H; cbv beta iota in H;
   [ lifecycle_failed H
   | rewrite call_run in H; cbn [fst snd client env log] in H;
     match type of H with
     | context [respond ?q ?e] =>
         destruct (respond q e) as [[?|?] ?]
     end; cbn [fst snd logged data_of] in H;
     [ lifecycle_done H | lifecycle_failed H ] ]).

(** The three conditional steps before the temporary file, followed by any
    continuation: they fail, or make exactly their requests and go on. *)
Lemma lifecycle_run {A} (fullName : string) (data : list JsRecord)
  (create replace : bool) (next : M Env A) (w : World Env) (r : Result A)
  (w' : World Env) :
  bind (when (create || replace) (createDatabaseAndSchema respond fullName))
    (fun _ =>
       bind (when replace (replaceExistingTable respond fullName))
         (fun _ =>
            bind (when (create || replace)
                    (createTable respond fullName data))
              (fun _ => next))) w = (r, w') ->
  exists l1 w1,
    client w1 = client w
    /\ log w1 = (log w ++ l1)%list
    /\ Forall (fun ev : Event => lifecycleKind (kind (fst ev)) = true) l1
    /\ ((exists e, r = Throw e /\ w' = w1
         /\ exists n,
             requests l1
             = firstn n (lifecycleRequests (authorization (client w)) fullName
                           data create replace))
        \/ (requests l1
             = lifecycleRequests (authorization (client w)) fullName data
                 create replace
            /\ next w1 = (r, w'))).
Proof.
  unfold when, createDatabaseAndSchema, replaceExistingTable, createTable,
    objectEntries, lifecycleRequests, schemaSql, dropSql.
  intros H. unfold bind, header, tryCatch, handleApiError, throw, ret in H.
  destruct (create || replace) eqn:Ecr.
  - rewrite call_run in H. cbn [fst snd client env log] in H.
    match type of H with
    | context [respond ?q (env w)] =>
        destruct (respond q (env w)) as [[[]|err] e1]
    end; cbn [fst snd logged data_of] in H.
    2:{ destruct (status_is 409 err); [|lifecycle_failed H].
        lifecycle_rest H. }
    lifecycle_rest H.
  - destruct replace; [now destruct create|].
    exists [], w. rewrite app_nil_r.
    repeat split; [constructor|]. right. split; [reflexivity|exact H].
Qed.

Lemma stageAndImport_staged (fullName tempFile : string)
  (data : list JsRecord) (dedupe : bool) (keys : list string)
  (w : World Env) (r : Result unit) (w' : World Env) :
  stageAndImport respond fullName tempFile data dedupe keys w = (r, w') ->
  client w' = client w
  /\ exists l, log w' = (log w ++ l)%list
     /\ Staged (authorization (client w)) fullName tempFile data dedupe keys
          r l.
Proof.
  destruct data as [|sample more].
  - intros H. inversion H; subst. split; [reflexivity|].
    exists []. rewrite app_nil_r. repeat split.
  - intros H. apply stageAndImport_run in H.
    destruct H as (Hc & uuid & url & key & size & l & Hl & Hr).
    split; [exact Hc|]. exists l. split; [exact Hl|].
    now exists uuid, url, key, size.
Qed.

Lemma authenticated_push_run (tableName fullName : string)
  (data : list JsRecord) (options : PushOptions) (w : World Env)
  (r : Result unit) (w' : World Env) :
  resolveTableName tableName = Ok fullName ->
  truthy (tokenValue (client w)) = true ->
  authenticated_push respond tableName data options w = (r, w') ->
  client w' = client w
  /\ exists l, log w' = (log w ++ l)%list
     /\ Pushed (authorization (client w)) fullName data
          (orDefault (createIfMissing options) true)
          (orDefault (replaceIfExists options) false)
          (orDefault (dedupeOnAppend options) false)
          (orDefault (primaryKeyColumns options) []) r l.
Proof.
  intros Hname Htok. unfold authenticated_push. rewrite Hname.
  unfold bind at 1. unfold get_token. rewrite Htok. cbn [negb].
  unfold tryCatch at 1.
  match goal with
  | |- match ?body w with _ => _ end = _ -> _ =>
      destruct (body w) as [r0 w0] eqn:Ebody
  end.
  apply lifecycle_run in Ebody.
  destruct Ebody
    as (l1 & w1 & Hc1 & Hl1 & Hk1 & [(e & -> & -> & Hn)|[Hreq Hnext]]).
  - unfold handleApiError, throw. intros H. inversion H; subst.
    split; [exact Hc1|]. exists l1. split; [exact Hl1|].
    exists l1. split; [exact Hk1|]. left.
    split; [now eexists|]. split; [reflexivity|exact Hn].
  - unfold bind at 1 in Hnext. rewrite call_run in Hnext.
    destruct (respond (TmpFile ".parquet") (env w1)) as [[tempFile|err] e2];
      cbn [fst snd logged data_of] in Hnext.
    + unfold tryFinally in Hnext.
      match type of Hnext with
      | context [stageAndImport ?a ?b ?c ?d ?e ?f ?g] =>
          destruct (stageAndImport a b c d e f g) as [staged w3] eqn:Es
      end.
      apply stageAndImport_staged in Es.
      destruct Es as (Hc3 & l2 & Hl3 & Hstaged).
      cbn [client log] in Hc3, Hl3, Hstaged.
      inversion Hnext; subst r0 w0. clear Hnext.
      unfold fire. rewrite call_run. cbn [snd].
      intros H.
      assert (Hout : r = match staged with
                         | Ok _ => Ok tt
                         | Throw e => Throw (apiError e)
                         end
                     /\ w' = mkWorld (client w3)
                               (snd (respond (TmpCleanup tempFile) (env w3)))
                               (log w3 ++
                                [(TmpCleanup tempFile,
                                  logged (TmpCleanup tempFile)
                                    (fst (respond (TmpCleanup tempFile)
                                            (env w3))))])%list).
      { destruct staged as [[]|e]; inversion H; now subst. }
      destruct Hout as [-> ->]. cbn [client log].
      split; [now rewrite Hc3|].
      eexists. split.
      * rewrite Hl3, Hl1. repeat rewrite <- app_assoc. reflexivity.
      * exists l1. split; [exact Hk1|]. right. right.
        eexists tempFile, l2, _, staged.
        split; [exact Hreq|]. split; [reflexivity|].
        rewrite Hc1 in Hstaged. split; [exact Hstaged|reflexivity].
    + inversion Hnext; subst r0 w0. clear Hnext.
      unfold handleApiError, throw. intros H. inversion H; subst.
      cbn [client log]. split; [exact Hc1|].
      eexists. split.
      * rewrite Hl1. rewrite <- app_assoc. reflexivity.
      * exists l1. split; [exact Hk1|]. right. left.
        exists err. repeat split. exact Hreq.
Qed.

End PushRuns.

(* ------------------------------------------------------------------------- *)
(** ** Runs that stop at a failed call, runs in which every call is answered *)

Lemma apiError_again (err : JsError) : apiError (apiError err) = apiError err.
Proof. destruct err as [m|m|m [r|]|m r|m r]; reflexivity. Qed.

Lemma StoppedAt_after (e : JsError) (before l : list Event) :
  forallb goesOn before = true -> StoppedAt e l ->
  StoppedAt e (before ++ l).
Proof.
  intros Hb (done & rq & err & rest & -> & Hdone & Hrq & Hrest & He).
  exists (before ++ done)%list, rq, err, rest.
  rewrite <- app_assoc, forallb_app, Hb, Hdone. now repeat split.
Qed.

Section StopsAtFailures.

Variable Env : Type.
Variable respond : forall r : Request, Env -> Result (reply_type r) * Env.

Lemma stops_ret {A} (a : A) : StopsAtFailure (@ret Env A a).
Proof.
  intros w r w' H. inversion H; subst. exists [].
  now rewrite app_nil_r.
Qed.

Lemma stops_header : StopsAtFailure (@header Env).
Proof.
  intros w r w' H. inversion H; subst. exists [].
  now rewrite app_nil_r.
Qed.

Lemma stops_bind {A B} (m : M Env A) (f : A -> M Env B) :
  StopsAtFailure m -> (forall a, StopsAtFailure (f a)) ->
  StopsAtFailure (bind m f).
Proof.
  intros Hm Hf w r w' H. unfold bind in H.
  destruct (m w) as [[a|e] w1] eqn:Hrun.
  - destruct (Hm _ _ _ Hrun) as (l1 & Hl1 & H1).
    destruct (Hf a _ _ _ H) as (l2 & Hl2 & H2).
    exists (l1 ++ l2)%list. split; [now rewrite Hl2, Hl1, app_assoc|].
    destruct r as [b|e].
    + now rewrite forallb_app, H1, H2.
    + now apply StoppedAt_after.
  - inversion H; subst. exact (Hm _ _ _ Hrun).
Qed.

Lemma stops_call (r : Request) :
  (forall err, goesOn (r, Throw err) = false) ->
  StopsAtFailure (call respond r).
Proof.
  intros Hr w res w' H. rewrite call_run in H. inversion H; subst.
  exists [(r, logged r (fst (respond r (env w))))].
  split; [reflexivity|].
  destruct (fst (respond r (env w))) as [a|e]; simpl.
  - unfold goesOn. simpl. now destruct r.
  - exists [], r, e, []. repeat split. apply Hr.
Qed.

Lemma stops_handled {A} (m : M Env A) :
  StopsAtFailure m ->
  StopsAtFailure (tryCatch m (fun err => handleApiError err)).
Proof.
  intros Hm w r w' H. unfold tryCatch, handleApiError, throw in H.
  destruct (m w) as [[a|e] w1] eqn:Hrun.
  - inversion H; subst. exact (Hm _ _ _ Hrun).
  - inversion H; subst.
    destruct (Hm _ _ _ Hrun) as (l & Hl & done & rq & err & rest & H1).
    exists l. split; [exact Hl|]. exists done, rq, err, rest.
    rewrite apiError_again. exact H1.
Qed.

Lemma stops_cleanup {A} (m : M Env A) (p : string) :
  StopsAtFailure m ->
  StopsAtFailure (tryFinally m (fire respond (TmpCleanup p))).
Proof.
  intros Hm w r w' H. unfold tryFinally in H.
  destruct (m w) as [r1 w1] eqn:Hrun. inversion H; subst.
  destruct (Hm _ _ _ Hrun) as (l & Hl & H1).
  unfold fire. rewrite call_run. cbn [snd log]. rewrite Hl.
  eexists. split; [now rewrite <- app_assoc|].
  destruct r as [a|e].
  - now rewrite forallb_app, H1.
  - destruct H1 as (done & rq & err & rest & -> & Hdone & Hrq & Hrest & He).
    exists done, rq, err, (rest ++ [(TmpCleanup p,
                                     logged (TmpCleanup p)
                                       (fst (respond (TmpCleanup p)
                                               (env w1))))])%list.
    split; [now rewrite <- app_assoc|].
    split; [exact Hdone|]. split; [exact Hrq|].
    split; [|exact He]. rewrite forallb_app.
    apply andb_true_iff. split; [exact Hrest|reflexivity].
Qed.

Lemma stops_when (b : bool) (m : M Env unit) :
  StopsAtFailure m -> StopsAtFailure (when b m).
Proof. intros Hm. destruct b; [exact Hm|apply stops_ret]. Qed.

Lemma stops_forEach {A} (xs : list A) (f : A -> M Env unit) :
  (forall x, StopsAtFailure (f x)) -> StopsAtFailure (forEach xs f).
Proof.
  intros Hf. induction xs as [|x rest IH]; simpl.
  - apply stops_ret.
  - apply stops_bind; [apply Hf|intros _; exact IH].
Qed.

(** The creation of the database: a failure other than a 409 stops the
    run. *)
Lemma stops_database (auth name : option string) :
  StopsAtFailure
    (tryCatch (call respond (PostDatabases auth name))
       (fun err => if status_is 409 err then ret tt
                   else handleApiError err)).
Proof.
  intros w r w' H. unfold tryCatch in H. rewrite call_run in H.
  exists [(PostDatabases auth name,
           logged (PostDatabases auth name)
             (fst (respond (PostDatabases auth name) (env w))))].
  destruct (fst (respond (PostDatabases auth name) (env w))) as [[]|err].
  - inversion H; subst. now split.
  - destruct (status_is 409 err) eqn:H409.
    + inversion H; subst. split; [reflexivity|]. simpl.
      unfold goesOn. simpl. now rewrite H409.
    + inversion H; subst. split; [reflexivity|].
      exists [], (PostDatabases auth name), err, []. repeat split.
      * unfold goesOn. simpl. exact H409.
      * apply apiError_again.
Qed.

Ltac stops :=
  repeat first
    [ apply stops_ret | apply stops_header | apply stops_database
    | match goal with
      | |- StopsAtFailure (call _ ?r) => exact (stops_call r (fun _ => eq_refl))
      end
    | apply stops_bind; [|intros ?]
    | apply stops_handled | apply stops_cleanup
    | apply stops_when | apply stops_forEach; intros ?
    | match goal with
      | |- StopsAtFailure (if ?b then _ else _) => destruct b
      end ].

Lemma stops_authenticated_push (tableName fullName : string)
  (sample : JsRecord) (more : list JsRecord) (options : PushOptions)
  (w : World Env) :
  resolveTableName tableName = Ok fullName ->
  truthy (tokenValue (client w)) = true ->
  let after :=
    authenticated_push respond tableName (sample :: more) options w in
  exists l,
    log (snd after) = (log w ++ l)%list
    /\ match fst after with
       | Ok _ => forallb goesOn l = true
       | Throw e => StoppedAt e l /\ apiError e = e
       end.
Proof.
  intros Hname Htok. cbv zeta.
  destruct (authenticated_push respond tableName (sample :: more) options w)
    as [r w'] eqn:Hrun.
  unfold authenticated_push in Hrun. rewrite Hname in Hrun.
  unfold bind at 1 in Hrun. unfold get_token in Hrun. rewrite Htok in Hrun.
  change (negb true) with false in Hrun. cbv iota zeta in Hrun.
  assert (Hstops : StopsAtFailure
    (tryCatch
       (bind (when (orDefault (createIfMissing options) true
                    || orDefault (replaceIfExists options) false)
                (createDatabaseAndSchema respond fullName))
          (fun _ =>
             bind (when (orDefault (replaceIfExists options) false)
                     (replaceExistingTable respond fullName))
               (fun _ =>
                  bind (when (orDefault (createIfMissing options) true
                              || orDefault (replaceIfExists options) false)
                          (createTable respond fullName (sample :: more)))
                    (fun _ =>
                       bind (call respond (TmpFile ".parquet"))
                         (fun tempFile =>
                            tryFinally
                              (stageAndImport respond fullName tempFile
                                 (sample :: more)
                                 (orDefault (dedupeOnAppend options) false)
                                 (orDefault (primaryKeyColumns options) []))
                              (fire respond (TmpCleanup tempFile)))))))
       (fun err => handleApiError err))).
  { unfold createDatabaseAndSchema, replaceExistingTable, createTable,
      stageAndImport, requestPresignedUploadUrl,
      uploadParquetUsingPresignedUrl, importDataFromAppendOnlyDedup,
      importDataFromPresignedUrl, deleteFileFromS3.
    cbn [nth_error objectEntries]. stops. }
  destruct (Hstops _ _ _ Hrun) as (l & Hl & H).
  exists l. cbn [fst snd]. split; [exact Hl|].
  destruct r as [[]|e]; [exact H|]. split; [exact H|].
  unfold tryCatch, handleApiError, throw in Hrun.
  match type of Hrun with
  | (match ?m with _ => _ end) = _ => destruct m as [[a|e0] w0]
  end; inversion Hrun; subst. apply apiError_again.
Qed.

End StopsAtFailures.

Section AnsweredRuns.

Variable Env : Type.
Variable respond : forall r : Request, Env -> Result (reply_type r) * Env.

Hypothesis answering : Answering respond.

Lemma returns_ret {A} (a : A) : Returns (@ret Env A a).
Proof. intros w Hw. now exists a, w. Qed.

Lemma returns_bind {A B} (m : M Env A) (f : A -> M Env B) :
  Returns m -> (forall a, Returns (f a)) -> Returns (bind m f).
Proof.
  intros Hm Hf w Hw. destruct (Hm w Hw) as (a & w1 & Hrun & H1).
  destruct (Hf a w1 H1) as (b & w2 & Hrun' & H2).
  exists b, w2. unfold bind. now rewrite Hrun.
Qed.

Lemma returns_call (r : Request) : Returns (call respond r).
Proof.
  intros w Hw. rewrite call_run.
  destruct (answering r (env w)) as (a & e' & Hr). rewrite Hr.
  now eexists _, _.
Qed.

Lemma returns_tryCatch {A} (m : M Env A) (h : JsError -> M Env A) :
  Returns m -> Returns (tryCatch m h).
Proof.
  intros Hm w Hw. destruct (Hm w Hw) as (a & w1 & Hrun & H1).
  exists a, w1. unfold tryCatch. now rewrite Hrun.
Qed.

Lemma returns_tryFinally {A} (m : M Env A) (r : Request) :
  Returns m -> Returns (tryFinally m (fire respond r)).
Proof.
  intros Hm w Hw. destruct (Hm w Hw) as (a & w1 & Hrun & H1).
  exists a, (fire respond r w1). unfold tryFinally. rewrite Hrun.
  split; [reflexivity|]. unfold fire. now rewrite call_run.
Qed.

Lemma returns_header : Returns (@header Env).
Proof. intros w Hw. now eexists _, _. Qed.

Lemma returns_when (b : bool) (m : M Env unit) :
  Returns m -> Returns (when b m).
Proof. intros Hm. destruct b; [exact Hm|apply returns_ret]. Qed.

Lemma returns_forEach {A} (xs : list A) (f : A -> M Env unit) :
  (forall x, Returns (f x)) -> Returns (forEach xs f).
Proof.
  intros Hf. induction xs as [|x rest IH]; simpl.
  - apply returns_ret.
  - apply returns_bind; [apply Hf|intros _; exact IH].
Qed.

Ltac returns :=
  repeat first
    [ apply returns_ret | apply returns_header
    | match goal with
      | |- Returns (call _ ?r) => exact (returns_call r)
      end
    | apply returns_bind; [|intros ?]
    | apply returns_tryCatch | apply returns_tryFinally
    | apply returns_when | apply returns_forEach; intros ?
    | match goal with
      | |- Returns (if ?b then _ else _) => destruct b
      end ].

Lemma returns_authenticated_push (tableName fullName : string)
  (sample : JsRecord) (more : list JsRecord) (options : PushOptions) :
  resolveTableName tableName = Ok fullName ->
  Returns (authenticated_push respond tableName (sample :: more) options).
Proof.
  intros Hname w Hw. unfold authenticated_push. rewrite Hname.
  unfold bind at 1. unfold get_token. rewrite Hw.
  change (negb true) with false. cbv iota.
  revert w Hw.
  change (Returns
    (tryCatch
       (bind (when (orDefault (createIfMissing options) true
                    || orDefault (replaceIfExists options) false)
                (createDatabaseAndSchema respond fullName))
          (fun _ =>
             bind (when (orDefault (replaceIfExists options) false)
                     (replaceExistingTable respond fullName))
               (fun _ =>
                  bind (when (orDefault (createIfMissing options) true
                              || orDefault (replaceIfExists options) false)
                          (createTable respond fullName (sample :: more)))
                    (fun _ =>
                       bind (call respond (TmpFile ".parquet"))
                         (fun tempFile =>
                            tryFinally
                              (stageAndImport respond fullName tempFile
                                 (sample :: more)
                                 (orDefault (dedupeOnAppend options) false)
                                 (orDefault (primaryKeyColumns options) []))
                              (fire respond (TmpCleanup tempFile)))))))
       (fun err => handleApiError err))).
  unfold createDatabaseAndSchema, replaceExistingTable, createTable,
    stageAndImport, requestPresignedUploadUrl,
    uploadParquetUsingPresignedUrl, importDataFromAppendOnlyDedup,
    importDataFromPresignedUrl, deleteFileFromS3.
  cbn [nth_error objectEntries].
  returns.
Qed.

End AnsweredRuns.

Lemma added_log {Env : Type}
  (respond : forall r : Request, Env -> Result (reply_type r) * Env)
  (tableName : string) (data : list JsRecord) (options : PushOptions)
  (w : World Env) (l : list Event) :
  log (snd (authenticated_push respond tableName data options w))
  = (log w ++ l)%list ->
  added respond tableName data options w = l.
Proof.
  intros Hl. unfold added. rewrite Hl.
  rewrite skipn_app, skipn_all, Nat.sub_diag. reflexivity.
Qed.

Lemma in_stagingRequests (auth : option string) (fullName tempFile : string)
  (sample : JsRecord) (data : list JsRecord) (dedupe : bool)
  (keys : list string) (uuid url key : string) (size : N) :
  In (importRequest auth fullName key dedupe keys)
    (stagingRequests auth fullName tempFile sample data dedupe keys uuid url
       key size).
Proof.
  unfold stagingRequests. right. apply in_or_app. right. simpl. auto 10.
Qed.

(* ------------------------------------------------------------------------- *)
(** ** The order of the steps of a push (sections 3 and 4.2) *)

Lemma requests_app (l1 l2 : list Event) :
  requests (l1 ++ l2) = (requests l1 ++ requests l2)%list.
Proof. apply map_app. Qed.

Lemma requests_stagingEvents (auth : option string)
  (fullName tempFile : string) (sample : JsRecord) (data : list JsRecord)
  (dedupe : bool) (keys : list string) (uuid url key : string) (size : N) :
  requests (stagingEvents auth fullName tempFile sample data dedupe keys uuid
              url key size)
  = stagingRequests auth fullName tempFile sample data dedupe keys uuid url
      key size.
Proof.
  unfold requests, stagingEvents, stagingRequests. simpl.
  now rewrite map_app, map_map.
Qed.

Lemma FailedAt_requests (full : list Event) (e : JsError) (l : list Event) :
  FailedAt full e l -> requests l = firstn (length l) (requests full).
Proof.
  intros (done & r & d & rest & -> & ->).
  rewrite !requests_app, length_app. simpl.
  rewrite <- (length_map fst done). fold (requests done).
  now rewrite firstn_app_2.
Qed.

Lemma firstn_prefix_app {A} (n : nat) (l rest : list A) :
  exists m, firstn n l = firstn m (l ++ rest)%list.
Proof.
  destruct (Nat.le_gt_cases n (length l)).
  - exists n. rewrite firstn_app. replace (n - length l) with 0 by lia.
    simpl. now rewrite app_nil_r.
  - exists (length l). rewrite firstn_all2 by lia.
    rewrite firstn_app, Nat.sub_diag, firstn_all. simpl.
    now rewrite app_nil_r.
Qed.

Lemma firstn_app_cons {A} (l1 : list A) (x : A) (l2 : list A) (n : nat) :
  (l1 ++ x :: firstn n l2)%list
  = firstn (length l1 + S n) (l1 ++ x :: l2)%list.
Proof. now rewrite firstn_app_2. Qed.

Section PushOrder.

Variable Env : Type.
Variable respond : forall r : Request, Env -> Result (reply_type r) * Env.

(** The requests of a run are an initial part of the steps of a complete
    push, followed by the cleanup of the temporary file if it was created;
    those of a run that returns are all of them. *)
Lemma push_requests_prefix (tableName fullName : string)
  (sample : JsRecord) (more : list JsRecord) (options : PushOptions)
  (w : World Env) :
  resolveTableName tableName = Ok fullName ->
  truthy (tokenValue (client w)) = true ->
  let data := sample :: more in
  let auth := authorization (client w) in
  let create := orDefault (createIfMissing options) true in
  let replace := orDefault (replaceIfExists options) false in
  let dedupe := orDefault (dedupeOnAppend options) false in
  let keys := orDefault (primaryKeyColumns options) [] in
  let after := authenticated_push respond tableName data options w in
  let database := PostDatabases auth (nth_error (split "." fullName) 0) in
  let schema := PostQuery auth (schemaSql fullName) None in
  let drop := PostQuery auth (dropSql fullName) None in
  let table := PostQuery auth (createTableSql fullName sample) None in
  (exists l tempFile uuid url key size n,
      let steps :=
        (lifecycleRequests auth fullName data create replace
         ++ TmpFile ".parquet"
            :: stagingRequests auth fullName tempFile sample data dedupe keys
                 uuid url key size)%list in
      log (snd after) = (log w ++ l)%list
      /\ (requests l = firstn n steps
          \/ requests l = (firstn n steps ++ [TmpCleanup tempFile])%list)
      /\ (fst after = Ok tt ->
          requests l = (steps ++ [TmpCleanup tempFile])%list))
  /\ (create = true -> replace = false ->
      lifecycleRequests auth fullName data create replace
      = [database; schema; table])
  /\ (replace = true ->
      lifecycleRequests auth fullName data create replace
      = [database; schema; drop; table]).
Proof.
  intros Hname Htok. cbv zeta. split; [|split].
  - destruct (authenticated_push respond tableName (sample :: more) options w)
      as [r w'] eqn:Hrun.
    apply (authenticated_push_run _ _ _ _ _ _ _ _ _ Hname Htok) in Hrun.
    destruct Hrun as (_ & l & Hl & l1 & _ & Hcases). cbn [fst snd].
    destruct Hcases
      as [((e & ->) & -> & n & Hn)
         |[(err & -> & Hreq & ->)
          |(tempFile & l2 & cleaned & staged & Hreq & -> & Hstaged & ->)]].
    + destruct (firstn_prefix_app n
                  (lifecycleRequests (authorization (client w)) fullName
                     (sample :: more)
                     (orDefault (createIfMissing options) true)
                     (orDefault (replaceIfExists options) false))
                  (TmpFile ".parquet"
                   :: stagingRequests (authorization (client w)) fullName ""
                        sample (sample :: more)
                        (orDefault (dedupeOnAppend options) false)
                        (orDefault (primaryKeyColumns options) [])
                        "" "" "" 0%N)) as [m Hm].
      exists l1, "", "", "", "", 0%N, m.
      split; [exact Hl|]. split; [|discriminate].
      left. now rewrite Hn, Hm.
    + exists (l1 ++ [(TmpFile ".parquet", Throw err)])%list.
      exists "", "", "", "", 0%N.
      eexists. split; [exact Hl|]. split; [|discriminate].
      left. rewrite requests_app, Hreq. cbn [requests map fst].
      match goal with
      | |- _ = firstn _ (?lc ++ ?x :: ?rest)%list =>
          exact (firstn_app_cons lc x rest 0)
      end.
    + destruct Hstaged as (uuid & url & key & size & Hfull). cbv zeta in Hfull.
      destruct staged as [[]|e].
      * subst l2. eexists. exists tempFile, uuid, url, key, size.
        eexists. split; [exact Hl|]. split; [right|intros _].
        -- rewrite requests_app. cbn [requests map fst]. fold requests.
           rewrite requests_app, Hreq, requests_stagingEvents.
           cbn [requests map fst]. rewrite app_comm_cons, app_assoc.
           f_equal. symmetry. apply firstn_all.
        -- rewrite requests_app. cbn [requests map fst]. fold requests.
           rewrite requests_app, Hreq, requests_stagingEvents.
           cbn [requests map fst]. now rewrite app_comm_cons, app_assoc.
      * eexists. exists tempFile, uuid, url, key, size.
        eexists. split; [exact Hl|]. split; [right|discriminate].
        rewrite requests_app. cbn [requests map fst]. fold requests.
        rewrite requests_app, Hreq, (FailedAt_requests _ _ _ Hfull),
          requests_stagingEvents.
        cbn [requests map fst]. rewrite app_comm_cons, app_assoc.
        f_equal. apply firstn_app_cons.
  - intros -> ->. reflexivity.
  - intros ->. unfold lifecycleRequests. now rewrite orb_true_r.
Qed.

(** C7. Take a push of a non-empty record set, past the checks of the name
    and the token.  The steps of a complete push are, in this order: the
    database and the schema creation, the drop, the table creation (each
    under its option), the temporary file, the writing of the rows, the
    upload and the import, then the deletion of the staged file.  The
    requests of every run are an initial part of these steps, followed by
    the cleanup of the temporary file if it was created, and a run stops
    only at a call that fails: in a run that throws, every call went on
    (it was answered, or it was the creation of a database that exists)
    up to one that failed, after which only the cleanup is called, and the
    error thrown is that of the failed call as [handleApiError] throws it;
    a run that returns has made all the steps.  With [createIfMissing] true
    and [replaceIfExists] false the steps before the file are database,
    schema, table, and no drop; with [replaceIfExists] true they are
    database, schema, drop, table, whatever [createIfMissing] says.  When
    every call is answered the run returns, [push] is that run, and its
    requests are exactly these, in this order: database, schema, (drop,)
    table, then the file, the rows, the upload, the import, the deletion
    and the cleanup. *)
Theorem push_requests_in_order (tableName fullName : string)
  (sample : JsRecord) (more : list JsRecord) (options : PushOptions)
  (w : World Env) :
  resolveTableName tableName = Ok fullName ->
  truthy (tokenValue (client w)) = true ->
  let data := sample :: more in
  let auth := authorization (client w) in
  let create := orDefault (createIfMissing options) true in
  let replace := orDefault (replaceIfExists options) false in
  let dedupe := orDefault (dedupeOnAppend options) false in
  let keys := orDefault (primaryKeyColumns options) [] in
  let after := authenticated_push respond tableName data options w in
  let made := added respond tableName data options w in
  let database := PostDatabases auth (nth_error (split "." fullName) 0) in
  let schema := PostQuery auth (schemaSql fullName) None in
  let drop := PostQuery auth (dropSql fullName) None in
  let table := PostQuery auth (createTableSql fullName sample) None in
  (exists l tempFile uuid url key size n,
      let steps :=
        (lifecycleRequests auth fullName data create replace
         ++ TmpFile ".parquet"
            :: stagingRequests auth fullName tempFile sample data dedupe keys
                 uuid url key size)%list in
      log (snd after) = (log w ++ l)%list
      /\ (requests l = firstn n steps
          \/ requests l = (firstn n steps ++ [TmpCleanup tempFile])%list)
      /\ (fst after = Ok tt ->
          requests l = (steps ++ [TmpCleanup tempFile])%list)
      /\ match fst after with
         | Ok _ => forallb goesOn l = true
         | Throw e => StoppedAt e l /\ apiError e = e
         end)
  /\ (create = true -> replace = false ->
      lifecycleRequests auth fullName data create replace
      = [database; schema; table])
  /\ (replace = true ->
      lifecycleRequests auth fullName data create replace
      = [database; schema; drop; table])
  /\ (Answering respond ->
      fst after = Ok tt
      /\ push respond tableName data options w = after
      /\ exists tempFile uuid url key size,
          let staging :=
            (TmpFile ".parquet"
             :: stagingRequests auth fullName tempFile sample data dedupe
                  keys uuid url key size
             ++ [TmpCleanup tempFile])%list in
          In (importRequest auth fullName key dedupe keys) staging
          /\ (create = true -> replace = false ->
              requests made = ([database; schema; table] ++ staging)%list)
          /\ (replace = true ->
              requests made
              = ([database; schema; drop; table] ++ staging)%list)
          /\ (create = false -> replace = false ->
              requests made = staging)).
Proof.
  intros Hname Htok. cbv zeta.
  destruct (push_requests_prefix tableName fullName sample more options w
              Hname Htok)
    as ((l & tempFile & uuid & url & key & size & n & Hl & Hprefix & Hall)
        & Hcreate & Hreplace).
  cbv zeta in Hl, Hprefix, Hall.
  destruct (stops_authenticated_push Env respond tableName fullName sample
              more options w Hname Htok) as (l' & Hl' & Hstops).
  cbv zeta in Hl', Hstops.
  assert (l' = l) as -> by (rewrite Hl in Hl'; now apply app_inv_head in Hl').
  split; [|split; [exact Hcreate|split; [exact Hreplace|]]].
  - exists l, tempFile, uuid, url, key, size, n. cbv zeta.
    split; [exact Hl|]. split; [exact Hprefix|]. split; [exact Hall|].
    exact Hstops.
  - intros Hans.
    destruct (returns_authenticated_push Env respond Hans tableName fullName
                sample more options Hname w Htok) as ([] & w2 & Hrun & _).
    rewrite Hrun in Hl, Hall |- *. cbn [fst snd] in Hl, Hall |- *.
    split; [reflexivity|]. split.
    { unfold push, ensureAuthenticated, maxAttempts.
      now rewrite ensureAuthenticated_loop_S, Htok, Hrun. }
    exists tempFile, uuid, url, key, size. cbv zeta.
    assert (Hmade : added respond tableName (sample :: more) options w = l).
    { apply added_log. now rewrite Hrun. }
    rewrite Hmade, (Hall eq_refl).
    split.
    { right. apply in_or_app. left. apply in_stagingRequests. }
    split; [|split].
    + intros Hc Hr. rewrite (Hcreate Hc Hr), <- app_assoc. reflexivity.
    + intros Hr. rewrite (Hreplace Hr), <- app_assoc. reflexivity.
    + intros Hc Hr. rewrite Hc, Hr. unfold lifecycleRequests. simpl.
      now rewrite <- app_assoc.
Qed.

End PushOrder.

(* ------------------------------------------------------------------------- *)
(** ** The temporary file and the staged object (sections 4.6 and 5) *)

Lemma stagingEvents_split (auth : option string) (fullName tempFile : string)
  (sample : JsRecord) (data : list JsRecord) (dedupe : bool)
  (keys : list string) (uuid url key : string) (size : N) :
  stagingEvents auth fullName tempFile sample data dedupe keys uuid url key
    size
  = (preparationEvents auth fullName tempFile sample data uuid url key size
     ++ [ (PutPresigned url tempFile size, Ok DUnit);
          (importRequest auth fullName key dedupe keys, Ok DUnit);
          (DeleteFiles auth key, Ok DUnit) ])%list.
Proof.
  unfold stagingEvents, preparationEvents. simpl. now rewrite <- app_assoc.
Qed.

Lemma preparationEvents_kinds (auth : option string)
  (fullName tempFile : string) (sample : JsRecord) (data : list JsRecord)
  (uuid url key : string) (size : N) :
  Forall (fun ev : Event => preparationKind (kind (fst ev)) = true)
    (preparationEvents auth fullName tempFile sample data uuid url key size).
Proof.
  unfold preparationEvents. constructor; [reflexivity|].
  apply Forall_app. split.
  - apply Forall_forall. intros ev Hin. apply in_map_iff in Hin.
    now destruct Hin as (row & <- & _).
  - repeat constructor.
Qed.

Lemma FailedAt_split (pre post : list Event) (e : JsError) (l : list Event) :
  FailedAt (pre ++ post)%list e l ->
  FailedAt pre e l
  \/ exists l', l = (pre ++ l')%list /\ FailedAt post e l'.
Proof.
  intros (done & r & d & rest & Hfull & ->).
  apply app_eq_app in Hfull. destruct Hfull as (m & [[-> Hm]|[-> ->]]).
  - destruct m as [|x m]; simpl in Hm.
    + right. exists [(r, Throw e)]. rewrite app_nil_r. split; [reflexivity|].
      exists [], r, d, rest. now split.
    + inversion Hm; subst. left. now exists done, r, d, m.
  - right. exists (m ++ [(r, Throw e)])%list. rewrite app_assoc.
    split; [reflexivity|]. now exists m, r, d, rest.
Qed.

Lemma FailedAt_three (r1 r2 r3 : Request) (d1 d2 d3 : Data) (e : JsError)
  (l : list Event) :
  FailedAt [(r1, Ok d1); (r2, Ok d2); (r3, Ok d3)] e l ->
  l = [(r1, Throw e)]
  \/ l = [(r1, Ok d1); (r2, Throw e)]
  \/ l = [(r1, Ok d1); (r2, Ok d2); (r3, Throw e)].
Proof.
  intros (done & r & d & rest & Hfull & ->).
  destruct done as [|x1 [|x2 [|x3 done]]]; simpl in Hfull;
    inversion Hfull; subst; auto.
  now destruct done.
Qed.

Lemma FailedAt_kinds (P : Request -> Prop) (full : list Event) (e : JsError)
  (l : list Event) :
  Forall (fun ev : Event => P (fst ev)) full -> FailedAt full e l ->
  Forall (fun ev : Event => P (fst ev)) l.
Proof.
  intros Hfull (done & r & d & rest & -> & ->).
  apply Forall_app in Hfull. destruct Hfull as [Hdone Hrest].
  apply Forall_app. split; [exact Hdone|].
  inversion Hrest; subst. now repeat constructor.
Qed.

(** The shapes of the log of a staging: the preparation, maybe cut short,
    then the upload, the import and the deletion, each only after the one
    before succeeded. *)
Lemma staged_shape (auth : option string) (fullName tempFile : string)
  (data : list JsRecord) (dedupe : bool) (keys : list string)
  (staged : Result unit) (l : list Event) :
  Staged auth fullName tempFile data dedupe keys staged l ->
  exists pre,
    Forall (fun ev : Event => preparationKind (kind (fst ev)) = true) pre
    /\ ((l = pre /\ exists e, staged = Throw e)
        \/ exists url key size,
            let put := PutPresigned url tempFile size in
            let import := importRequest auth fullName key dedupe keys in
            let delete := DeleteFiles auth key in
            (exists e, staged = Throw e /\ l = (pre ++ [(put, Throw e)])%list)
            \/ (exists e, staged = Throw e
                          /\ l = (pre ++ [(put, Ok DUnit); (import, Throw e)])%list)
            \/ (exists e, staged = Throw e
                          /\ l = (pre ++ [(put, Ok DUnit); (import, Ok DUnit);
                                          (delete, Throw e)])%list)
            \/ (staged = Ok tt
                /\ l = (pre ++ [(put, Ok DUnit); (import, Ok DUnit);
                                (delete, Ok DUnit)])%list)).
Proof.
  unfold Staged. destruct data as [|sample more].
  - intros [-> ->]. exists []. split; [constructor|]. left.
    split; [reflexivity|now eexists].
  - intros (uuid & url & key & size & H). cbv zeta in H.
    rewrite stagingEvents_split in H.
    pose proof (preparationEvents_kinds auth fullName tempFile sample
                  (sample :: more) uuid url key size) as Hprep.
    destruct staged as [[]|e].
    + eexists. split; [exact Hprep|]. right. exists url, key, size.
      cbv zeta. right. right. right. now split.
    + apply FailedAt_split in H. destruct H as [H|(l' & -> & H)].
      * exists l. split.
        -- exact (FailedAt_kinds
                    (fun r => preparationKind (kind r) = true) _ _ _ Hprep H).
        -- left. split; [reflexivity|now eexists].
      * eexists. split; [exact Hprep|]. right. exists url, key, size.
        cbv zeta. apply FailedAt_three in H.
        destruct H as [->|[->| ->]].
        -- left. now eexists.
        -- right. left. now eexists.
        -- right. right. left. now eexists.
Qed.

Lemma ends_with_last {A} (l1 : list A) (x : A) (l2 : list A) (c : A) :
  (l1 ++ x :: l2 ++ [c])%list = ((l1 ++ x :: l2) ++ [c])%list.
Proof. now rewrite <- app_assoc. Qed.

Lemma not_in_kinds (P : Kind -> bool) (l : list Event) (x : Event) :
  Forall (fun ev : Event => P (kind (fst ev)) = true) l ->
  P (kind (fst x)) = false -> ~ In x l.
Proof.
  intros Hall Hx Hin. rewrite Forall_forall in Hall.
  apply Hall in Hin. congruence.
Qed.

(** Splits a membership in a log of known shape into its cases, and closes
    those that the kinds or the constructors exclude. *)
Ltac in_cases H :=
  repeat first [rewrite in_app_iff in H | progress simpl In in H];
  repeat match type of H with
    | _ \/ _ => destruct H as [H|H]
    | False => destruct H
    end;
  try discriminate H;
  try (exfalso; revert H;
       solve [ eapply not_in_kinds; [eassumption|reflexivity] ]);
  try (inversion H; subst; clear H).

Ltac in_log :=
  repeat first [rewrite in_app_iff | progress simpl In]; auto 12.

Lemma pushed_facts (auth : option string) (fullName : string)
  (data : list JsRecord) (create replace dedupe : bool) (keys : list string)
  (r : Result unit) (l : list Event) :
  Pushed auth fullName data create replace dedupe keys r l ->
  (forall p, In (TmpFile ".parquet", Ok (DString p)) l ->
             exists before cleaned,
               l = (before ++ [(TmpCleanup p, cleaned)])%list)
  /\ (forall a k res,
         In (DeleteFiles a k, res) l ->
         In (importRequest a fullName k dedupe keys, Ok DUnit) l)
  /\ (forall imp k err,
         importKey imp = Some k -> In (imp, Throw err) l ->
         forall a k' res, ~ In (DeleteFiles a k', res) l)
  /\ (forall imp k,
         importKey imp = Some k -> In (imp, Ok DUnit) l ->
         exists res, In (DeleteFiles auth k, res) l)
  /\ (forall url p size,
         In (PutPresigned url p size, Ok DUnit) l ->
         exists key res,
           In (importRequest auth fullName key dedupe keys, res) l)
  /\ (r = Ok tt ->
      exists key,
        In (importRequest auth fullName key dedupe keys, Ok DUnit) l).
Proof.
  intros (l1 & Hk1 & Hcases).
  destruct Hcases
    as [((e & ->) & -> & _)
       |[(err & -> & _ & ->)
        |(tempFile & l2 & cleaned & staged & _ & -> & Hstaged & ->)]].
  - repeat split; try discriminate.
    + intros p H. in_cases H.
    + intros a k res H. in_cases H.
    + intros imp k err0 Hk H a k' res H'. in_cases H'.
    + intros imp k Hk H. destruct imp; try discriminate; in_cases H.
    + intros url p size H. in_cases H.
  - repeat split; try discriminate.
    + intros p H. in_cases H.
    + intros a k res H. in_cases H.
    + intros imp k err0 Hk H a k' res H'. in_cases H'.
    + intros imp k Hk H. destruct imp; try discriminate; in_cases H.
    + intros url p size H. in_cases H.
  - apply staged_shape in Hstaged.
    destruct Hstaged as (pre & Hpre & Hshape). cbv zeta in Hshape.
    unfold importRequest in *.
    destruct Hshape
      as [[-> (e & ->)]
         |(url & key & size
           & [(e & -> & ->)
             |[(e & -> & ->)|[(e & -> & ->)|[-> ->]]]])];
      destruct dedupe;
      (repeat split;
       [ intros p H; in_cases H;
         eexists _, _; apply ends_with_last
       | intros a k res H; in_cases H; in_log
       | intros imp k err0 Hk H a k' res H'; in_cases H';
         destruct imp; try discriminate; in_cases H
       | intros imp k Hk H; destruct imp; try discriminate; in_cases H;
         simpl in Hk; inversion Hk; subst; eexists; in_log
       | intros url0 p size0 H; in_cases H; eexists _, _; in_log
       | intros H; try discriminate; eexists; in_log ]).
Qed.

Lemma importKey_importRequest (auth : option string) (fullName key : string)
  (dedupe : bool) (keys : list string) :
  importKey (importRequest auth fullName key dedupe keys) = Some key.
Proof. now destruct dedupe. Qed.

Section PushResources.

Variable Env : Type.
Variable respond : forall r : Request, Env -> Result (reply_type r) * Env.

Lemma authenticated_push_pushed (tableName : string) (data : list JsRecord)
  (options : PushOptions) (w : World Env) :
  let after := authenticated_push respond tableName data options w in
  (after = (fst after, w) /\ exists e, fst after = Throw e)
  \/ exists fullName l,
      resolveTableName tableName = Ok fullName
      /\ log (snd after) = (log w ++ l)%list
      /\ Pushed (authorization (client w)) fullName data
           (orDefault (createIfMissing options) true)
           (orDefault (replaceIfExists options) false)
           (orDefault (dedupeOnAppend options) false)
           (orDefault (primaryKeyColumns options) []) (fst after) l.
Proof.
  cbv zeta. destruct (resolveTableName tableName) as [fullName|e] eqn:Hname.
  - destruct (truthy (tokenValue (client w))) eqn:Htok.
    + right. exists fullName.
      destruct (authenticated_push respond tableName data options w)
        as [r w'] eqn:Hrun.
      destruct (authenticated_push_run _ _ _ _ _ _ _ _ _ Hname Htok Hrun)
        as (_ & l & Hl & Hpushed).
      exists l. now repeat split.
    + left. unfold authenticated_push. rewrite Hname.
      unfold bind, get_token. rewrite Htok. simpl. split; [reflexivity|].
      now eexists.
  - left. unfold authenticated_push. rewrite Hname. simpl.
    split; [reflexivity|]. now eexists.
Qed.

(** C3 (as amended). In every run of a push that created the temporary
    file, the last call is the cleanup of that file, whatever failed in
    between.  The staged object is deleted only after its import succeeded:
    a deletion request follows every successful import, there is none
    without one, and in particular none when the import failed, so that the
    staged object is then left behind. *)
Theorem push_releases_temporary_file (tableName : string)
  (data : list JsRecord) (options : PushOptions) (w : World Env) :
  let after := authenticated_push respond tableName data options w in
  exists l,
    log (snd after) = (log w ++ l)%list
    /\ (forall p, In (TmpFile ".parquet", Ok (DString p)) l ->
                  exists before cleaned,
                    l = (before ++ [(TmpCleanup p, cleaned)])%list)
    /\ (forall imp k, importKey imp = Some k -> In (imp, Ok DUnit) l ->
                      exists a res, In (DeleteFiles a k, res) l)
    /\ (forall a k res, In (DeleteFiles a k, res) l ->
                        exists imp, importKey imp = Some k
                                    /\ In (imp, Ok DUnit) l)
    /\ (forall imp k err, importKey imp = Some k -> In (imp, Throw err) l ->
                          forall a k' res, ~ In (DeleteFiles a k', res) l).
Proof.
  cbv zeta.
  destruct (authenticated_push_pushed tableName data options w)
    as [[Hrun _]|(fullName & l & _ & Hl & Hpushed)].
  - exists []. rewrite Hrun. cbn [snd]. rewrite app_nil_r.
    repeat split; contradiction.
  - exists l. split; [exact Hl|].
    destruct (pushed_facts _ _ _ _ _ _ _ _ _ Hpushed)
      as (Hfile & Hdel & Hfail & Himp & _ & _).
    repeat split.
    + exact Hfile.
    + intros imp k Hk Hin. destruct (Himp imp k Hk Hin) as [res H].
      exists (authorization (client w)), res. exact H.
    + intros a k res Hin. eexists. split; [|exact (Hdel a k res Hin)].
      apply importKey_importRequest.
    + exact Hfail.
Qed.

(** Absent keys are the empty list, and the deduplicating import is
    requested with it. *)
Lemma dedupe_import_runs (tableName fullName : string)
  (data : list JsRecord) (options : PushOptions) (w : World Env) :
  dedupeOnAppend options = Some true ->
  primaryKeyColumns options = None \/ primaryKeyColumns options = Some [] ->
  resolveTableName tableName = Ok fullName ->
  let after := authenticated_push respond tableName data options w in
  let auth := authorization (client w) in
  after
  = authenticated_push respond tableName data
      (mkOptions (createIfMissing options) (replaceIfExists options)
         (Some true) (Some [])) w
  /\ exists l,
      log (snd after) = (log w ++ l)%list
      /\ (forall url p size,
             In (PutPresigned url p size, Ok DUnit) l ->
             exists key res,
               In (PostParquetImportDedupe auth fullName key [], res) l)
      /\ (fst after = Ok tt ->
          exists key,
            In (PostParquetImportDedupe auth fullName key [], Ok DUnit) l).
Proof.
  intros Hdedupe Hkeys Hname. cbv zeta. split.
  - unfold authenticated_push. cbn [createIfMissing replaceIfExists
      dedupeOnAppend primaryKeyColumns]. rewrite Hdedupe.
    now destruct Hkeys as [-> | ->].
  - destruct (authenticated_push_pushed tableName data options w)
      as [[Hrun (e & He)]|(fullName' & l & Hname' & Hl & Hpushed)].
    + exists []. rewrite Hrun. cbn [snd fst]. rewrite app_nil_r.
      repeat split; try contradiction. rewrite He. discriminate.
    + rewrite Hname in Hname'. inversion Hname'; subst fullName'.
      exists l. split; [exact Hl|].
      destruct (pushed_facts _ _ _ _ _ _ _ _ _ Hpushed)
        as (_ & _ & _ & _ & Hput & Hok).
      rewrite Hdedupe in Hput, Hok. cbn [orDefault importRequest] in Hput, Hok.
      assert (Hempty : orDefault (primaryKeyColumns options) [] = []).
      { now destruct Hkeys as [-> | ->]. }
      rewrite Hempty in Hput, Hok. split; [exact Hput|exact Hok].
Qed.

(** C4 (as amended). With [dedupeOnAppend] set and the key columns absent or
    empty, a push is not rejected for that: absent keys are the empty list,
    and the run is that of any deduplicating push.  No error is raised for
    the missing keys: when the name is accepted, a token is held and there
    is a record, a run that throws has stopped at a call that failed, and
    throws the error of that call as [handleApiError] throws it; when every
    call is answered the run returns, and so does [push].  Once the upload
    has succeeded the deduplicating import is requested with an empty list
    of key columns, and a push that returns has made that request. *)
Theorem dedupe_import_without_keys (tableName fullName : string)
  (data : list JsRecord) (options : PushOptions) (w : World Env) :
  dedupeOnAppend options = Some true ->
  primaryKeyColumns options = None \/ primaryKeyColumns options = Some [] ->
  resolveTableName tableName = Ok fullName ->
  let after := authenticated_push respond tableName data options w in
  let auth := authorization (client w) in
  after
  = authenticated_push respond tableName data
      (mkOptions (createIfMissing options) (replaceIfExists options)
         (Some true) (Some [])) w
  /\ (exists l,
      log (snd after) = (log w ++ l)%list
      /\ (forall url p size,
             In (PutPresigned url p size, Ok DUnit) l ->
             exists key res,
               In (PostParquetImportDedupe auth fullName key [], res) l)
      /\ (fst after = Ok tt ->
          exists key,
            In (PostParquetImportDedupe auth fullName key [], Ok DUnit) l)
      /\ (truthy (tokenValue (client w)) = true -> data <> [] ->
          forall e, fst after = Throw e ->
            StoppedAt e l
            /\ exists rq err, In (rq, Throw err) l /\ e = apiError err))
  /\ (Answering respond -> truthy (tokenValue (client w)) = true ->
      data <> [] ->
      fst after = Ok tt
      /\ push respond tableName data options w = after
      /\ exists key,
          In (PostParquetImportDedupe auth fullName key [])
            (requests (added respond tableName data options w))).
Proof.
  intros Hdedupe Hkeys Hname. cbv zeta.
  destruct (dedupe_import_runs tableName fullName data options w Hdedupe
              Hkeys Hname)
    as (Hsame & l & Hl & Hput & Hok).
  cbv zeta in Hsame, Hl, Hput, Hok.
  split; [exact Hsame|]. split.
  - exists l. split; [exact Hl|]. split; [exact Hput|]. split; [exact Hok|].
    intros Htok Hdata e He.
    destruct data as [|sample more]; [contradiction|].
    destruct (stops_authenticated_push Env respond tableName fullName sample
                more options w Hname Htok) as (l' & Hl' & Hstops).
    cbv zeta in Hl', Hstops.
    assert (l' = l) as ->
      by (rewrite Hl in Hl'; now apply app_inv_head in Hl').
    rewrite He in Hstops. destruct Hstops as [Hstopped Hwrapped].
    split; [exact Hstopped|].
    destruct Hstopped as (done & rq & err & rest & -> & _ & _ & _ & Herr).
    exists rq, err. split; [apply in_or_app; right; now left|].
    now rewrite <- Hwrapped.
  - intros Hans Htok Hdata.
    destruct data as [|sample more]; [contradiction|].
    destruct (returns_authenticated_push Env respond Hans tableName fullName
                sample more options Hname w Htok) as ([] & w2 & Hrun & _).
    rewrite Hrun in Hl, Hok |- *. cbn [fst snd] in Hl, Hok |- *.
    split; [reflexivity|]. split.
    { unfold push, ensureAuthenticated, maxAttempts.
      now rewrite ensureAuthenticated_loop_S, Htok, Hrun. }
    destruct (Hok eq_refl) as [key Hkey]. exists key.
    rewrite (added_log respond tableName (sample :: more) options w l)
      by now rewrite Hrun.
    unfold requests.
    exact (in_map fst l _ Hkey).
Qed.

End PushResources.

(* ------------------------------------------------------------------------- *)
(** ** The theorems on concrete runs *)

Lemma count_call (p : Event -> bool) (sc : Script) (r : Request)
  (w : World nat) :
  count p (snd (call (scripted sc) r w))
  = count p w
    + (if p (r, logged r (fst (scripted sc r (env w)))) then 1 else 0).
Proof.
  unfold count. rewrite call_run. cbn [snd log].
  rewrite filter_app, length_app. cbn [filter].
  now destruct (p (r, logged r (fst (scripted sc r (env w))))).
Qed.

Lemma unauthorized_login (w : World nat) :
  fst (login (scripted unauthorized) w) = Ok tt
  /\ count isQuery (snd (login (scripted unauthorized) w)) = count isQuery w
  /\ count isLogin (snd (login (scripted unauthorized) w))
     = S (count isLogin w).
Proof.
  rewrite login_run. unfold count. simpl.
  rewrite !filter_app, !length_app. simpl. repeat split; lia.
Qed.

Lemma retry_policy_witness :
  let operation :=
    call (scripted unauthorized) (PostQuery None "SELECT 1" None) in
  let after :=
    ensureAuthenticated (scripted unauthorized) operation loggedInWorld in
  fst after = Throw exhaustedError
  /\ count isQuery (snd after) = 3
  /\ count isLogin (snd after) = 3.
Proof.
  cbv zeta.
  destruct (ensureAuthenticated_retry_policy nat (scripted unauthorized) _
              (call (scripted unauthorized) (PostQuery None "SELECT 1" None)))
    as (_ & _ & _ & _ & Hexhausted).
  destruct (Hexhausted (count isQuery) (count isLogin)) with (w := loggedInWorld)
    as (Hres & _ & Hruns & Hlogins).
  - intros w. rewrite !count_call. simpl. split; lia.
  - intros w. destruct (unauthorized_login w) as (_ & H1 & H2). now split.
  - intros w. rewrite call_run. simpl. eexists. split; reflexivity.
  - intros w. apply unauthorized_login.
  - reflexivity.
  - repeat split; assumption.
Defined.

Lemma login_sets_token_witness :
  fst (login (scripted healthy) freshWorld) = Ok tt
  /\ tokenValue (client (snd (login (scripted healthy) freshWorld)))
     = Some "DDB_token"
  /\ fst (login (scripted wrongPrefix) freshWorld)
     = Throw (Error prefixMessage).
Proof.
  destruct (login_sets_token_iff_granted nat (scripted healthy) freshWorld)
    as (_ & Hiff & Hset & _).
  destruct (login_sets_token_iff_granted nat (scripted wrongPrefix) freshWorld)
    as (_ & _ & _ & _ & Hwrong & _).
  split; [|split].
  - apply Hiff. exists "DDB_token". split; reflexivity.
  - apply (Hset "DDB_token"); reflexivity.
  - apply (Hwrong "JWT_token"); reflexivity.
Defined.

(** C2, as worded, fails: the service hands a fresh client a token of
    another prefix; the login throws a plain [Error], not an AuthError. *)
Lemma login_raises_plain_error :
  ~ login_sets_token_or_raises_AuthError (scripted wrongPrefix) freshWorld.
Proof.
  unfold login_sets_token_or_raises_AuthError. intros H.
  destruct (H eq_refl) as [_ Hnot].
  destruct Hnot as [_ (e & He & Hauth)].
  - intros (token & Ht & Hp). vm_compute in Ht. inversion Ht; subst.
    discriminate Hp.
  - vm_compute in He. inversion He; subst. discriminate Hauth.
Qed.

Lemma authorization_header_witness :
  let w := snd (push (scripted healthy) "students" [alice] defaultOptions
                  freshWorld) in
  authorization (client w) = Some "Bearer DDB_token"
  <-> exists t, tokenValue (client w) = Some t /\ t <> ""
                /\ "Bearer DDB_token" = "Bearer " ++ t.
Proof.
  cbv zeta.
  apply (proj2 (proj2 (authorization_header_follows_token nat
                         (scripted healthy)))).
  apply reach_push. apply reach_new.
Defined.

(** C9, as worded, fails: after [client.token = ''] the token is not
    [null] and there is no header. *)
Lemma empty_token_has_no_header :
  Reachable (scripted healthy) emptyTokenWorld
  /\ tokenValue (client emptyTokenWorld) = Some ""
  /\ authorization (client emptyTokenWorld) = None
  /\ ~ header_iff_token (client emptyTokenWorld).
Proof.
  split; [|split; [reflexivity|split; [reflexivity|]]].
  - apply reach_set_token. apply reach_new.
  - unfold header_iff_token. intros [_ H].
    destruct H as (t & _ & Hheader); discriminate.
Qed.

Lemma push_empty_record_set_witness :
  fst (authenticated_push (scripted healthy) "students" [] defaultOptions
         loggedInWorld)
  = Throw (TypeError "Cannot convert undefined or null to object").
Proof.
  apply (proj2 (push_empty_record_set_fails nat (scripted healthy) "students"
                  defaultOptions loggedInWorld))
    with (fullName := "duckdb.main.students").
  - reflexivity.
  - reflexivity.
  - intros r e. eexists _, _. reflexivity.
Defined.

Lemma table_reference_witness :
  resolveTableName "students" = Ok "duckdb.main.students"
  /\ resolveTableName "school.class.students" = Ok "school.class.students"
  /\ resolveTableName "a.b" = Throw (Error tableNameMessage).
Proof.
  split; [|split].
  - apply (table_reference_segments nat (scripted healthy) "students").
    reflexivity.
  - apply (table_reference_segments nat (scripted healthy)
             "school.class.students").
    reflexivity.
  - apply (table_reference_segments nat (scripted healthy) "a.b");
      discriminate.
Defined.

Lemma push_requests_witness :
  let auth := Some "Bearer DDB_token" in
  let database := PostDatabases auth (Some "duckdb") in
  let schema :=
    PostQuery auth "CREATE SCHEMA IF NOT EXISTS duckdb.main" None in
  let drop :=
    PostQuery auth "DROP TABLE IF EXISTS duckdb.main.students" None in
  let table :=
    PostQuery auth
      "CREATE TABLE IF NOT EXISTS duckdb.main.students (id BIGINT, name VARCHAR, active BOOLEAN)"
      None in
  (exists tempFile uuid url key size,
      requests (added (scripted healthy) "students" [alice] defaultOptions
                  loggedInWorld)
      = ([database; schema; table]
         ++ TmpFile ".parquet"
            :: stagingRequests auth "duckdb.main.students" tempFile alice
                 [alice] false [] uuid url key size
            ++ [TmpCleanup tempFile])%list)
  /\ (exists tempFile uuid url key size,
        requests (added (scripted healthy) "students" [alice]
                    (mkOptions (Some false) (Some true) None None)
                    loggedInWorld)
        = ([database; schema; drop; table]
           ++ TmpFile ".parquet"
              :: stagingRequests auth "duckdb.main.students" tempFile alice
                   [alice] false [] uuid url key size
              ++ [TmpCleanup tempFile])%list).
Proof.
  cbv zeta.
  assert (Hanswering : Answering (scripted healthy)).
  { intros r e. eexists _, _. reflexivity. }
  split.
  - destruct (push_requests_in_order nat (scripted healthy) "students"
                "duckdb.main.students" alice [] defaultOptions loggedInWorld
                eq_refl eq_refl) as (_ & _ & _ & Hanswered).
    destruct (Hanswered Hanswering)
      as (_ & _ & tempFile & uuid & url & key & size & _ & Hcreate & _).
    exists tempFile, uuid, url, key, size.
    apply Hcreate; reflexivity.
  - destruct (push_requests_in_order nat (scripted healthy) "students"
                "duckdb.main.students" alice []
                (mkOptions (Some false) (Some true) None None) loggedInWorld
                eq_refl eq_refl) as (_ & _ & _ & Hanswered).
    destruct (Hanswered Hanswering)
      as (_ & _ & tempFile & uuid & url & key & size & _ & _ & Hreplace & _).
    exists tempFile, uuid, url, key, size.
    apply Hreplace; reflexivity.
Defined.

Lemma push_releases_temporary_file_witness :
  let l := added (scripted importFails) "students" [alice] defaultOptions
             loggedInWorld in
  (exists before cleaned,
      l = (before ++ [(TmpCleanup "/tmp/tmp-1.parquet", cleaned)])%list)
  /\ forall a k res, ~ In (DeleteFiles a k, res) l.
Proof.
  cbv zeta.
  destruct (push_releases_temporary_file nat (scripted importFails)
              "students" [alice] defaultOptions loggedInWorld)
    as (l & Hl & Hfile & _ & _ & Hfail).
  assert (Hadded : added (scripted importFails) "students" [alice]
                     defaultOptions loggedInWorld = l).
  { unfold added. rewrite Hl. simpl. reflexivity. }
  rewrite Hadded. split.
  - apply Hfile. rewrite <- Hadded. vm_compute. auto 10.
  - apply (Hfail (PostParquetImport (Some "Bearer DDB_token")
                    "duckdb.main.students" "staged-key")
             "staged-key" (httpFailure 500)); [reflexivity|].
    rewrite <- Hadded. vm_compute. auto 20.
Defined.

(** C3, as worded, fails: the file was written and uploaded, the import is
    answered 500; the temporary file is cleaned up, and no deletion of the
    staged object is requested. *)
Lemma staged_object_left_behind :
  ~ releases_both_resources (scripted importFails) "students" [alice]
      defaultOptions loggedInWorld.
Proof.
  unfold releases_both_resources. intros H.
  destruct (H "/tmp/tmp-1.parquet" "https://bucket/put" 128%N)
    as [_ (a & k & res & Hin)].
  - vm_compute. auto 10.
  - vm_compute. auto 20.
  - vm_compute in Hin.
    repeat (destruct Hin as [Hin|Hin]; [discriminate Hin|]).
    exact Hin.
Qed.

Lemma dedupe_import_witness :
  fst (authenticated_push (scripted healthy) "students" [alice] dedupeOptions
         loggedInWorld) = Ok tt
  /\ exists key,
      In (PostParquetImportDedupe (Some "Bearer DDB_token")
            "duckdb.main.students" key [])
        (requests (added (scripted healthy) "students" [alice] dedupeOptions
                     loggedInWorld)).
Proof.
  destruct (dedupe_import_without_keys nat (scripted healthy) "students"
              "duckdb.main.students" [alice] dedupeOptions loggedInWorld)
    as (_ & _ & Hanswered).
  - reflexivity.
  - left. reflexivity.
  - reflexivity.
  - destruct Hanswered as (Hok & _ & Hkey).
    + intros r e. eexists _, _. reflexivity.
    + reflexivity.
    + discriminate.
    + split; [exact Hok|exact Hkey].
Defined.

(** C4, as worded, fails: a deduplicating push without key columns goes
    through, and the import is requested with an empty list of them. *)
Lemma dedupe_without_keys_is_not_rejected :
  ~ rejects_missing_keys (scripted healthy) "students" [alice] dedupeOptions
      loggedInWorld
  /\ fst (push (scripted healthy) "students" [alice] dedupeOptions
            loggedInWorld) = Ok tt
  /\ In (PostParquetImportDedupe (Some "Bearer DDB_token")
           "duckdb.main.students" "staged-key" [])
       (requests (log (snd (push (scripted healthy) "students" [alice]
                              dedupeOptions loggedInWorld)))).
Proof.
  split; [|split].
  - unfold rejects_missing_keys. intros H.
    destruct (H eq_refl (or_introl eq_refl)) as [(e & He) _].
    vm_compute in He. discriminate He.
  - reflexivity.
  - vm_compute. auto 20.
Qed.

Lemma execute_rewrites_witness :
  authenticated_execute (scripted healthy)
    "SELECT * FROM t WHERE a = $2 AND b = $1"
    [JsString "x"; JsBoolean true] loggedInWorld
  = (Ok [],
     mkWorld (client loggedInWorld) 1
       [(PostQuery (Some "Bearer DDB_token")
           "SELECT * FROM t WHERE a = ? AND b = ?"
           (Some [JsBoolean true; JsString "x"]),
         Ok (DRows [] []))])
  /\ execute (scripted healthy) "SELECT * FROM t WHERE a = $2 AND b = $1"
       [JsString "x"] loggedInWorld
     = (Throw (Error parameterLimitMessage), loggedInWorld).
Proof.
  assert (Hready : Ready (scripted healthy) loggedInWorld loggedInWorld).
  { left. split; reflexivity. }
  split.
  - apply (execute_rewrites_placeholders nat (scripted healthy)
             "SELECT * FROM t WHERE a = $2 AND b = $1"
             [JsString "x"; JsBoolean true] loggedInWorld loggedInWorld);
      solve [reflexivity | assumption].
  - apply (execute_rewrites_placeholders nat (scripted healthy)
             "SELECT * FROM t WHERE a = $2 AND b = $1"
             [JsString "x"] loggedInWorld loggedInWorld);
      solve [reflexivity | assumption].
Defined.

(** C5, as worded, fails: on a client that holds no token [execute] logs in
    before it looks at the query, so the error for [$2] with one parameter
    comes after a call. *)
Lemma execute_logs_in_before_rejecting :
  ~ rejects_before_any_call (scripted healthy) "SELECT $2" [JsNull]
      freshWorld
  /\ fst (execute (scripted healthy) "SELECT $2" [JsNull] freshWorld)
     = Throw (Error parameterLimitMessage)
  /\ requests (log (snd (execute (scripted healthy) "SELECT $2" [JsNull]
                           freshWorld)))
     = [PostServers None (Some "ak") (Some "sk") (Some "user")].
Proof.
  split; [|split; reflexivity].
  unfold rejects_before_any_call. intros H.
  destruct (H eq_refl) as [_ Hlog]. vm_compute in Hlog. discriminate Hlog.
Qed.

(** The service answers 401 to every query: [execute] on a fresh client logs
    in, then queries and logs in again three times, and gives up. *)
Example execute_unauthorized_three_times :
  let after := execute (scripted unauthorized) "SELECT 1" [] freshWorld in
  fst after = Throw exhaustedError
  /\ map kind (requests (log (snd after)))
     = [KServers; KQuery; KServers; KQuery; KServers; KQuery; KServers].
Proof. split; reflexivity. Qed.

(* ------------------------------------------------------------------------- *)
(** ** Errors on their way to the caller ([handleApiError]) *)

Lemma apiError_isAuthError (err : JsError) :
  isAuthError (apiError err) = isAuthError err.
Proof.
  destruct err as [m|m|m [r|]|m r|m r]; try reflexivity.
  unfold isAuthError, status_is. simpl. now destruct (status r =? 401)%Z.
Qed.

(** X1. [handleApiError] changes the class of an error, never what the
    service answered: the error it throws carries the same response, hence
    the same status, and the retry wrapper takes it for a 401 exactly when
    it would have taken the original for one.  Wrapping twice is wrapping
    once.  What it throws is an axios error only when the original was one
    without a response, and a [ChakraAPIError] when the original was one or
    was an axios error with a response. *)
Theorem handleApiError_keeps_the_response (err : JsError) :
  response_of (apiError err) = response_of err
  /\ (forall code, status_is code (apiError err) = status_is code err)
  /\ isAuthError (apiError err) = isAuthError err
  /\ apiError (apiError err) = apiError err
  /\ isAxiosError (apiError err)
     = isAxiosError err && match response_of err with
                           | Some _ => false
                           | None => true
                           end
  /\ instanceof_ChakraAPIError (apiError err)
     = instanceof_ChakraAPIError err
       || (isAxiosError err && match response_of err with
                               | Some _ => true
                               | None => false
                               end).
Proof.
  split; [|split; [|split; [exact (apiError_isAuthError err)|]]];
    destruct err as [m|m|m [r|]|m r|m r]; repeat split; reflexivity.
Qed.

(* ------------------------------------------------------------------------- *)
(** ** Names cut at a separator ([split], [join]) *)

Lemma split_cons (sep : ascii) (s : string) :
  exists p ps, split sep s = p :: ps.
Proof.
  destruct s as [|c rest]; simpl; [now eexists _, _|].
  destruct (Ascii.eqb c sep); [now eexists _, _|].
  destruct (split sep rest); now eexists _, _.
Qed.

Lemma join_cons (sep p q : string) (qs : list string) :
  join sep (p :: q :: qs) = p ++ sep ++ join sep (q :: qs).
Proof. reflexivity. Qed.

Lemma join_split (sep : ascii) (s : string) :
  join (String sep "") (split sep s) = s.
Proof.
  induction s as [|c rest IH]; [reflexivity|].
  destruct (split_cons sep rest) as (p & ps & Hsplit).
  cbn [split]. rewrite Hsplit in *.
  destruct (Ascii.eqb c sep) eqn:Hc.
  - apply Ascii.eqb_eq in Hc. subst c.
    rewrite join_cons, IH. reflexivity.
  - destruct ps as [|q qs].
    + simpl in *. now rewrite IH.
    + rewrite join_cons in IH |- *. rewrite <- IH. reflexivity.
Qed.

Lemma split_none (sep : ascii) (s : string) :
  occurs sep s = false -> split sep s = [s].
Proof.
  induction s as [|c rest IH]; [reflexivity|]. simpl. intros H.
  apply orb_false_iff in H. destruct H as [Hc Hrest].
  rewrite Hc, (IH Hrest). reflexivity.
Qed.

Lemma split_app (sep : ascii) (part rest : string) :
  occurs sep part = false ->
  split sep (part ++ String sep rest) = part :: split sep rest.
Proof.
  induction part as [|c part IH]; simpl; intros H.
  - now rewrite Ascii.eqb_refl.
  - apply orb_false_iff in H. destruct H as [Hc Hpart].
    now rewrite Hc, (IH Hpart).
Qed.

Lemma split_occurs (sep : ascii) (s : string) :
  Forall (fun part => occurs sep part = false) (split sep s).
Proof.
  induction s as [|c rest IH]; simpl; [now repeat constructor|].
  destruct (Ascii.eqb c sep) eqn:Hc; [now constructor|].
  destruct (split sep rest) as [|p ps].
  { repeat constructor. simpl. now rewrite Hc. }
  inversion IH; subst. constructor; [|assumption]. simpl. now rewrite Hc.
Qed.

(** X3. The name a push works on, once the table name is accepted, is
    [database.schema.table] with no dot inside the three parts; it is
    accepted as it is when given as the table name; the schema statement
    names [database.schema]; and a simple name is put under [duckdb.main]
    unchanged. *)
Theorem accepted_table_name_has_three_parts (tableName fullName : string) :
  resolveTableName tableName = Ok fullName ->
  exists database schema table,
    split "." fullName = [database; schema; table]
    /\ occurs "." database = false /\ occurs "." schema = false
    /\ occurs "." table = false
    /\ fullName = database ++ "." ++ schema ++ "." ++ table
    /\ resolveTableName fullName = Ok fullName
    /\ schemaSql fullName
       = "CREATE SCHEMA IF NOT EXISTS " ++ database ++ "." ++ schema
    /\ (length (split "." tableName) = 1%nat ->
        database = "duckdb" /\ schema = "main" /\ table = tableName).
Proof.
  intros Hname.
  assert (Hthree : length (split "." fullName) = 3%nat
                   /\ (length (split "." tableName) = 1%nat ->
                       split "." fullName = ["duckdb"; "main"; tableName])).
  { destruct (Nat.eq_dec (length (split "." tableName)) 1) as [H1|H1].
    - rewrite (proj1 (resolveTableName_simple _ H1)) in Hname.
      assert (fullName = "duckdb.main." ++ tableName) as -> by congruence.
      rewrite split_default_prefix.
      destruct (split "." tableName) as [|p [|q ps]] eqn:E;
        try discriminate.
      pose proof (join_split "." tableName) as Hjoin.
      rewrite E in Hjoin. simpl in Hjoin. subst p. now split.
    - destruct (Nat.eq_dec (length (split "." tableName)) 3) as [H3|H3].
      + rewrite (resolveTableName_qualified _ H3) in Hname.
        assert (fullName = tableName) as -> by congruence.
        split; [exact H3 | intros H; contradiction].
      + now rewrite (resolveTableName_rejected _ H1 H3) in Hname. }
  destruct Hthree as [Hlen Hsimple].
  destruct (split "." fullName) as [|database [|schema [|table [|x xs]]]] eqn:E;
    try discriminate.
  exists database, schema, table.
  pose proof (split_occurs "." fullName) as Hocc. rewrite E in Hocc.
  inversion Hocc as [|? ? Hd Hocc1]; subst.
  inversion Hocc1 as [|? ? Hs Hocc2]; subst.
  inversion Hocc2 as [|? ? Ht _]; subst.
  pose proof (join_split "." fullName) as Hjoin. rewrite E in Hjoin.
  simpl in Hjoin.
  repeat split; try assumption.
  - now symmetry.
  - now apply resolveTableName_qualified; rewrite E.
  - unfold schemaSql. now rewrite E.
  - specialize (Hsimple H). now inversion Hsimple.
  - specialize (Hsimple H). now inversion Hsimple.
  - specialize (Hsimple H). now inversion Hsimple.
Qed.

(* ------------------------------------------------------------------------- *)
(** ** The objects made of rows ([authenticated_execute], lines 380-387) *)

(** Names that are array indices come first, by ascending index; a name
    assigned twice keeps its place. *)
Example row_object_order :
  map fst (properties (zipRow ["b"; "10"; "a"; "9"; "01"; "b"]
                         [JsNull; JsNull; JsNull; JsNull; JsNull; JsNull]
                         0 []))
  = ["9"; "10"; "b"; "a"; "01"].
Proof. reflexivity. Qed.

(** An assignment to [__proto__] makes no own property while the accessor
    is inherited; after [null] was assigned it is not, and the next one
    does. *)
Example row_object_proto :
  zipRow ["__proto__"; "id"] [JsString "x"; JsNull] 0 []
  = mkObject ObjectPrototype [("id", JsNull)]
  /\ zipRow ["__proto__"; "__proto__"] [JsNull; JsString "x"] 0 []
     = mkObject NullPrototype [("__proto__", JsString "x")].
Proof. split; reflexivity. Qed.

Lemma own_keys (entries : JsRecord) (name : string) :
  ownProperty entries name = None <-> ~ In name (map fst entries).
Proof.
  induction entries as [|[k v] rest IH]; simpl; [tauto|].
  destruct (String.eqb_spec k name) as [->|Hk].
  - split; [discriminate|]. intros H. exfalso. apply H. now left.
  - rewrite IH. intuition congruence.
Qed.

Lemma own_updateOwn (entries : JsRecord) (name other : string)
  (val : JsValue) :
  ownProperty (updateOwn entries name val) other
  = if String.eqb name other
    then match ownProperty entries name with
         | Some _ => Some val
         | None => None
         end
    else ownProperty entries other.
Proof.
  induction entries as [|[k v] rest IH]; simpl.
  - now destruct (String.eqb name other).
  - destruct (String.eqb_spec k name) as [->|Hk]; simpl.
    + destruct (String.eqb_spec name other) as [->|Hne]; [reflexivity|].
      reflexivity.
    + rewrite IH.
      destruct (String.eqb_spec name other) as [->|Hne].
      * destruct (String.eqb_spec k other); [contradiction|reflexivity].
      * reflexivity.
Qed.

Lemma keys_updateOwn (entries : JsRecord) (name : string) (val : JsValue) :
  map fst (updateOwn entries name val) = map fst entries.
Proof.
  induction entries as [|[k v] rest IH]; simpl; [reflexivity|].
  destruct (String.eqb k name); simpl; [reflexivity|now rewrite IH].
Qed.

Lemma own_insertIndex (n : N) (entries : JsRecord) (name other : string)
  (val : JsValue) :
  ownProperty entries name = None ->
  ownProperty (insertIndex n name val entries) other
  = if String.eqb name other then Some val else ownProperty entries other.
Proof.
  induction entries as [|[k v] rest IH]; simpl; intros Hnone.
  - reflexivity.
  - destruct (String.eqb_spec k name) as [->|Hk]; [discriminate|].
    destruct (arrayIndex k) as [m|]; [destruct (m <? n)%N|]; simpl;
      try reflexivity.
    rewrite (IH Hnone).
    destruct (String.eqb_spec name other) as [->|Hne]; [|reflexivity].
    destruct (String.eqb_spec k other); [contradiction|reflexivity].
Qed.

Lemma keys_insertIndex (n : N) (entries : JsRecord) (name : string)
  (val : JsValue) (k : string) :
  In k (map fst (insertIndex n name val entries))
  <-> k = name \/ In k (map fst entries).
Proof.
  induction entries as [|[k' v] rest IH]; simpl.
  - intuition congruence.
  - destruct (arrayIndex k') as [m|]; [destruct (m <? n)%N|]; simpl;
      try rewrite IH; intuition congruence.
Qed.

Lemma NoDup_insertIndex (n : N) (entries : JsRecord) (name : string)
  (val : JsValue) :
  ~ In name (map fst entries) -> NoDup (map fst entries) ->
  NoDup (map fst (insertIndex n name val entries)).
Proof.
  induction entries as [|[k v] rest IH]; simpl; intros Hnot Hnd.
  - constructor; [intros []|constructor].
  - inversion Hnd as [|? ? Hk Hrest]; subst.
    destruct (arrayIndex k) as [m|]; [destruct (m <? n)%N|]; simpl;
      try (constructor; [simpl; exact Hnot|exact Hnd]).
    constructor.
    + rewrite keys_insertIndex. intros [->|Hin]; [|contradiction].
      apply Hnot. now left.
    + apply IH; [|exact Hrest]. intros Hin. apply Hnot. now right.
Qed.

Lemma own_defineOwn (entries : JsRecord) (name other : string)
  (val : JsValue) :
  ownProperty entries name = None ->
  ownProperty (defineOwn entries name val) other
  = if String.eqb name other then Some val else ownProperty entries other.
Proof.
  intros Hnone. unfold defineOwn.
  destruct (arrayIndex name) as [n|]; [now apply own_insertIndex|].
  induction entries as [|[k v] rest IH]; simpl in *; [reflexivity|].
  destruct (String.eqb_spec k name) as [->|Hk]; [discriminate|].
  rewrite (IH Hnone).
  destruct (String.eqb_spec name other) as [->|Hne]; [|reflexivity].
  destruct (String.eqb_spec k other); [contradiction|reflexivity].
Qed.

Lemma keys_defineOwn (entries : JsRecord) (name : string) (val : JsValue)
  (k : string) :
  In k (map fst (defineOwn entries name val))
  <-> k = name \/ In k (map fst entries).
Proof.
  unfold defineOwn. destruct (arrayIndex name) as [n|].
  - apply keys_insertIndex.
  - rewrite map_app, in_app_iff. simpl. intuition congruence.
Qed.

Lemma NoDup_snoc (keys : list string) (name : string) :
  ~ In name keys -> NoDup keys -> NoDup (keys ++ [name]).
Proof.
  induction keys as [|k rest IH]; simpl; intros Hnot Hnd.
  - constructor; [intros []|constructor].
  - inversion Hnd as [|? ? Hk Hrest]; subst. constructor.
    + rewrite in_app_iff. simpl. intuition congruence.
    + apply IH; [intuition|exact Hrest].
Qed.

Lemma NoDup_defineOwn (entries : JsRecord) (name : string) (val : JsValue) :
  ~ In name (map fst entries) -> NoDup (map fst entries) ->
  NoDup (map fst (defineOwn entries name val)).
Proof.
  intros Hnot Hnd. unfold defineOwn. destruct (arrayIndex name) as [n|].
  - now apply NoDup_insertIndex.
  - rewrite map_app. simpl. now apply NoDup_snoc.
Qed.

(** What an assignment does to the own properties of other names, and to
    the own property of its name when that is not [__proto__]. *)
Lemma own_setProperty (obj : JsObj) (col other : string) (val : JsValue) :
  ownProperty (properties (setProperty obj col val)) other
  = if String.eqb col other
    then (if String.eqb col "__proto__"
          then ownProperty (properties (setProperty obj col val)) col
          else Some val)
    else ownProperty (properties obj) other.
Proof.
  unfold setProperty.
  destruct (ownProperty (properties obj) col) as [v0|] eqn:Hown.
  - cbn [properties]. rewrite own_updateOwn, Hown.
    destruct (String.eqb_spec col other) as [->|Hne]; [|reflexivity].
    destruct (String.eqb other "__proto__"); [|reflexivity].
    now rewrite own_updateOwn, String.eqb_refl, Hown.
  - destruct (String.eqb_spec col "__proto__") as [->|Hproto].
    + cbn [andb].
      destruct (String.eqb_spec "__proto__" other) as [<-|Hne];
        [reflexivity|].
      destruct (inheritsProtoAccessor (prototype obj)).
      * destruct val; reflexivity.
      * cbn [properties]. rewrite (own_defineOwn _ _ other val Hown).
        destruct (String.eqb_spec "__proto__" other); [contradiction|].
        reflexivity.
    + cbn [andb properties]. rewrite (own_defineOwn _ _ other val Hown).
      now destruct (String.eqb col other).
Qed.

Lemma keys_setProperty (obj : JsObj) (col : string) (val : JsValue)
  (k : string) :
  In k (map fst (properties (setProperty obj col val))) ->
  k = col \/ In k (map fst (properties obj)).
Proof.
  unfold setProperty.
  destruct (ownProperty (properties obj) col) as [v0|] eqn:Hown.
  - cbn [properties]. rewrite keys_updateOwn. now right.
  - destruct (String.eqb col "__proto__"
              && inheritsProtoAccessor (prototype obj)).
    + destruct val; cbn [properties]; now right.
    + cbn [properties]. now rewrite keys_defineOwn.
Qed.

Lemma NoDup_setProperty (obj : JsObj) (col : string) (val : JsValue) :
  NoDup (map fst (properties obj)) ->
  NoDup (map fst (properties (setProperty obj col val))).
Proof.
  intros Hnd. unfold setProperty.
  destruct (ownProperty (properties obj) col) as [v0|] eqn:Hown.
  - cbn [properties]. now rewrite keys_updateOwn.
  - destruct (String.eqb col "__proto__"
              && inheritsProtoAccessor (prototype obj)).
    + destruct val; exact Hnd.
    + cbn [properties]. apply NoDup_defineOwn; [|exact Hnd].
      now apply own_keys.
Qed.

Lemma prototype_setProperty (obj : JsObj) (col : string) (val : JsValue) :
  col <> "__proto__" \/ ignoredAsPrototype val = true ->
  prototype (setProperty obj col val) = prototype obj.
Proof.
  intros H. unfold setProperty.
  destruct (ownProperty (properties obj) col); [reflexivity|].
  destruct (String.eqb_spec col "__proto__") as [->|Hne]; cbn [andb];
    [|reflexivity].
  destruct (inheritsProtoAccessor (prototype obj)); [|reflexivity].
  destruct H as [H|H]; [contradiction|].
  destruct val; try discriminate; reflexivity.
Qed.

Lemma ignored_setProperty (obj : JsObj) (val : JsValue) :
  prototype obj = ObjectPrototype ->
  ownProperty (properties obj) "__proto__" = None ->
  ignoredAsPrototype val = true ->
  setProperty obj "__proto__" val = obj.
Proof.
  intros Hp Hown Hval. unfold setProperty. rewrite Hown, Hp. simpl.
  destruct obj as [p entries]. simpl in *. subst p.
  destruct val; try discriminate; reflexivity.
Qed.

Lemma assignColumns_lookup (columns : list string) (row : list JsValue)
  (col : string) :
  col <> "__proto__" ->
  forall idx obj,
    ownProperty (properties (assignColumns columns row idx obj)) col
    = match lastIndexOf col columns with
      | Some i => Some (nth (idx + i) row JsUndefined)
      | None => ownProperty (properties obj) col
      end.
Proof.
  intros Hcol. induction columns as [|c rest IH]; intros idx obj; simpl;
    [reflexivity|].
  rewrite IH.
  destruct (lastIndexOf col rest) as [i|].
  - do 2 f_equal. lia.
  - rewrite own_setProperty.
    destruct (String.eqb_spec c col) as [->|Hc]; [|reflexivity].
    destruct (String.eqb_spec col "__proto__"); [contradiction|].
    now rewrite Nat.add_0_r.
Qed.

Lemma assignColumns_keys (columns : list string) (row : list JsValue)
  (k : string) :
  forall idx obj,
    In k (map fst (properties (assignColumns columns row idx obj))) ->
    In k columns \/ In k (map fst (properties obj)).
Proof.
  induction columns as [|c rest IH]; intros idx obj; simpl; [tauto|].
  intros H. apply IH in H. destruct H as [H|H]; [auto|].
  apply keys_setProperty in H. destruct H as [->|H]; auto.
Qed.

Lemma assignColumns_NoDup (columns : list string) (row : list JsValue) :
  forall idx obj,
    NoDup (map fst (properties obj)) ->
    NoDup (map fst (properties (assignColumns columns row idx obj))).
Proof.
  induction columns as [|c rest IH]; intros idx obj H; simpl; [exact H|].
  apply IH. now apply NoDup_setProperty.
Qed.

Lemma assignColumns_ignored (columns : list string) (row : list JsValue) :
  forall idx obj,
    (forall i, nth_error columns i = Some "__proto__" ->
               ignoredAsPrototype (nth (idx + i) row JsUndefined) = true) ->
    prototype obj = ObjectPrototype ->
    ownProperty (properties obj) "__proto__" = None ->
    prototype (assignColumns columns row idx obj) = ObjectPrototype
    /\ ownProperty (properties (assignColumns columns row idx obj))
         "__proto__" = None.
Proof.
  induction columns as [|c rest IH]; intros idx obj Hrow Hp Hown; simpl;
    [now split|].
  apply IH.
  - intros i Hi. replace (S idx + i) with (idx + S i) by lia.
    now apply Hrow.
  - rewrite prototype_setProperty; [exact Hp|].
    destruct (String.eqb_spec c "__proto__") as [->|Hc]; [right|now left].
    specialize (Hrow 0 eq_refl). now rewrite Nat.add_0_r in Hrow.
  - destruct (String.eqb_spec c "__proto__") as [->|Hc].
    + rewrite ignored_setProperty; try assumption.
      specialize (Hrow 0 eq_refl). now rewrite Nat.add_0_r in Hrow.
    + rewrite own_setProperty.
      destruct (String.eqb_spec c "__proto__"); [contradiction|exact Hown].
Qed.

Lemma lastIndexOf_spec (col : string) (columns : list string) :
  match lastIndexOf col columns with
  | Some i => nth_error columns i = Some col
              /\ forall j, i < j -> nth_error columns j <> Some col
  | None => ~ In col columns
  end.
Proof.
  induction columns as [|c rest IH]; simpl; [tauto|].
  destruct (lastIndexOf col rest) as [i|].
  - destruct IH as [Hi Hlast]. split; [exact Hi|].
    intros [|j] Hj; [lia|]. simpl. apply Hlast. lia.
  - destruct (String.eqb_spec c col) as [->|Hc].
    + split; [reflexivity|]. intros [|j] Hj; [lia|]. simpl.
      intros H. apply IH. eapply nth_error_In. exact H.
    + intros [H|H]; [now apply Hc|now apply IH].
Qed.

(** X4. The object [execute] makes of a row.  Its own properties have
    distinct names, all of them column names.  Every column name other than
    [__proto__] names an own property, whose value is the one the row holds
    at the last index where the reply names that column, [undefined] when
    the row is too short.  A name that is no column names no own property.
    A column named [__proto__] makes no own property and leaves the
    prototype alone as long as the row holds no object and no [null]
    there: the assignment goes to the setter of [Object.prototype], which
    ignores such values. *)
Theorem row_object_properties (columns : list string) (row : list JsValue) :
  let obj := zipRow columns row 0 [] in
  let own := ownProperty (properties obj) in
  NoDup (map fst (properties obj))
  /\ (forall col, In col (map fst (properties obj)) -> In col columns)
  /\ (forall col, col <> "__proto__" -> In col columns ->
        In col (map fst (properties obj)))
  /\ (forall col, ~ In col columns -> own col = None)
  /\ (forall col i,
        col <> "__proto__" -> nth_error columns i = Some col ->
        (forall j, i < j -> nth_error columns j <> Some col) ->
        own col = Some (nth i row JsUndefined)
        /\ (length row <= i -> own col = Some JsUndefined))
  /\ ((forall i, nth_error columns i = Some "__proto__" ->
                 ignoredAsPrototype (nth i row JsUndefined) = true) ->
      prototype obj = ObjectPrototype /\ own "__proto__" = None).
Proof.
  cbv zeta. unfold zipRow. split; [|split; [|split; [|split; [|split]]]].
  - apply assignColumns_NoDup. constructor.
  - intros col H. apply assignColumns_keys in H. simpl in H. tauto.
  - intros col Hcol Hin.
    destruct (in_dec string_dec col
                (map fst (properties (assignColumns columns row 0
                                        (mkObject ObjectPrototype [])))))
      as [H|H]; [exact H|].
    apply own_keys in H.
    rewrite (assignColumns_lookup columns row col Hcol) in H.
    pose proof (lastIndexOf_spec col columns) as Hlast.
    destruct (lastIndexOf col columns); [discriminate|contradiction].
  - intros col Hnot. apply own_keys. intros H.
    apply assignColumns_keys in H. simpl in H. tauto.
  - intros col i Hcol Hi Hlast.
    assert (Hget : ownProperty
                     (properties (assignColumns columns row 0
                                    (mkObject ObjectPrototype []))) col
                   = Some (nth i row JsUndefined)).
    { rewrite (assignColumns_lookup columns row col Hcol).
      pose proof (lastIndexOf_spec col columns) as H.
      destruct (lastIndexOf col columns) as [i'|].
      - destruct H as [Hi' Hlast']. simpl.
        destruct (Nat.lt_trichotomy i i') as [Hlt|[->|Hgt]].
        + exfalso. exact (Hlast i' Hlt Hi').
        + reflexivity.
        + exfalso. exact (Hlast' i Hgt Hi).
      - exfalso. apply H. eapply nth_error_In. exact Hi. }
    split; [exact Hget|]. intros Hshort. rewrite Hget.
    now rewrite nth_overflow.
  - intros Hrow. apply assignColumns_ignored; [exact Hrow| |]; reflexivity.
Qed.

(* ------------------------------------------------------------------------- *)
(** ** The query after its placeholders are replaced *)

Lemma hasPositionalParameters_text (text rest : string) :
  queryHasPositionalParameters text = false ->
  startsWithDigit rest = false ->
  queryHasPositionalParameters (text ++ rest)
  = queryHasPositionalParameters rest.
Proof.
  intros Ht Hr. induction text as [|c t IH]; [reflexivity|].
  simpl in Ht. apply orb_false_iff in Ht. destruct Ht as [Hc Ht].
  cbn [append queryHasPositionalParameters]. rewrite (IH Ht).
  destruct t as [|d t']; cbn [append].
  - destruct rest as [|d r]; [now rewrite andb_false_r|].
    simpl in Hr. now rewrite Hr, andb_false_r.
  - now rewrite Hc.
Qed.

Lemma questionMarks_plain (pieces : list (string * string)) (tail : string) :
  WellCut pieces tail ->
  queryHasPositionalParameters (questionMarks pieces tail) = false.
Proof.
  induction pieces as [|[text digits] rest IH]; simpl; [tauto|].
  intros (Htext & _ & _ & _ & Hrest).
  rewrite (hasPositionalParameters_text text
             (String "?" (questionMarks rest tail)) Htext eq_refl).
  simpl. now apply IH.
Qed.

Lemma replacePositionalParameters_cut (query : string)
  (parameters : list JsValue) :
  let pieces := fst (cut query) in
  let tail := snd (cut query) in
  replacePositionalParameters query parameters
  = if existsb (outOfBounds parameters) (references pieces)
    then Throw (Error parameterLimitMessage)
    else Ok (questionMarks pieces tail,
             map (parameterAt parameters) (references pieces)).
Proof.
  cbv zeta. destruct (cut_spec query) as [Hquery Hcut].
  unfold replacePositionalParameters. rewrite <- Hquery at 1.
  now apply replaceScan_assembled.
Qed.

Lemma outOfBounds_false (parameters : list JsValue) (n : N) :
  outOfBounds parameters n = false ->
  N.to_nat n - 1 < length parameters.
Proof.
  unfold outOfBounds. intros H. apply orb_false_iff in H.
  destruct H as [H0 Hlen].
  apply N.eqb_neq in H0. apply N.ltb_ge in Hlen. lia.
Qed.

(** X6. When [replacePositionalParameters] returns, the query it returns
    holds no placeholder any more, so that replacing again changes nothing;
    it returns one parameter for each placeholder of the query, each of
    them one of the parameters given; and with no parameter given it
    returns only for a query without placeholders, which it leaves as it
    is. *)
Theorem replaced_query_properties (query : string)
  (parameters : list JsValue) (query' : string) (sent : list JsValue) :
  replacePositionalParameters query parameters = Ok (query', sent) ->
  queryHasPositionalParameters query' = false
  /\ (forall others, replacePositionalParameters query' others
                     = Ok (query', []))
  /\ length sent = length (references (fst (cut query)))
  /\ Forall (fun value => In value parameters) sent
  /\ (parameters = [] -> query' = query /\ sent = []).
Proof.
  rewrite replacePositionalParameters_cut. cbv zeta.
  destruct (cut_spec query) as [Hquery Hcut].
  destruct (existsb (outOfBounds parameters) (references (fst (cut query))))
    eqn:Hbounds; [discriminate|].
  intros H. inversion H; subst. clear H.
  pose proof (questionMarks_plain _ _ Hcut) as Hplain.
  split; [exact Hplain|]. split; [|split; [|split]].
  - intros others. now apply replaceScan_none.
  - now rewrite length_map.
  - apply Forall_forall. intros value Hin. apply in_map_iff in Hin.
    destruct Hin as (n & <- & Hn).
    assert (Hin : outOfBounds parameters n = false).
    { destruct (outOfBounds parameters n) eqn:E; [|reflexivity].
      assert (existsb (outOfBounds parameters)
                (references (fst (cut query))) = true)
        by (apply existsb_exists; now exists n).
      congruence. }
    apply nth_In. now apply outOfBounds_false.
  - intros ->.
    destruct (fst (cut query)) as [|[text digits] rest] eqn:Epieces.
    + simpl in *. split; [exact Hquery|reflexivity].
    + simpl in Hbounds. unfold outOfBounds in Hbounds at 1. simpl in Hbounds.
      destruct (parseInt digits); discriminate.
Qed.

(* ------------------------------------------------------------------------- *)
(** ** Runs of [execute] *)

Section ExecuteRuns.

Variable Env : Type.
Variable respond : forall r : Request, Env -> Result (reply_type r) * Env.

Lemma authenticated_execute_run (query : string) (parameters : list JsValue)
  (w : World Env) :
  truthy (tokenValue (client w)) = true ->
  authenticated_execute respond query parameters w
  = match preparedQuery query parameters with
    | Throw e => (Throw (apiError e), w)
    | Ok qp =>
        let request := queryRequest (authorization (client w)) qp in
        let reply := respond request (env w) in
        (match fst reply with
         | Ok res => Ok (rowObjects res)
         | Throw err => Throw (apiError err)
         end,
         mkWorld (client w) (snd reply)
           (log w ++ [(request, logged request (fst reply))])%list)
    end.
Proof.
  intros Htok.
  unfold authenticated_execute, bind, get_token. rewrite Htok.
  change (negb true) with false. cbv iota.
  unfold preparedQuery, tryCatch, bind.
  destruct (queryHasPositionalParameters query).
  - destruct (replacePositionalParameters query parameters) as [qp|e];
      [|reflexivity].
    unfold lift, ret, header, call, queryRequest. cbv zeta.
    destruct (respond (PostQuery (authorization (client w)) (fst qp)
                         (Some (snd qp))) (env w)) as [[res|err] e'];
      reflexivity.
  - unfold ret, header, call, queryRequest. cbv zeta.
    cbn [fst snd].
    destruct (respond (PostQuery (authorization (client w)) query
                         (Some parameters)) (env w)) as [[res|err] e'];
      reflexivity.
Qed.

Lemma preparedQuery_plain (query : string) (parameters : list JsValue) :
  queryHasPositionalParameters query = false ->
  preparedQuery query parameters = Ok (query, parameters).
Proof. intros H. unfold preparedQuery. now rewrite H. Qed.

(** X5. A query without placeholders is sent as it is, with all the
    parameters given ([replacePositionalParameters] would send none of
    them): once the wrapper is ready, [execute] makes one query request
    with that SQL and those parameters, and returns the objects of the
    rows of the reply. *)
Theorem execute_sends_plain_query_unchanged (query : string)
  (parameters : list JsValue) (w w1 : World Env) :
  queryHasPositionalParameters query = false -> Ready respond w w1 ->
  let request :=
    PostQuery (authorization (client w1)) query (Some parameters) in
  let reply := respond request (env w1) in
  let w2 := mkWorld (client w1) (snd reply)
              (log w1 ++ [(request, logged request (fst reply))])%list in
  replacePositionalParameters query parameters = Ok (query, [])
  /\ snd (authenticated_execute respond query parameters w1) = w2
  /\ (forall res, fst reply = Ok res ->
        execute respond query parameters w = (Ok (rowObjects res), w2)).
Proof.
  intros Hplain Hready. cbv zeta.
  pose proof (ready_truthy _ respond w w1 Hready) as Htok.
  pose proof (authenticated_execute_run query parameters w1 Htok) as Hrun.
  rewrite (preparedQuery_plain query parameters Hplain) in Hrun.
  cbv zeta in Hrun. unfold queryRequest in Hrun. cbn [fst snd] in Hrun.
  split; [exact (replaceScan_none parameters query Hplain)|].
  split; [now rewrite Hrun|].
  intros res Hreply.
  unfold execute, ensureAuthenticated, maxAttempts.
  rewrite (ready_run _ respond _ 2 w w1 Hready), Hrun.
  now rewrite Hreply.
Qed.

(** X8. When the query request fails and the failure is not a 401,
    [execute] ends at once, with that one request made: it throws what
    [handleApiError] makes of the failure.  For an axios error with a
    response that is a [ChakraAPIError] with the same response, whose
    message is the error text of the response when there is one; any
    other error comes out as it is. *)
Theorem execute_failure_is_wrapped (query : string)
  (parameters : list JsValue) (qp : string * list JsValue)
  (w w1 : World Env) (err : JsError) :
  Ready respond w w1 -> preparedQuery query parameters = Ok qp ->
  let request := queryRequest (authorization (client w1)) qp in
  let reply := respond request (env w1) in
  fst reply = Throw err -> isAuthError err = false ->
  execute respond query parameters w
  = (Throw (apiError err),
     mkWorld (client w1) (snd reply)
       (log w1 ++ [(request, Throw err)])%list)
  /\ (forall resp,
         isAxiosError err = true -> response_of err = Some resp ->
         exists message,
           apiError err = ChakraAPIError message (Some resp)
           /\ (forall text, data_error resp = Some text -> text <> "" ->
                 message = text))
  /\ (isAxiosError err = false \/ response_of err = None ->
      apiError err = err).
Proof.
  intros Hready Hqp. cbv zeta. intros Hreply Hauth.
  pose proof (ready_truthy _ respond w w1 Hready) as Htok.
  pose proof (authenticated_execute_run query parameters w1 Htok) as Hrun.
  rewrite Hqp in Hrun. cbv zeta in Hrun. rewrite Hreply in Hrun.
  split; [|split].
  - unfold execute, ensureAuthenticated, maxAttempts.
    rewrite (ready_run _ respond _ 2 w w1 Hready), Hrun.
    now rewrite apiError_isAuthError, Hauth.
  - intros resp Haxios Hresp.
    destruct err as [m|m|m r|m r|m r]; try discriminate.
    simpl in Hresp. subst r. simpl. eexists. split; [reflexivity|].
    intros text Htext Hne. rewrite Htext. simpl.
    destruct (String.eqb_spec text ""); [contradiction|reflexivity].
  - intros [Haxios|Hresp].
    + destruct err as [m|m|m r|m r|m r]; try discriminate; reflexivity.
    + destruct err as [m|m|m r|m r|m r]; try reflexivity.
      simpl in Hresp. now subst r.
Qed.

(** X7. A stale token.  The client holds a token, the query is answered
    401, the login that follows is granted a token, and the query sent
    again is answered: [execute] returns the rows of that answer, having
    made three requests: the query under the old header, the login (still
    under the old header), and the same query under [Bearer <new token>];
    the client holds the new token. *)
Theorem execute_recovers_from_stale_token (query : string)
  (parameters : list JsValue) (qp : string * list JsValue)
  (w : World Env) (err : JsError) (token : string)
  (res : list string * list (list JsValue)) :
  truthy (tokenValue (client w)) = true ->
  preparedQuery query parameters = Ok qp ->
  let first := queryRequest (authorization (client w)) qp in
  let e1 := snd (respond first (env w)) in
  let relogin := loginRequest (client w) in
  let e2 := snd (respond relogin e1) in
  let second := queryRequest (Some ("Bearer " ++ token)) qp in
  fst (respond first (env w)) = Throw err -> isAuthError err = true ->
  fst (respond relogin e1) = Ok token ->
  String.prefix TOKEN_PREFIX token = true ->
  fst (respond second e2) = Ok res ->
  execute respond query parameters w
  = (Ok (rowObjects res),
     mkWorld (set_token (Some token) (client w)) (snd (respond second e2))
       (log w ++ [(first, Throw err); (relogin, Ok (DString token));
                  (second, logged second (Ok res))])%list).
Proof.
  intros Htok Hqp. cbv zeta. intros Hfirst Hauth Hlogin Hprefix Hsecond.
  pose proof (authenticated_execute_run query parameters w Htok) as Hrun.
  rewrite Hqp in Hrun. cbv zeta in Hrun. rewrite Hfirst in Hrun.
  unfold execute, ensureAuthenticated, maxAttempts.
  rewrite ensureAuthenticated_loop_S, Htok, Hrun.
  rewrite apiError_isAuthError, Hauth.
  rewrite login_run. cbv zeta. cbn [client env log].
  rewrite Hlogin, Hprefix.
  rewrite ensureAuthenticated_loop_S. cbn [client tokenValue set_token].
  pose proof (prefix_truthy token Hprefix) as Hnew.
  change (reply_type (loginRequest (client w))) with string in *.
  rewrite Hnew.
  rewrite authenticated_execute_run
    by (cbn [client tokenValue set_token]; exact Hnew).
  rewrite Hqp. cbv zeta. cbn [client env log authorization set_token].
  rewrite Hnew. cbv iota.
  change (template (Some token)) with token.
  rewrite Hsecond. rewrite <- !app_assoc. reflexivity.
Qed.

End ExecuteRuns.

(* ------------------------------------------------------------------------- *)
(** ** The wrapper and its logins ([ensureAuthenticated]) *)

Section Wrapper.

Variable Env : Type.
Variable respond : forall r : Request, Env -> Result (reply_type r) * Env.

(** The operation is only run where a token is held: two operations that
    agree there are treated alike. *)
Lemma loop_with_token {T} (operation operation' : M Env T) :
  (forall w, truthy (tokenValue (client w)) = true ->
             operation w = operation' w) ->
  forall n w,
    ensureAuthenticated_loop respond operation n w
    = ensureAuthenticated_loop respond operation' n w.
Proof.
  intros Hsame. induction n as [|n IH]; intros w; [reflexivity|].
  rewrite !ensureAuthenticated_loop_S.
  assert (Hfrom : forall w1, truthy (tokenValue (client w1)) = true ->
    match operation w1 with
    | (Ok v, w2) => (Ok v, w2)
    | (Throw err, w2) =>
        if isAuthError err then
          match login respond w2 with
          | (Ok _, w3) => ensureAuthenticated_loop respond operation n w3
          | (Throw e, w3) => (Throw e, w3)
          end
        else (Throw err, w2)
    end
    = match operation' w1 with
      | (Ok v, w2) => (Ok v, w2)
      | (Throw err, w2) =>
          if isAuthError err then
            match login respond w2 with
            | (Ok _, w3) => ensureAuthenticated_loop respond operation' n w3
            | (Throw e, w3) => (Throw e, w3)
            end
          else (Throw err, w2)
      end).
  { intros w1 H1. rewrite (Hsame w1 H1).
    destruct (operation' w1) as [[v|err] w2]; [reflexivity|].
    destruct (isAuthError err); [|reflexivity].
    destruct (login respond w2) as [[[]|e] w3]; [apply IH|reflexivity]. }
  destruct (truthy (tokenValue (client w))) eqn:Htok.
  - now apply Hfrom.
  - destruct (login respond w) as [[[]|e] w1] eqn:Hlogin; [|reflexivity].
    apply Hfrom. exact (login_ok_truthy _ _ _ _ Hlogin).
Qed.

(** X14. The wrapper runs its operation only while the client holds a
    token: two operations that do the same whenever a token is held do the
    same under the wrapper.  So the check of the token that
    [authenticated_execute] begins with never fails under [execute], which
    is the wrapper around the rest of its body. *)
Theorem wrapper_runs_with_token :
  (forall (T : Type) (operation operation' : M Env T),
      (forall w, truthy (tokenValue (client w)) = true ->
                 operation w = operation' w) ->
      forall w,
        ensureAuthenticated respond operation w
        = ensureAuthenticated respond operation' w)
  /\ (forall query parameters w,
        execute respond query parameters w
        = ensureAuthenticated respond (execute_body respond query parameters)
            w).
Proof.
  split.
  - intros T operation operation' Hsame w. now apply loop_with_token.
  - intros query parameters w. apply loop_with_token. intros w0 Htok.
    unfold authenticated_execute, execute_body, bind, get_token.
    now rewrite Htok.
Qed.

Lemma login_failed_run (w w1 : World Env) (e : JsError) :
  login respond w = (Throw e, w1) ->
  client w1 = client w
  /\ log w1 = (log w ++ [(loginRequest (client w),
                          logged (loginRequest (client w))
                            (fst (respond (loginRequest (client w))
                                    (env w))))])%list.
Proof.
  rewrite login_run.
  destruct (fst (respond (loginRequest (client w)) (env w)))
    as [token|err] eqn:Ereply.
  - destruct (String.prefix TOKEN_PREFIX token) eqn:Eprefix;
      [discriminate|].
    intros H. inversion H; subst. now split.
  - intros H. inversion H; subst. now split.
Qed.

(** X9. When a login the wrapper makes fails, the wrapper stops with the
    error of that login, whatever attempts remain.  If the client held no
    token, the operation has not been run and the login is the only
    request made; if the login followed a run answered 401, it is the last
    request and the operation is not run again.  The client is as it was
    before that login. *)
Theorem wrapper_stops_when_login_fails (T : Type) (operation : M Env T) :
  (forall w e w1,
      truthy (tokenValue (client w)) = false ->
      login respond w = (Throw e, w1) ->
      ensureAuthenticated respond operation w = (Throw e, w1)
      /\ client w1 = client w
      /\ requests (log w1)
         = (requests (log w) ++ [loginRequest (client w)])%list)
  /\ (forall w w1 err w2 e w3,
        Ready respond w w1 -> operation w1 = (Throw err, w2) ->
        isAuthError err = true -> login respond w2 = (Throw e, w3) ->
        ensureAuthenticated respond operation w = (Throw e, w3)
        /\ client w3 = client w2
        /\ requests (log w3)
           = (requests (log w2) ++ [loginRequest (client w2)])%list).
Proof.
  unfold ensureAuthenticated, maxAttempts. split.
  - intros w e w1 Htok Hlogin.
    rewrite ensureAuthenticated_loop_S, Htok, Hlogin.
    destruct (login_failed_run w w1 e Hlogin) as (Hc & Hl).
    repeat split; [exact Hc|].
    rewrite Hl. unfold requests. now rewrite map_app.
  - intros w w1 err w2 e w3 Hready Hrun Hauth Hlogin.
    rewrite (ready_run _ respond operation 2 w w1 Hready), Hrun, Hauth,
      Hlogin.
    destruct (login_failed_run w2 w3 e Hlogin) as (Hc & Hl).
    repeat split; [exact Hc|].
    rewrite Hl. unfold requests. now rewrite map_app.
Qed.

Lemma login_requests (w : World Env) :
  requests (log (snd (login respond w)))
  = (requests (log w) ++ [loginRequest (client w)])%list.
Proof.
  rewrite login_run. unfold requests.
  destruct (fst (respond (loginRequest (client w)) (env w))) as [token|err].
  - destruct (String.prefix TOKEN_PREFIX token); cbn [snd log];
      now rewrite map_app.
  - cbn [snd log]. now rewrite map_app.
Qed.

(** X10. The login request carries the parts of the session key cut at its
    colons: the first three as access key, secret key and user name,
    further parts dropped.  A key with fewer parts is not refused: the
    request is made with the missing parts undefined. *)
Theorem login_sends_the_parts_of_the_session_key (w : World Env)
  (a b c : string) :
  occurs ":" a = false -> occurs ":" b = false -> occurs ":" c = false ->
  let sent x y z :=
    requests (log (snd (login respond w)))
    = (requests (log w)
       ++ [PostServers (authorization (client w)) x y z])%list in
  (dbSessionKey (client w) = a ++ ":" ++ b ++ ":" ++ c ->
   sent (Some a) (Some b) (Some c))
  /\ (forall rest,
        dbSessionKey (client w) = a ++ ":" ++ b ++ ":" ++ c ++ ":" ++ rest ->
        sent (Some a) (Some b) (Some c))
  /\ (dbSessionKey (client w) = a ++ ":" ++ b -> sent (Some a) (Some b) None)
  /\ (dbSessionKey (client w) = a -> sent (Some a) None None).
Proof.
  intros Ha Hb Hc. cbv zeta. rewrite login_requests. unfold loginRequest.
  split; [|split; [|split]].
  - intros ->.
    change (a ++ ":" ++ b ++ ":" ++ c)
      with (a ++ String ":" (b ++ String ":" c)).
    now rewrite !split_app, split_none.
  - intros rest ->.
    change (a ++ ":" ++ b ++ ":" ++ c ++ ":" ++ rest)
      with (a ++ String ":" (b ++ String ":" (c ++ String ":" rest))).
    now rewrite !split_app.
  - intros ->.
    change (a ++ ":" ++ b) with (a ++ String ":" b).
    now rewrite split_app, split_none.
  - intros ->. now rewrite split_none.
Qed.

Lemma sameSession_refl (c : Client) : SameSession c c.
Proof. now left. Qed.

Lemma sameSession_trans (c1 c2 c3 : Client) :
  SameSession c1 c2 -> SameSession c2 c3 -> SameSession c1 c3.
Proof.
  intros [->|(t & Ht & ->)] [->|(t' & Ht' & ->)].
  - now left.
  - right. now exists t'.
  - right. now exists t.
  - right. exists t'. split; [exact Ht'|reflexivity].
Qed.

Lemma sameSession_login (w : World Env) :
  SameSession (client w) (client (snd (login respond w))).
Proof.
  rewrite login_run.
  destruct (fst (respond (loginRequest (client w)) (env w))) as [token|err];
    [|now left].
  destruct (String.prefix TOKEN_PREFIX token) eqn:E; [|now left].
  right. now exists token.
Qed.

Lemma sameSession_loop {T} (operation : M Env T) :
  (forall w, client (snd (operation w)) = client w) ->
  forall n w,
    SameSession (client w)
      (client (snd (ensureAuthenticated_loop respond operation n w))).
Proof.
  intros Hop. induction n as [|n IH]; intros w; [now left|].
  rewrite ensureAuthenticated_loop_S.
  assert (Hfrom : forall w1, SameSession (client w) (client w1) ->
    SameSession (client w)
      (client (snd (match operation w1 with
                    | (Ok v, w2) => (Ok v, w2)
                    | (Throw err, w2) =>
                        if isAuthError err then
                          match login respond w2 with
                          | (Ok _, w3) =>
                              ensureAuthenticated_loop respond operation n w3
                          | (Throw e, w3) => (Throw e, w3)
                          end
                        else (Throw err, w2)
                    end)))).
  { intros w1 H1. pose proof (Hop w1) as Hrun.
    destruct (operation w1) as [[v|err] w2]; cbn [snd] in *;
      [now rewrite Hrun|].
    destruct (isAuthError err); cbn [snd]; [|now rewrite Hrun].
    pose proof (sameSession_login w2) as Hl. rewrite Hrun in Hl.
    destruct (login respond w2) as [[[]|e] w3]; cbn [snd] in *.
    - eapply sameSession_trans; [exact H1|].
      eapply sameSession_trans; [exact Hl|apply IH].
    - eapply sameSession_trans; [exact H1|exact Hl]. }
  destruct (truthy (tokenValue (client w))).
  - apply Hfrom, sameSession_refl.
  - pose proof (sameSession_login w) as Hl.
    destruct (login respond w) as [[[]|e] w1]; cbn [snd] in *;
      [now apply Hfrom|exact Hl].
Qed.

Lemma client_call (r : Request) (w : World Env) :
  client (snd (call respond r w)) = client w.
Proof. now rewrite call_run. Qed.

Lemma client_authenticated_push (tableName : string) (data : list JsRecord)
  (options : PushOptions) (w : World Env) :
  client (snd (authenticated_push respond tableName data options w))
  = client w.
Proof.
  destruct (authenticated_push respond tableName data options w)
    as [r w'] eqn:E.
  refine (preserves_authenticated_push Env respond
            (fun w0 => client w0 = client w) (fun _ => true) _
            tableName data options eq_refl eq_refl eq_refl eq_refl
            (or_intror (fun _ _ => eq_refl)) w r w' eq_refl E).
  intros r0 w0 _ H. now rewrite client_call.
Qed.

Lemma client_authenticated_execute (query : string) (ps : list JsValue)
  (w : World Env) :
  client (snd (authenticated_execute respond query ps w)) = client w.
Proof.
  destruct (authenticated_execute respond query ps w) as [r w'] eqn:E.
  refine (preserves_authenticated_execute Env respond
            (fun w0 => client w0 = client w) (fun _ => true) _
            query ps eq_refl w r w' eq_refl E).
  intros r0 w0 _ H. now rewrite client_call.
Qed.

Lemma sameSession_facts (c c' : Client) :
  SameSession c c' ->
  dbSessionKey c' = dbSessionKey c
  /\ quiet c' = quiet c
  /\ (truthy (tokenValue c) = true -> truthy (tokenValue c') = true)
  /\ (tokenValue c' <> tokenValue c ->
      exists token, String.prefix TOKEN_PREFIX token = true
                    /\ tokenValue c' = Some token
                    /\ authorization c' = Some ("Bearer " ++ token)).
Proof.
  intros [->|(token & Hp & ->)].
  - repeat split; [tauto|congruence].
  - pose proof (prefix_truthy token Hp) as Ht.
    repeat split.
    + intros _. exact Ht.
    + intros _. exists token. repeat split; [exact Hp|].
      cbn [authorization set_token]. now rewrite Ht.
Qed.

(** X11. [login], [push] and [execute] keep the session: the session key
    and the [quiet] flag are never changed, a token that is held is never
    dropped, and when the token is another one afterwards it is one the
    service granted (it starts with [DDB_]), sent from then on as
    [Bearer <token>].  The operations the wrapper runs,
    [authenticated_push] and [authenticated_execute], do not touch the
    client at all. *)
Theorem session_is_kept (w : World Env) :
  let kept (w' : World Env) :=
    dbSessionKey (client w') = dbSessionKey (client w)
    /\ quiet (client w') = quiet (client w)
    /\ (truthy (tokenValue (client w)) = true ->
        truthy (tokenValue (client w')) = true)
    /\ (tokenValue (client w') <> tokenValue (client w) ->
        exists token, String.prefix TOKEN_PREFIX token = true
                      /\ tokenValue (client w') = Some token
                      /\ authorization (client w')
                         = Some ("Bearer " ++ token)) in
  kept (snd (login respond w))
  /\ (forall tableName data options,
        kept (snd (push respond tableName data options w)))
  /\ (forall query parameters,
        kept (snd (execute respond query parameters w)))
  /\ (forall tableName data options,
        client (snd (authenticated_push respond tableName data options w))
        = client w)
  /\ (forall query parameters,
        client (snd (authenticated_execute respond query parameters w))
        = client w).
Proof.
  cbv zeta. split; [|split; [|split; [|split]]].
  - apply sameSession_facts, sameSession_login.
  - intros tableName data options. apply sameSession_facts.
    apply sameSession_loop. intros w0. apply client_authenticated_push.
  - intros query parameters. apply sameSession_facts.
    apply sameSession_loop. intros w0. apply client_authenticated_execute.
  - intros. apply client_authenticated_push.
  - intros. apply client_authenticated_execute.
Qed.

End Wrapper.

(* ------------------------------------------------------------------------- *)
(** ** The database and the schema ([createDatabaseAndSchema]) *)

Section Databases.

Variable Env : Type.
Variable respond : forall r : Request, Env -> Result (reply_type r) * Env.

Lemma createDatabaseAndSchema_run (fullName : string) (w : World Env) :
  let auth := authorization (client w) in
  let database := PostDatabases auth (nth_error (split "." fullName) 0) in
  let schema := PostQuery auth (schemaSql fullName) None in
  let reply := respond database (env w) in
  let reply' := respond schema (snd reply) in
  let failed err :=
    (Throw (apiError err),
     mkWorld (client w) (snd reply) (log w ++ [(database, Throw err)])%list) in
  let continued :=
    (match fst reply' with
     | Ok _ => Ok tt
     | Throw e => Throw e
     end,
     mkWorld (client w) (snd reply')
       (log w ++ [(database, logged database (fst reply));
                  (schema, logged schema (fst reply'))])%list) in
  createDatabaseAndSchema respond fullName w
  = match fst reply with
    | Ok _ => continued
    | Throw err => if status_is 409 err then continued else failed err
    end.
Proof.
  cbv zeta. unfold createDatabaseAndSchema, schemaSql.
  unfold bind at 1. unfold header at 1. cbv beta iota.
  unfold bind at 1. unfold tryCatch. rewrite call_run.
  destruct (fst (respond (PostDatabases (authorization (client w))
                            (nth_error (split "." fullName) 0)) (env w)))
    as [[]|err] eqn:Ereply.
  - unfold bind. rewrite call_run. cbn [client env log].
    rewrite <- app_assoc. cbn [app].
    match goal with
    | |- context [fst (respond ?r ?e)] => destruct (fst (respond r e))
    end; reflexivity.
  - destruct (status_is 409 err).
    + unfold ret, bind. rewrite call_run. cbn [client env log].
      rewrite <- app_assoc. cbn [app].
      match goal with
      | |- context [fst (respond (PostQuery ?a ?q ?p) ?e)] =>
          destruct (fst (respond (PostQuery a q p) e))
      end; reflexivity.
    + reflexivity.
Qed.

(** X2. When the request that creates the database fails with status 409,
    [createDatabaseAndSchema] goes on as if it had succeeded: the schema
    statement is sent next, and the outcome is that of the schema
    statement (whose error, if any, is passed on as it is).  Any other
    failure of the database request is thrown through [handleApiError],
    and the schema statement is not sent. *)
Theorem existing_database_is_not_an_error (fullName : string)
  (w : World Env) (err : JsError) :
  let auth := authorization (client w) in
  let database := PostDatabases auth (nth_error (split "." fullName) 0) in
  let schema := PostQuery auth (schemaSql fullName) None in
  let reply := respond database (env w) in
  let reply' := respond schema (snd reply) in
  fst reply = Throw err ->
  (status_is 409 err = true ->
   createDatabaseAndSchema respond fullName w
   = (match fst reply' with
      | Ok _ => Ok tt
      | Throw e => Throw e
      end,
      mkWorld (client w) (snd reply')
        (log w ++ [(database, Throw err);
                   (schema, logged schema (fst reply'))])%list))
  /\ (status_is 409 err = false ->
      createDatabaseAndSchema respond fullName w
      = (Throw (apiError err),
         mkWorld (client w) (snd reply)
           (log w ++ [(database, Throw err)])%list)).
Proof.
  cbv zeta. intros Hreply. rewrite createDatabaseAndSchema_run. cbv zeta.
  rewrite Hreply. split; intros H409; now rewrite H409.
Qed.

End Databases.

(* ------------------------------------------------------------------------- *)
(** ** What a push uploads and imports *)

Lemma staged_cases (auth : option string) (fullName tempFile : string)
  (data : list JsRecord) (dedupe : bool) (keys : list string)
  (staged : Result unit) (l : list Event) :
  Staged auth fullName tempFile data dedupe keys staged l ->
  Forall (fun ev : Event => preparationKind (kind (fst ev)) = true) l
  \/ exists sample uuid url key size l' res,
      let put := PutPresigned url tempFile size in
      let import := importRequest auth fullName key dedupe keys in
      let delete := DeleteFiles auth key in
      nth_error data 0 = Some sample
      /\ l = (preparationEvents auth fullName tempFile sample data uuid url
                key size ++ l')%list
      /\ (l' = [(put, res)]
          \/ l' = [(put, Ok DUnit); (import, res)]
          \/ l' = [(put, Ok DUnit); (import, Ok DUnit); (delete, res)]).
Proof.
  unfold Staged. destruct data as [|sample more].
  - intros [_ ->]. left. constructor.
  - intros (uuid & url & key & size & H). cbv zeta in H.
    rewrite stagingEvents_split in H.
    pose proof (preparationEvents_kinds auth fullName tempFile sample
                  (sample :: more) uuid url key size) as Hprep.
    destruct staged as [[]|e].
    + right. exists sample, uuid, url, key, size. eexists _, (Ok DUnit).
      cbv zeta. split; [reflexivity|]. split; [exact H|]. now right; right.
    + apply FailedAt_split in H. destruct H as [H|(l' & -> & H)].
      * left.
        exact (FailedAt_kinds
                 (fun r => preparationKind (kind r) = true) _ _ _ Hprep H).
      * right. exists sample, uuid, url, key, size, l', (Throw e).
        cbv zeta. split; [reflexivity|]. split; [reflexivity|].
        apply FailedAt_three in H. exact H.
Qed.

Lemma in_preparationEvents (auth : option string)
  (fullName tempFile : string) (sample : JsRecord) (data : list JsRecord)
  (uuid url key : string) (size : N) :
  let prep := preparationEvents auth fullName tempFile sample data uuid url
                key size in
  In (ParquetOpenFile (schemaFields sample) tempFile, Ok DUnit) prep
  /\ (forall row, In row data -> In (ParquetAppendRow row, Ok DUnit) prep)
  /\ In (ParquetClose, Ok DUnit) prep
  /\ In (UuidV4, Ok (DString uuid)) prep
  /\ In (GetPresignedUpload auth (fullName ++ "_" ++ uuid ++ ".parquet"),
         Ok (DPair url key)) prep
  /\ In (FsStat tempFile, Ok (DSize size)) prep.
Proof.
  cbv zeta. unfold preparationEvents.
  repeat split; try (intros row Hrow); simpl; rewrite ?in_app_iff; simpl;
    auto 10.
  right. left. apply in_map_iff. now exists row.
Qed.

Section Uploads.

Variable Env : Type.
Variable respond : forall r : Request, Env -> Result (reply_type r) * Env.

(** X13. What a push uploads is the file it wrote.  Whenever a run of
    [authenticated_push] makes the upload request, the path it uploads is
    that of the temporary file created in this run, the Parquet writer was
    opened on that path, every record was appended and the writer closed,
    all without failure, the size sent is the one the file system gave for
    that path, and the URL is the one the service gave.  Whenever it makes
    an import request, the key imported is the one the service gave with
    the URL, and the upload to that URL had succeeded.  And a cleanup is
    only ever made for a temporary file created in this run. *)
Theorem push_uploads_the_written_file (tableName : string)
  (data : list JsRecord) (options : PushOptions) (w : World Env) :
  let after := authenticated_push respond tableName data options w in
  let auth := authorization (client w) in
  exists l,
    log (snd after) = (log w ++ l)%list
    /\ (forall url p size res,
          In (PutPresigned url p size, res) l ->
          In (TmpFile ".parquet", Ok (DString p)) l
          /\ (exists fields, In (ParquetOpenFile fields p, Ok DUnit) l)
          /\ (forall row, In row data ->
                In (ParquetAppendRow row, Ok DUnit) l)
          /\ In (ParquetClose, Ok DUnit) l
          /\ In (FsStat p, Ok (DSize size)) l
          /\ exists name key,
              In (GetPresignedUpload auth name, Ok (DPair url key)) l)
    /\ (forall imp key res,
          importKey imp = Some key -> In (imp, res) l ->
          exists name url p size,
            In (GetPresignedUpload auth name, Ok (DPair url key)) l
            /\ In (PutPresigned url p size, Ok DUnit) l)
    /\ (forall p res,
          In (TmpCleanup p, res) l ->
          In (TmpFile ".parquet", Ok (DString p)) l).
Proof.
  cbv zeta.
  destruct (authenticated_push_pushed Env respond tableName data options w)
    as [[Hrun _]|(fullName & l & _ & Hl & Hpushed)].
  - exists []. rewrite Hrun. cbn [snd]. rewrite app_nil_r.
    repeat split; contradiction.
  - exists l. split; [exact Hl|].
    destruct Hpushed as (l1 & Hk1 & Hcases).
    destruct Hcases
      as [((e & _) & -> & _)
         |[(err & _ & _ & ->)
          |(tempFile & l2 & cleaned & staged & _ & -> & Hstaged & _)]].
    + repeat split; intros; try (destruct imp; try discriminate);
        match goal with H : In (_, _) _ |- _ => solve [in_cases H] end.
    + repeat split; intros; try (destruct imp; try discriminate);
        match goal with H : In (_, _) _ |- _ => solve [in_cases H] end.
    + apply staged_cases in Hstaged.
      destruct Hstaged
        as [Hprep|(sample & uuid & url & key & size & l' & res' & Hshape)].
      * repeat split; intros; try (destruct imp; try discriminate);
          match goal with H : In (_, _) _ |- _ => in_cases H end; in_log.
      * cbv zeta in Hshape. destruct Hshape as (Hsample & -> & Hl').
        pose proof (preparationEvents_kinds (authorization (client w))
                      fullName tempFile sample data uuid url key size)
          as Hprep.
        destruct (in_preparationEvents (authorization (client w)) fullName
                    tempFile sample data uuid url key size)
          as (Hopen & Hrows & Hclose & Huuid & Hurl & Hstat).
        remember (preparationEvents (authorization (client w)) fullName
                    tempFile sample data uuid url key size) as prep eqn:Eprep.
        clear Eprep.
        unfold importRequest in Hl'.
        destruct (orDefault (dedupeOnAppend options) false);
          destruct Hl' as [->|[->| ->]];
          (repeat split; intros; try (destruct imp; try discriminate);
           match goal with H : In (_, _) _ |- _ => in_cases H end;
           try match goal with
             | H : importKey _ = Some _ |- _ =>
                 simpl in H; inversion H; subst; clear H
             end;
           repeat eexists;
           repeat first [rewrite in_app_iff | progress simpl In];
           eauto 12).
Qed.

End Uploads.

(* ------------------------------------------------------------------------- *)
(** ** The progress stream *)

Lemma transformed (chunks : list Buffer) :
  forall s,
    let s' := fold_left (fun s chunk => _transform chunk s) chunks s in
    total s' = total s
    /\ transferred s' = (transferred s + bytes chunks)%N
    /\ bar s'
       = (bar s ++ map BarUpdate (runningTotals (transferred s) chunks))%list
    /\ pushed s' = (pushed s ++ chunks)%list.
Proof.
  unfold bytes. induction chunks as [|chunk rest IH]; intros s; cbv zeta.
  - simpl. rewrite N.add_0_r, !app_nil_r. repeat split.
  - cbn [fold_left]. destruct (IH (_transform chunk s)) as (Ht & Hn & Hb & Hp).
    rewrite Ht, Hn, Hb, Hp. cbn [_transform total transferred bar pushed].
    cbn [concat runningTotals map]. rewrite length_app, <- !app_assoc.
    repeat split. lia.
Qed.

Lemma runningTotals_bounds (chunks : list Buffer) :
  forall start value,
    In value (runningTotals start chunks) ->
    (start <= value <= start + bytes chunks)%N.
Proof.
  unfold bytes. induction chunks as [|chunk rest IH]; intros start value;
    simpl; [tauto|].
  rewrite length_app. intros [<-|H]; [lia|].
  apply IH in H. lia.
Qed.

Lemma runningTotals_last (chunks : list Buffer) :
  forall start,
    chunks <> [] ->
    exists before,
      runningTotals start chunks = (before ++ [(start + bytes chunks)%N])%list.
Proof.
  unfold bytes. induction chunks as [|chunk rest IH]; intros start Hne;
    [contradiction|].
  destruct rest as [|next rest'].
  - exists []. simpl. now rewrite app_nil_r.
  - destruct (IH (start + N.of_nat (length chunk))%N) as [before Hb];
      [discriminate|].
    exists ((start + N.of_nat (length chunk))%N :: before).
    cbn [runningTotals]. cbn [runningTotals] in Hb. rewrite Hb.
    cbn [concat]. rewrite !length_app. cbn [app]. do 3 f_equal. lia.
Qed.

Lemma runningTotals_sorted (chunks : list Buffer) :
  forall start i j a b,
    i <= j -> nth_error (runningTotals start chunks) i = Some a ->
    nth_error (runningTotals start chunks) j = Some b -> (a <= b)%N.
Proof.
  induction chunks as [|chunk rest IH]; intros start i j a b Hij Ha Hb.
  - now destruct i.
  - cbn [runningTotals] in Ha, Hb. destruct i as [|i], j as [|j]; simpl in *.
    + inversion Ha; inversion Hb; subst. lia.
    + inversion Ha; subst. apply nth_error_In in Hb.
      apply runningTotals_bounds in Hb. lia.
    + lia.
    + eapply IH; [|exact Ha|exact Hb]. lia.
Qed.

Lemma length_runningTotals (chunks : list Buffer) :
  forall start, length (runningTotals start chunks) = length chunks.
Proof.
  induction chunks as [|chunk rest IH]; intros start; simpl;
    [reflexivity|now rewrite IH].
Qed.

(** X12. A [ProgressStream] on a new bar, fed the chunks of a file and then
    its end, hands the chunks on unchanged and in order.  Its bar is
    started with the announced size, updated once for each chunk with the
    bytes passed so far, and stopped.  The updates never decrease and never
    exceed the bytes of the file; the last one is the number of bytes of
    the file, so the bar ends full exactly when the announced size is
    right. *)
Theorem progress_stream_reports_the_bytes (size : N) (chunks : list Buffer) :
  let s := piped chunks (new_ProgressStream size []) in
  let updates := runningTotals 0 chunks in
  pushed s = chunks
  /\ transferred s = bytes chunks
  /\ bar s = (BarStart size 0 :: map BarUpdate updates ++ [BarStop])%list
  /\ length updates = length chunks
  /\ (forall value, In value updates -> (value <= bytes chunks)%N)
  /\ (forall i j a b, i <= j -> nth_error updates i = Some a ->
        nth_error updates j = Some b -> (a <= b)%N)
  /\ (chunks <> [] ->
      exists before, updates = (before ++ [bytes chunks])%list).
Proof.
  cbv zeta. unfold piped.
  destruct (transformed chunks (new_ProgressStream size []))
    as (Ht & Hn & Hb & Hp).
  cbn [_flush total transferred bar pushed]. rewrite Hn, Hb, Hp.
  cbn [new_ProgressStream total transferred bar pushed app].
  rewrite N.add_0_l. repeat split.
  - apply length_runningTotals.
  - intros value H. apply runningTotals_bounds in H. lia.
  - apply runningTotals_sorted.
  - intros Hne. destruct (runningTotals_last chunks 0%N Hne) as [before H].
    exists before. now rewrite H, N.add_0_l.
Qed.

(* ------------------------------------------------------------------------- *)
(** ** What the public methods throw, and when they return *)

Lemma surfaced_apiError (err : JsError) : Surfaced (apiError err).
Proof. destruct err as [m|m|m [r|]|m r|m r]; reflexivity. Qed.

Lemma surfaced_response (e : JsError) (resp : HttpResponse) :
  Surfaced e -> response_of e = Some resp ->
  instanceof_ChakraAPIError e = true /\ isAxiosError e = false.
Proof.
  unfold Surfaced. destruct e as [m|m|m [r|]|m r|m r]; simpl;
    intros H Hr; try discriminate; now split.
Qed.

Section Surfacing.

Variable Env : Type.
Variable respond : forall r : Request, Env -> Result (reply_type r) * Env.

Lemma surfaced_handled {A} (m : M Env A) :
  ThrowsSurfaced (tryCatch m (fun err => handleApiError err)).
Proof.
  intros w e w' H. unfold tryCatch, handleApiError, throw in H.
  destruct (m w) as [[a|err] w1]; [discriminate|].
  inversion H; subst. apply surfaced_apiError.
Qed.

Lemma surfaced_login : ThrowsSurfaced (login respond).
Proof.
  intros w e w'. rewrite login_run.
  destruct (fst (respond (loginRequest (client w)) (env w))) as [token|err].
  - destruct (String.prefix TOKEN_PREFIX token); [discriminate|].
    intros H. inversion H; subst. reflexivity.
  - intros H. inversion H; subst. apply surfaced_apiError.
Qed.

Lemma surfaced_loop {T} (operation : M Env T) :
  ThrowsSurfaced operation ->
  forall n, ThrowsSurfaced (ensureAuthenticated_loop respond operation n).
Proof.
  intros Hop. induction n as [|n IH]; intros w e w'.
  - simpl. unfold throw. intros H. inversion H; subst. reflexivity.
  - rewrite ensureAuthenticated_loop_S.
    assert (Hfrom : forall w1,
      match operation w1 with
      | (Ok v, w2) => (Ok v, w2)
      | (Throw err, w2) =>
          if isAuthError err then
            match login respond w2 with
            | (Ok _, w3) => ensureAuthenticated_loop respond operation n w3
            | (Throw e, w3) => (Throw e, w3)
            end
          else (Throw err, w2)
      end = (Throw e, w') -> Surfaced e).
    { intros w1. destruct (operation w1) as [[v|err] w2] eqn:Hrun;
        [discriminate|].
      destruct (isAuthError err).
      - destruct (login respond w2) as [[[]|e'] w3] eqn:Hlogin.
        + apply IH.
        + intros H. inversion H; subst. exact (surfaced_login _ _ _ Hlogin).
      - intros H. inversion H; subst. exact (Hop _ _ _ Hrun). }
    destruct (truthy (tokenValue (client w))); [apply Hfrom|].
    destruct (login respond w) as [[[]|e'] w1] eqn:Hlogin; [apply Hfrom|].
    intros H. inversion H; subst. exact (surfaced_login _ _ _ Hlogin).
Qed.

Lemma resolveTableName_error (tableName : string) (e : JsError) :
  resolveTableName tableName = Throw e -> e = Error tableNameMessage.
Proof.
  unfold resolveTableName.
  destruct (negb _ && negb _); [congruence|].
  destruct (_ =? _)%nat; discriminate.
Qed.

Lemma surfaced_authenticated_push (tableName : string)
  (data : list JsRecord) (options : PushOptions) :
  ThrowsSurfaced (authenticated_push respond tableName data options).
Proof.
  intros w e w'. unfold authenticated_push.
  destruct (resolveTableName tableName) as [fullName|e0] eqn:Hname.
  - unfold bind at 1. unfold get_token.
    destruct (negb (truthy (tokenValue (client w)))).
    + intros H. inversion H; subst. reflexivity.
    + apply surfaced_handled.
  - intros H. inversion H; subst.
    now rewrite (resolveTableName_error _ _ Hname).
Qed.

Lemma surfaced_authenticated_execute (query : string) (ps : list JsValue) :
  ThrowsSurfaced (authenticated_execute respond query ps).
Proof.
  intros w e w'. unfold authenticated_execute.
  unfold bind at 1. unfold get_token.
  destruct (negb (truthy (tokenValue (client w)))).
  - intros H. inversion H; subst. reflexivity.
  - apply surfaced_handled.
Qed.

(** X15. No public method throws an axios error that carries a response:
    whatever [login], [push] or [execute] throws is an error that
    [handleApiError] would leave as it is, and when it carries a response
    it is a [ChakraAPIError]. *)
Theorem http_failures_surface_as_ChakraAPIError (w : World Env) :
  let surfaced {A} (r : Result A) :=
    forall e, r = Throw e ->
      apiError e = e
      /\ forall resp, response_of e = Some resp ->
           instanceof_ChakraAPIError e = true /\ isAxiosError e = false in
  surfaced (fst (login respond w))
  /\ (forall tableName data options,
        surfaced (fst (push respond tableName data options w)))
  /\ (forall query parameters,
        surfaced (fst (execute respond query parameters w))).
Proof.
  cbv zeta.
  assert (Hall : forall A (m : M Env A), ThrowsSurfaced m ->
            forall e, fst (m w) = Throw e ->
              apiError e = e
              /\ forall resp, response_of e = Some resp ->
                   instanceof_ChakraAPIError e = true
                   /\ isAxiosError e = false).
  { intros A m Hm e He. destruct (m w) as [r w'] eqn:Hrun. simpl in He.
    subst r. pose proof (Hm _ _ _ Hrun) as Hs.
    split; [exact Hs|]. intros resp. now apply surfaced_response. }
  split; [|split].
  - apply Hall, surfaced_login.
  - intros tableName data options. apply Hall, surfaced_loop.
    apply surfaced_authenticated_push.
  - intros query parameters. apply Hall, surfaced_loop.
    apply surfaced_authenticated_execute.
Qed.

End Surfacing.

Section Answered.

Variable Env : Type.
Variable respond : forall r : Request, Env -> Result (reply_type r) * Env.

Hypothesis answering : Answering respond.

(** X16. A push whose every call is answered returns.  With an accepted
    table name and at least one record, once the wrapper is ready the one
    run of [authenticated_push] returns, and so does [push], without
    another attempt. *)
Theorem push_returns_when_every_call_is_answered (tableName fullName : string)
  (data : list JsRecord) (options : PushOptions) (w w1 : World Env) :
  resolveTableName tableName = Ok fullName -> data <> [] ->
  Ready respond w w1 ->
  exists w2,
    authenticated_push respond tableName data options w1 = (Ok tt, w2)
    /\ push respond tableName data options w = (Ok tt, w2).
Proof.
  intros Hname Hdata Hready.
  destruct data as [|sample more]; [contradiction|].
  pose proof (ready_truthy _ respond w w1 Hready) as Htok.
  destruct (returns_authenticated_push Env respond answering tableName
              fullName sample more options Hname w1 Htok)
    as ([] & w2 & Hrun & _).
  exists w2. split; [exact Hrun|].
  unfold push, ensureAuthenticated, maxAttempts.
  now rewrite (ready_run _ respond _ 2 w w1 Hready), Hrun.
Qed.

End Answered.

(* ------------------------------------------------------------------------- *)
(** ** Further theorems on concrete runs *)

Lemma existing_database_witness :
  createDatabaseAndSchema (scripted databaseExists) "duckdb.main.students"
    loggedInWorld
  = (Ok tt,
     mkWorld (client loggedInWorld) 2
       [(PostDatabases (Some "Bearer DDB_token") (Some "duckdb"),
         Throw (httpFailure 409));
        (PostQuery (Some "Bearer DDB_token")
           "CREATE SCHEMA IF NOT EXISTS duckdb.main" None,
         Ok (DRows [] []))]).
Proof.
  apply (existing_database_is_not_an_error nat (scripted databaseExists)
           "duckdb.main.students" loggedInWorld (httpFailure 409));
    reflexivity.
Defined.

Lemma accepted_table_name_witness :
  exists database schema table,
    split "." "duckdb.main.students" = [database; schema; table]
    /\ occurs "." database = false /\ occurs "." schema = false
    /\ occurs "." table = false
    /\ "duckdb.main.students" = database ++ "." ++ schema ++ "." ++ table
    /\ resolveTableName "duckdb.main.students" = Ok "duckdb.main.students"
    /\ schemaSql "duckdb.main.students"
       = "CREATE SCHEMA IF NOT EXISTS " ++ database ++ "." ++ schema
    /\ (length (split "." "students") = 1%nat ->
        database = "duckdb" /\ schema = "main" /\ table = "students").
Proof.
  apply (accepted_table_name_has_three_parts "students"
           "duckdb.main.students").
  reflexivity.
Defined.

Lemma row_object_witness :
  let obj :=
    zipRow ["id"; "name"; "id"; "__proto__"] [JsNull; JsString "Alice"] 0
      [] in
  ownProperty (properties obj) "name" = Some (JsString "Alice")
  /\ ownProperty (properties obj) "id" = Some JsUndefined
  /\ ownProperty (properties obj) "age" = None
  /\ prototype obj = ObjectPrototype
  /\ ownProperty (properties obj) "__proto__" = None.
Proof.
  cbv zeta.
  destruct (row_object_properties ["id"; "name"; "id"; "__proto__"]
              [JsNull; JsString "Alice"])
    as (_ & _ & _ & Hnone & Hlast & Hproto).
  split; [|split; [|split]].
  - apply (Hlast "name" 1%nat); [discriminate|reflexivity|].
    intros [|[|[|[|[|j]]]]] Hj; try lia; discriminate.
  - apply (Hlast "id" 2%nat); [discriminate|reflexivity| |simpl; lia].
    intros [|[|[|[|[|j]]]]] Hj; try lia; discriminate.
  - apply Hnone. simpl. intros [H|[H|[H|[H|[]]]]]; discriminate.
  - apply Hproto. intros [|[|[|[|[|i]]]]] Hi; try discriminate; reflexivity.
Defined.

Lemma execute_plain_query_witness :
  execute (scripted healthy) "SELECT * FROM t WHERE a = ?" [JsString "x"]
    loggedInWorld
  = (Ok [],
     mkWorld (client loggedInWorld) 1
       [(PostQuery (Some "Bearer DDB_token") "SELECT * FROM t WHERE a = ?"
           (Some [JsString "x"]),
         Ok (DRows [] []))])
  /\ replacePositionalParameters "SELECT * FROM t WHERE a = ?"
       [JsString "x"]
     = Ok ("SELECT * FROM t WHERE a = ?", []).
Proof.
  destruct (execute_sends_plain_query_unchanged nat (scripted healthy)
              "SELECT * FROM t WHERE a = ?" [JsString "x"] loggedInWorld
              loggedInWorld)
    as (Hnone & _ & Hrun).
  - reflexivity.
  - left. split; reflexivity.
  - split; [|exact Hnone]. apply (Hrun ([], [])). reflexivity.
Defined.

Lemma replaced_query_witness :
  queryHasPositionalParameters "a = ? AND b = ?" = false
  /\ Forall (fun value => In value [JsString "x"; JsBoolean true])
       [JsBoolean true; JsString "x"].
Proof.
  destruct (replaced_query_properties "a = $2 AND b = $1"
              [JsString "x"; JsBoolean true] "a = ? AND b = ?"
              [JsBoolean true; JsString "x"] eq_refl)
    as (Hplain & _ & _ & Hsent & _).
  split; [exact Hplain|exact Hsent].
Defined.

Lemma execute_stale_token_witness :
  let after :=
    execute (scripted staleToken) "SELECT $1" [JsString "x"] loggedInWorld in
  fst after = Ok []
  /\ tokenValue (client (snd after)) = Some "DDB_renewed"
  /\ requests (log (snd after))
     = [ PostQuery (Some "Bearer DDB_token") "SELECT ?"
           (Some [JsString "x"]);
         PostServers (Some "Bearer DDB_token") (Some "ak") (Some "sk")
           (Some "user");
         PostQuery (Some "Bearer DDB_renewed") "SELECT ?"
           (Some [JsString "x"]) ].
Proof.
  cbv zeta.
  rewrite (execute_recovers_from_stale_token nat (scripted staleToken)
             "SELECT $1" [JsString "x"] ("SELECT ?", [JsString "x"])
             loggedInWorld (httpFailure 401) "DDB_renewed" ([], []));
    try reflexivity.
  repeat split.
Defined.

Lemma execute_failure_witness :
  fst (execute (scripted queryRejected) "SELECT * FROM missing" []
         loggedInWorld)
  = Throw (ChakraAPIError "Table not found"
             (Some (mkResponse 400 (Some "Table not found"))))
  /\ requests (log (snd (execute (scripted queryRejected)
                           "SELECT * FROM missing" [] loggedInWorld)))
     = [PostQuery (Some "Bearer DDB_token") "SELECT * FROM missing"
          (Some [])].
Proof.
  destruct (execute_failure_is_wrapped nat (scripted queryRejected)
              "SELECT * FROM missing" [] ("SELECT * FROM missing", [])
              loggedInWorld loggedInWorld tableMissing)
    as (Hrun & _ & _).
  - left. split; reflexivity.
  - reflexivity.
  - reflexivity.
  - reflexivity.
  - rewrite Hrun. split; reflexivity.
Defined.

Lemma wrapper_login_failure_witness :
  let after :=
    execute (scripted loginRefused) "SELECT 1" [] freshWorld in
  fst after = Throw (ChakraAPIError "Request failed"
                       (Some (mkResponse 403 None)))
  /\ requests (log (snd after))
     = [PostServers None (Some "ak") (Some "sk") (Some "user")]
  /\ tokenValue (client (snd after)) = None.
Proof.
  cbv zeta.
  destruct (wrapper_stops_when_login_fails nat (scripted loginRefused) _
              (authenticated_execute (scripted loginRefused) "SELECT 1" []))
    as [Hfirst _].
  destruct (Hfirst freshWorld
              (ChakraAPIError "Request failed" (Some (mkResponse 403 None)))
              (snd (login (scripted loginRefused) freshWorld)))
    as (Hrun & _ & _).
  - reflexivity.
  - reflexivity.
  - unfold execute. rewrite Hrun. repeat split.
Defined.

Lemma session_key_parts_witness :
  requests (log (snd (login (scripted healthy) freshWorld)))
  = [PostServers None (Some "ak") (Some "sk") (Some "user")].
Proof.
  apply (login_sends_the_parts_of_the_session_key nat (scripted healthy)
           freshWorld "ak" "sk" "user");
    reflexivity.
Defined.

Lemma session_is_kept_witness :
  let after :=
    push (scripted staleToken) "students" [alice] defaultOptions
      loggedInWorld in
  dbSessionKey (client (snd after)) = "ak:sk:user"
  /\ truthy (tokenValue (client (snd after))) = true.
Proof.
  cbv zeta.
  destruct (session_is_kept nat (scripted staleToken) loggedInWorld)
    as (_ & Hpush & _).
  destruct (Hpush "students" [alice] defaultOptions)
    as (Hkey & _ & Htoken & _).
  split; [exact Hkey|]. apply Htoken. reflexivity.
Defined.

Lemma progress_stream_witness :
  bar (piped sampleChunks (new_ProgressStream 5 []))
  = [BarStart 5 0; BarUpdate 2; BarUpdate 3; BarUpdate 5; BarStop]
  /\ exists before, runningTotals 0 sampleChunks = (before ++ [5%N])%list.
Proof.
  destruct (progress_stream_reports_the_bytes 5 sampleChunks)
    as (_ & _ & Hbar & _ & _ & _ & Hlast).
  split; [exact Hbar|]. apply Hlast. discriminate.
Defined.

Lemma push_uploads_witness :
  let l := added (scripted healthy) "students" [alice] defaultOptions
             loggedInWorld in
  In (TmpFile ".parquet", Ok (DString "/tmp/tmp-1.parquet")) l
  /\ In (ParquetAppendRow alice, Ok DUnit) l
  /\ In (FsStat "/tmp/tmp-1.parquet", Ok (DSize 128)) l.
Proof.
  cbv zeta.
  destruct (push_uploads_the_written_file nat (scripted healthy) "students"
              [alice] defaultOptions loggedInWorld)
    as (l & Hl & Hput & _).
  assert (Hadded : added (scripted healthy) "students" [alice]
                     defaultOptions loggedInWorld = l).
  { unfold added. rewrite Hl. simpl. reflexivity. }
  rewrite Hadded.
  destruct (Hput "https://bucket/put" "/tmp/tmp-1.parquet" 128%N (Ok DUnit))
    as (Hfile & _ & Hrows & _ & Hstat & _).
  - rewrite <- Hadded. vm_compute. auto 20.
  - split; [exact Hfile|]. split; [|exact Hstat].
    apply Hrows. now left.
Defined.

Lemma wrapper_runs_with_token_witness :
  execute (scripted healthy) "SELECT 1" [] freshWorld
  = ensureAuthenticated (scripted healthy)
      (execute_body (scripted healthy) "SELECT 1" []) freshWorld.
Proof.
  apply (proj1 (wrapper_runs_with_token nat (scripted healthy))).
  intros w Htok.
  unfold authenticated_execute, execute_body, bind, get_token.
  now rewrite Htok.
Defined.

Lemma http_failures_witness :
  instanceof_ChakraAPIError
    (ChakraAPIError "Table not found"
       (Some (mkResponse 400 (Some "Table not found")))) = true
  /\ isAxiosError
       (ChakraAPIError "Table not found"
          (Some (mkResponse 400 (Some "Table not found")))) = false.
Proof.
  destruct (http_failures_surface_as_ChakraAPIError nat
              (scripted queryRejected) loggedInWorld) as (_ & _ & Hexecute).
  destruct (Hexecute "SELECT * FROM missing" []
              (ChakraAPIError "Table not found"
                 (Some (mkResponse 400 (Some "Table not found")))))
    as [_ Hclass].
  - reflexivity.
  - apply (Hclass (mkResponse 400 (Some "Table not found"))). reflexivity.
Defined.

Lemma push_returns_witness :
  exists w2,
    authenticated_push (scripted healthy) "students" [alice] defaultOptions
      (snd (login (scripted healthy) freshWorld)) = (Ok tt, w2)
    /\ push (scripted healthy) "students" [alice] defaultOptions freshWorld
       = (Ok tt, w2).
Proof.
  apply (push_returns_when_every_call_is_answered nat (scripted healthy))
    with (fullName := "duckdb.main.students").
  - intros r e. eexists _, _. reflexivity.
  - reflexivity.
  - discriminate.
  - right. split; reflexivity.
Defined.
